(** * lip: tooth metadata decoding/encoding and the context's path derivation

    A shallow embedding of

    - package [toothmetadata] ([NewFromJSON], [Metadata.JSON]), and
    - package [contexts] ([createDirIfNotExist], the directory getters,
      [CalculateCachePath], [CalculateMetadataPath]),

    together with the parts of Go's standard library these functions call
    ([encoding/json], [regexp], [strings], [net/url], [path/filepath], [os]).
    Go strings are byte sequences: they are modelled by [string], whose
    characters are the 256 byte values. *)

From Stdlib Require Import ZArith Ascii String Floats.SpecFloat.
From Stdlib Require Import Decimal DecimalString DecimalNat DecimalZ.
From stdpp Require Import base option list gmap strings sorting.

Set Warnings "-register-all".
Set Default Proof Using "Type".

Open Scope string_scope.

(** ** Outcomes of a Go call returning [(T, error)]

    [Ok x] is [(x, nil)], [Err msg] is a non-nil error whose [Error()] text is
    [msg], and [Panic] is a run-time panic (here always a failed unchecked
    type assertion [v.(T)]), which unwinds the caller instead of returning. *)
Inductive result (A : Type) : Type :=
| Ok (a : A)
| Err (msg : string)
| Panic.
Arguments Ok {A} a.
Arguments Err {A} msg.
Arguments Panic {A}.

#[global] Instance result_ret : MRet result := @Ok.
#[global] Instance result_bind : MBind result := λ A B f r,
  match r with
  | Ok a => f a
  | Err msg => Err msg
  | Panic => Panic
  end.

Definition is_Ok {A} (r : result A) : Prop := ∃ a, r = Ok a.
Definition is_Err {A} (r : result A) : Prop := ∃ msg, r = Err msg.

(** [for i, x := range xs { out[i] = f(x) }] over a slice [out] allocated by
    [make]: every iteration stores at index [i]; the first failing [f] ends
    the enclosing function. *)
Fixpoint rangeStore {A B} (f : A → result B) (i : nat) (xs : list A)
    (out : list B) : result (list B) :=
  match xs with
  | [] => Ok out
  | x :: xs' => y ← f x; rangeStore f (S i) xs' (<[i := y]> out)
  end.

(** The same loop when [f] cannot fail. *)
Fixpoint rangeAssign {A B} (f : A → B) (i : nat) (xs : list A) (out : list B) : list B :=
  match xs with
  | [] => out
  | x :: xs' => rangeAssign f (S i) xs' (<[i := f x]> out)
  end.

(** [make([]T, n)]: [n] zero values. *)
Definition make {B} (zero : B) (n : nat) : list B := replicate n zero.

(** The element-wise traversal the loop amounts to. *)
Fixpoint traverse {A B} (f : A → result B) (xs : list A) : result (list B) :=
  match xs with
  | [] => Ok []
  | x :: xs' => y ← f x; ys ← traverse f xs'; Ok (y :: ys)
  end.

(** ** Bytes *)

Definition byte (c : ascii) : Z := Z.of_nat (nat_of_ascii c).
Definition chr (n : Z) : ascii := ascii_of_nat (Z.to_nat n).
Definition between (lo hi x : Z) : bool := (lo <=? x)%Z && (x <=? hi)%Z.

Definition LF : string := String (chr 10) EmptyString.
Definition QUOTE : string := String (chr 34) EmptyString.
Definition BACKSLASH : string := String (chr 92) EmptyString.

(** ** encoding/json *)
Module Json.

(** A [float64]: sign, mantissa and exponent of an IEEE 754 binary64 value
    (precision 53, maximal exponent 1024), a zero, an infinity or NaN. *)
Definition float64 : Type := spec_float.

(** What [json.Unmarshal] stores in an [interface{}]: [nil], [bool],
    [float64], [string], [[]interface{}] or [map[string]interface{}]. *)
Inductive value : Type :=
| Null
| Bool (b : bool)
| Number (f : float64)
| Str (s : string)
| Array (l : list value)
| Object (m : gmap string value).

(** [m[k]] on a [map[string]interface{}]: an absent key reads as the nil
    interface, the same dynamic value a JSON [null] decodes to. *)
Definition index (m : gmap string value) (k : string) : value :=
  default Null (m !! k).

(** Unchecked type assertions [v.(string)], [v.([]interface{})],
    [v.(map[string]interface{})]: a panic on any other dynamic type. *)
Definition assertString (v : value) : result string :=
  match v with Str s => Ok s | _ => Panic end.
Definition assertArray (v : value) : result (list value) :=
  match v with Array l => Ok l | _ => Panic end.
Definition assertObject (v : value) : result (gmap string value) :=
  match v with Object m => Ok m | _ => Panic end.

(** *** unicode/utf8.DecodeRuneInString

    The first rune of a non-empty string and its width in bytes; an invalid
    or truncated encoding yields [(RuneError, 1)]. *)
Definition RuneError : Z := 65533.

Definition decodeRune (s : string) : Z * nat :=
  match s with
  | EmptyString => (RuneError, 0)
  | String c0 rest =>
    let s0 := byte c0 in
    let cont (c : ascii) := between 128 191 (byte c) in
    let low6 (c : ascii) := Z.land (byte c) 63 in
    if (s0 <? 128)%Z then (s0, 1)
    else if between 194 223 s0 then
      match rest with
      | String c1 _ =>
        if cont c1 then (Z.lor (Z.shiftl (Z.land s0 31) 6) (low6 c1), 2)
        else (RuneError, 1)
      | _ => (RuneError, 1)
      end
    else if between 224 239 s0 then
      match rest with
      | String c1 (String c2 _) =>
        let lo := if (s0 =? 224)%Z then 160%Z else 128%Z in
        let hi := if (s0 =? 237)%Z then 159%Z else 191%Z in
        if between lo hi (byte c1) && cont c2 then
          (Z.lor (Z.shiftl (Z.land s0 15) 12)
             (Z.lor (Z.shiftl (low6 c1) 6) (low6 c2)), 3)
        else (RuneError, 1)
      | _ => (RuneError, 1)
      end
    else if between 240 244 s0 then
      match rest with
      | String c1 (String c2 (String c3 _)) =>
        let lo := if (s0 =? 240)%Z then 144%Z else 128%Z in
        let hi := if (s0 =? 244)%Z then 143%Z else 191%Z in
        if between lo hi (byte c1) && cont c2 && cont c3 then
          (Z.lor (Z.shiftl (Z.land s0 7) 18)
             (Z.lor (Z.shiftl (low6 c1) 12)
                (Z.lor (Z.shiftl (low6 c2) 6) (low6 c3))), 4)
        else (RuneError, 1)
      | _ => (RuneError, 1)
      end
    else (RuneError, 1)
  end.

(** *** The encoder's string literal, with [escapeHTML = false]

    [hex] is the encoder's digit table.  A byte below 0x20, the quote and the
    backslash are escaped; with HTML escaping off every other ASCII byte is
    copied.  An invalid byte becomes the escape of U+FFFD.  U+2028 and U+2029
    are escaped whatever [escapeHTML] says.  Every other rune is copied.
    (Bytes 8 and 12 are written with four hexadecimal digits, as the
    releases of Go before 1.22 do; later ones write a backslash and a
    letter.) *)
Definition hex (n : Z) : string :=
  String.substring (Z.to_nat n) 1 "0123456789abcdef".

Definition escapeByte (c : ascii) : string :=
  let b := byte c in
  if (b =? 92)%Z || (b =? 34)%Z then BACKSLASH ++ String c EmptyString
  else if (b =? 10)%Z then BACKSLASH ++ "n"
  else if (b =? 13)%Z then BACKSLASH ++ "r"
  else if (b =? 9)%Z then BACKSLASH ++ "t"
  else BACKSLASH ++ "u00" ++ hex (Z.shiftr b 4) ++ hex (Z.land b 15).

Definition safeByte (c : ascii) : bool :=
  let b := byte c in
  (32 <=? b)%Z && (b <? 128)%Z && negb (b =? 34)%Z && negb (b =? 92)%Z.

(** [pending] counts the remaining bytes of a rune already dealt with;
    [keep] tells whether they are copied (an ordinary rune) or were replaced
    (an escaped line or paragraph separator). *)
Fixpoint appendString (pending : nat) (keep : bool) (s : string) : string :=
  match s with
  | EmptyString => EmptyString
  | String c rest =>
    match pending with
    | S k => (if keep then String c EmptyString else EmptyString)
             ++ appendString k keep rest
    | O =>
      if (byte c <? 128)%Z then
        (if safeByte c then String c EmptyString else escapeByte c)
        ++ appendString 0 true rest
      else
        let '(r, size) := decodeRune s in
        if (r =? RuneError)%Z && (size =? 1)%nat then
          BACKSLASH ++ "ufffd" ++ appendString 0 true rest
        else if (r =? 8232)%Z || (r =? 8233)%Z then
          BACKSLASH ++ "u202" ++ hex (Z.land r 15)
          ++ appendString (size - 1) false rest
        else String c EmptyString ++ appendString (size - 1) true rest
    end
  end.

Definition quote (s : string) : string := QUOTE ++ appendString 0 true s ++ QUOTE.

(** [utf8.ValidString]: no byte of the string reads as an encoding error.
    [pending] counts the remaining bytes of a rune already read. *)
Fixpoint validFrom (pending : nat) (s : string) : bool :=
  match s with
  | EmptyString => true
  | String c rest =>
    match pending with
    | S k => validFrom k rest
    | O =>
      if (byte c <? 128)%Z then validFrom 0 rest
      else
        let '(r, size) := decodeRune s in
        negb ((r =? RuneError)%Z && (size =? 1)%nat) && validFrom (size - 1) rest
    end
  end.

Definition validString (s : string) : bool := validFrom 0 s.

(** *** Encoder.Encode with [SetIndent(EmptyString, two spaces)]

    Object members are written in increasing byte order of their keys, one
    member or element per line, each nesting level indented by two more
    spaces; an empty array or object has nothing between its brackets.  The
    text of a [float64] comes from [strconv]; it is a parameter here
    ([None] for NaN and the infinities, which the encoder refuses). *)
Definition indent (depth : nat) : string :=
  String.concat EmptyString (replicate depth "  ").

Definition keyLe (a b : string * string) : Prop := String.le a.1 b.1.
#[global] Instance keyLe_dec : RelDecision keyLe.
Proof. intros a b. unfold keyLe. apply _. Defined.

Definition block (depth : nat) (opening closing : string) (items : list string) : string :=
  match items with
  | [] => opening ++ closing
  | _ =>
    opening ++ LF ++ indent (S depth)
    ++ String.concat ("," ++ LF ++ indent (S depth)) items
    ++ LF ++ indent depth ++ closing
  end.

Definition member (kv : string * string) : string := quote kv.1 ++ ": " ++ kv.2.

(** Collects the encoded members; [None] as soon as one value is refused. *)
Definition members (kvs : list (string * option string)) : option (list (string * string)) :=
  mapM (λ kv : string * option string, v ← kv.2; Some (kv.1, v)) kvs.

Fixpoint encodeValue (formatFloat : float64 → option string) (depth : nat)
    (v : value) : option string :=
  match v with
  | Null => Some "null"
  | Bool b => Some (if b then "true" else "false")
  | Number f => formatFloat f
  | Str s => Some (quote s)
  | Array l =>
    items ← mapM (encodeValue formatFloat (S depth)) l;
    Some (block depth "[" "]" items)
  | Object m =>
    kvs ← members (map_to_list (encodeValue formatFloat (S depth) <$> m));
    Some (block depth "{" "}" (member <$> merge_sort keyLe kvs))
  end.

(** [Encode] terminates the document with a newline.  Its error is an
    unsupported value (a NaN or infinite number). *)
Definition Encode (formatFloat : float64 → option string) (v : value) : string + string :=
  match encodeValue formatFloat 0 v with
  | Some text => inl (text ++ LF)
  | None => inr "json: unsupported value"
  end.

End Json.

(** ** regexp: the one expression the package compiles

    [^[a-zA-Z0-9]\S*$]: a first byte that is an ASCII letter or digit, then
    up to the end of the text no byte of the class [\s], which is tab, line
    feed, form feed, carriage return and space.  Both classes are ASCII, so
    matching bytes and matching runes agree.  The expression is anchored at
    both ends: its only possible match is the whole text, and [FindString]
    returns the empty string when there is no match. *)
Module Regexp.

Definition isAlnum (c : ascii) : bool :=
  let b := byte c in between 97 122 b || between 65 90 b || between 48 57 b.

Definition isSpace (c : ascii) : bool :=
  let b := byte c in
  (b =? 9)%Z || (b =? 10)%Z || (b =? 12)%Z || (b =? 13)%Z || (b =? 32)%Z.

Fixpoint noSpace (s : string) : bool :=
  match s with
  | EmptyString => true
  | String c rest => negb (isSpace c) && noSpace rest
  end.

Definition matches (s : string) : bool :=
  match s with
  | EmptyString => false
  | String c rest => isAlnum c && noSpace rest
  end.

Definition FindString (s : string) : string :=
  if matches s then s else EmptyString.

End Regexp.

(** ** package toothmetadata *)
Module Toothmetadata.
Import Json.

(** What the package imports and [src/] does not contain: the version and
    version-match types of the repository with their parsers and printers
    (a parser returns the value or the text of its error), the tooth-path
    predicate, and from Go's library [strings.ToLower], [json.Unmarshal]
    into a [map[string]interface{}] and the number formatting of the
    encoder.  [versionmatch_zero] is the zero value [make] fills a slice
    with. *)
Class Imports := {
  versionutils_Version : Type;
  versionutils_NewFromString : string → versionutils_Version + string;
  versionutils_String : versionutils_Version → string;
  versionmatch_VersionMatch : Type;
  versionmatch_zero : versionmatch_VersionMatch;
  versionmatch_NewFromString : string → versionmatch_VersionMatch + string;
  versionmatch_String : versionmatch_VersionMatch → string;
  tooth_IsValidToothPath : string → bool;
  strings_ToLower : string → string;
  json_Unmarshal : string → gmap string value + string;
  strconv_formatFloat : float64 → option string;
}.

Record InfoStruct := {
  Name : string;
  Description : string;
  Author : string;
  License : string;
  Homepage : string;
}.

Record PlacementStruct := {
  Source : string;
  Destination : string;
}.

Record Metadata `{Imports} := {
  ToothPath : string;
  Version : versionutils_Version;
  Dependencies : gmap string (list (list versionmatch_VersionMatch));
  Information : InfoStruct;
  Placement : list PlacementStruct;
}.

Definition decodePrefix : string := "failed to decode JSON into metadata: ".

Section Package.
Context `{Imports}.

(** Body of the innermost loop of the dependencies (lines 70-77). *)
Definition decodeVersionMatch (versionMatch : value) : result versionmatch_VersionMatch :=
  text ← assertString versionMatch;
  match versionmatch_NewFromString text with
  | inr err => Err (decodePrefix ++ err)
  | inl versionMatch => Ok versionMatch
  end.

(** Lines 69-77: one AND-group. *)
Definition decodeInnerList (versionMatchInnerList : value) : result (list versionmatch_VersionMatch) :=
  inner ← assertArray versionMatchInnerList;
  rangeStore decodeVersionMatch 0 inner (make versionmatch_zero (length inner)).

(** Lines 67-78: the OR-groups of one dependency. *)
Definition decodeOuterList (versionMatchOuterList : value) : result (list (list versionmatch_VersionMatch)) :=
  outer ← assertArray versionMatchOuterList;
  rangeStore decodeInnerList 0 outer (make [] (length outer)).

(** Lines 66-79: [range] over the dependencies object.  Go leaves the order
    of a map iteration unspecified; the entries are taken in the order
    [map_to_list] lists them.  Whether the loop ends normally, and with which
    map, is the same in every order ([rangeDependencies_any_order]); which
    error or panic ends it when several entries fail is not, and the
    statements below do not depend on it. *)
Fixpoint rangeDependencies (entries : list (string * value))
    (dependencies : gmap string (list (list versionmatch_VersionMatch)))
    : result (gmap string (list (list versionmatch_VersionMatch))) :=
  match entries with
  | [] => Ok dependencies
  | (toothPath, versionMatchOuterList) :: entries' =>
    outer ← decodeOuterList versionMatchOuterList;
    rangeDependencies entries' (<[toothPath := outer]> dependencies)
  end.

(** Lines 88-104: one placement. *)
Definition decodePlacement (placement : value) : result PlacementStruct :=
  source ← (entry ← assertObject placement; assertString (index entry "source"));
  destination ← (entry ← assertObject placement; assertString (index entry "destination"));
  if negb (String.eqb (Regexp.FindString source) source) then
    Err (decodePrefix ++ "invalid source: " ++ source)
  else if negb (String.eqb (Regexp.FindString destination) destination) then
    Err (decodePrefix ++ "invalid destination: " ++ destination)
  else Ok {| Source := source; Destination := destination |}.

Definition informationField (metadataMap : gmap string value) (field : string) : result string :=
  information ← assertObject (index metadataMap "information");
  assertString (index information field).

(** [NewFromJSON] after [json.Unmarshal] has succeeded (lines 49-106). *)
Definition decodeMap (metadataMap : gmap string value) : result Metadata :=
  tooth ← assertString (index metadataMap "tooth");
  let toothPath := strings_ToLower tooth in
  if negb (tooth_IsValidToothPath toothPath) then
    Err (decodePrefix ++ "invalid tooth path: " ++ toothPath)
  else
    versionString ← assertString (index metadataMap "version");
    match versionutils_NewFromString versionString with
    | inr err => Err (decodePrefix ++ err)
    | inl version =>
      entries ← assertObject (index metadataMap "dependencies");
      dependencies ← rangeDependencies (map_to_list entries) ∅;
      name ← informationField metadataMap "name";
      description ← informationField metadataMap "description";
      author ← informationField metadataMap "author";
      license ← informationField metadataMap "license";
      homepage ← informationField metadataMap "homepage";
      placements ← assertArray (index metadataMap "placement");
      placement ← rangeStore decodePlacement 0 placements
        (make {| Source := EmptyString; Destination := EmptyString |} (length placements));
      Ok {| ToothPath := toothPath;
            Version := version;
            Dependencies := dependencies;
            Information := {| Name := name; Description := description;
                              Author := author; License := license;
                              Homepage := homepage |};
            Placement := placement |}
    end.

Definition NewFromJSON (jsonData : string) : result Metadata :=
  match json_Unmarshal jsonData with
  | inr err => Err (decodePrefix ++ err)
  | inl metadataMap => decodeMap metadataMap
  end.

(** Lines 123-126 and 120-127 of [JSON]. *)
Definition encodeInnerList (versionMatchInnerList : list versionmatch_VersionMatch) : value :=
  Array (rangeAssign (λ versionMatch, Str (versionmatch_String versionMatch)) 0
           versionMatchInnerList (make Null (length versionMatchInnerList))).

Definition encodeOuterList (versionMatchOuterList : list (list versionmatch_VersionMatch)) : value :=
  Array (rangeAssign encodeInnerList 0 versionMatchOuterList
           (make Null (length versionMatchOuterList))).

(** Lines 117-128: [range] over [metadata.Dependencies], one store per key. *)
Definition encodeDependencies (dependencies : gmap string (list (list versionmatch_VersionMatch)))
    : gmap string value :=
  map_fold (λ toothPath outer acc, <[toothPath := encodeOuterList outer]> acc) ∅ dependencies.

Definition encodeInformation (information : InfoStruct) : gmap string value :=
  <["homepage" := Str (Homepage information)]>
    (<["license" := Str (License information)]>
      (<["author" := Str (Author information)]>
        (<["description" := Str (Description information)]>
          (<["name" := Str (Name information)]> ∅)))).

Definition encodePlacement (placement : PlacementStruct) : value :=
  Object (<["destination" := Str (Destination placement)]>
            (<["source" := Str (Source placement)]> ∅)).

(** The [metadataMap] that [JSON] hands to the encoder (lines 111-142). *)
Definition metadataMapOf (metadata : Metadata) : gmap string value :=
  <["placement" := Array (rangeAssign encodePlacement 0 (Placement metadata)
                            (make Null (length (Placement metadata))))]>
    (<["information" := Object (encodeInformation (Information metadata))]>
      (<["dependencies" := Object (encodeDependencies (Dependencies metadata))]>
        (<["version" := Str (versionutils_String (Version metadata))]>
          (<["tooth" := Str (ToothPath metadata)]> ∅)))).

Definition JSON (metadata : Metadata) : result string :=
  match Encode strconv_formatFloat (Object (metadataMapOf metadata)) with
  | inr err => Err ("failed to encode metadata into JSON: " ++ err)
  | inl bytes => Ok bytes
  end.

(** *** Vocabulary for statements about documents

    [hasType] tells whether a type assertion on the value succeeds. *)
Definition hasString (v : value) : Prop := ∃ s, v = Str s.
Definition hasArray (v : value) : Prop := ∃ l, v = Array l.
Definition hasObject (v : value) : Prop := ∃ m, v = Object m.

(** The five keys [NewFromJSON] reads at the top of a document. *)
Definition topLevelFields : list string :=
  ["tooth"; "version"; "dependencies"; "information"; "placement"].

Definition informationFields : list string :=
  ["name"; "description"; "author"; "license"; "homepage"].

(** The tooth is a string whose lower-casing is a valid tooth path. *)
Definition toothOk (metadataMap : gmap string value) : Prop :=
  ∃ tooth, metadataMap !! "tooth" = Some (Str tooth)
    ∧ tooth_IsValidToothPath (strings_ToLower tooth) = true.

(** The version is a string that parses. *)
Definition versionOk (metadataMap : gmap string value) : Prop :=
  ∃ text version, metadataMap !! "version" = Some (Str text)
    ∧ versionutils_NewFromString text = inl version.

(** The dependencies are an object and the loop over it ends normally. *)
Definition dependenciesOk (metadataMap : gmap string value) : Prop :=
  ∃ entries dependencies, metadataMap !! "dependencies" = Some (Object entries)
    ∧ rangeDependencies (map_to_list entries) ∅ = Ok dependencies.

(** The information is an object holding a string under each of the five
    names. *)
Definition informationOk (metadataMap : gmap string value) : Prop :=
  ∃ information, metadataMap !! "information" = Some (Object information)
    ∧ ∀ field, field ∈ informationFields → hasString (index information field).

(** A match is printed canonically when its text parses back to it. *)
Definition canonicalMatch (vm : versionmatch_VersionMatch) : Prop :=
  versionmatch_NewFromString (versionmatch_String vm) = inl vm.

(** The check of lines 95 and 98 lets the token through. *)
Definition tokenAccepted (token : string) : Prop :=
  String.eqb (Regexp.FindString token) token = true.

(** The placement is an array and the loop over it ends normally. *)
Definition placementOk (metadataMap : gmap string value) : Prop :=
  ∃ placements placement, metadataMap !! "placement" = Some (Array placements)
    ∧ traverse decodePlacement placements = Ok placement.

(** *** What a document says, read without the loops

    A version match is a string that parses; a group is an array of them and
    a dependency an array of groups, read position by position. *)
Definition matchDecodes (v : value) (versionMatch : versionmatch_VersionMatch) : Prop :=
  ∃ text, v = Str text ∧ versionmatch_NewFromString text = inl versionMatch.

Definition groupDecodes (v : value) (group : list versionmatch_VersionMatch) : Prop :=
  ∃ inner, v = Array inner ∧ Forall2 matchDecodes inner group.

Definition groupsDecode (v : value) (groups : list (list versionmatch_VersionMatch)) : Prop :=
  ∃ outer, v = Array outer ∧ Forall2 groupDecodes outer groups.

(** A placement is an object with two strings that pass the check. *)
Definition placementDecodes (v : value) (placement : PlacementStruct) : Prop :=
  ∃ entry, v = Object entry
    ∧ index entry "source" = Str (Source placement)
    ∧ index entry "destination" = Str (Destination placement)
    ∧ tokenAccepted (Source placement) ∧ tokenAccepted (Destination placement).

(** The document [metadataMap] describes the metadata. *)
Definition describes (metadataMap : gmap string value) (metadata : Metadata) : Prop :=
  (∃ tooth, metadataMap !! "tooth" = Some (Str tooth)
     ∧ ToothPath metadata = strings_ToLower tooth
     ∧ tooth_IsValidToothPath (strings_ToLower tooth) = true)
  ∧ (∃ text, metadataMap !! "version" = Some (Str text)
       ∧ versionutils_NewFromString text = inl (Version metadata))
  ∧ (∃ entries, metadataMap !! "dependencies" = Some (Object entries)
       ∧ ∀ toothPath,
           match entries !! toothPath with
           | Some v => ∃ groups, Dependencies metadata !! toothPath = Some groups
                                 ∧ groupsDecode v groups
           | None => Dependencies metadata !! toothPath = None
           end)
  ∧ (∃ information, metadataMap !! "information" = Some (Object information)
       ∧ index information "name" = Str (Name (Information metadata))
       ∧ index information "description" = Str (Description (Information metadata))
       ∧ index information "author" = Str (Author (Information metadata))
       ∧ index information "license" = Str (License (Information metadata))
       ∧ index information "homepage" = Str (Homepage (Information metadata)))
  ∧ (∃ placements, metadataMap !! "placement" = Some (Array placements)
       ∧ Forall2 placementDecodes placements (Placement metadata)).

(** The types the decoder asserts, field by field: the document has them
    when every type assertion of [NewFromJSON] would succeed. *)
Definition typedGroups (v : value) : Prop :=
  ∃ outer, v = Array outer
    ∧ Forall (λ group, ∃ inner, group = Array inner ∧ Forall hasString inner) outer.

Definition typedPlacement (v : value) : Prop :=
  ∃ entry, v = Object entry
    ∧ hasString (index entry "source") ∧ hasString (index entry "destination").

Definition wellTyped (metadataMap : gmap string value) : Prop :=
  hasString (index metadataMap "tooth")
  ∧ hasString (index metadataMap "version")
  ∧ (∃ entries, index metadataMap "dependencies" = Object entries
       ∧ map_Forall (λ _ v, typedGroups v) entries)
  ∧ (∃ information, index metadataMap "information" = Object information
       ∧ ∀ field, field ∈ informationFields → hasString (index information field))
  ∧ (∃ placements, index metadataMap "placement" = Array placements
       ∧ Forall typedPlacement placements).

(** Every string of the metadata, as [JSON] writes it, is valid UTF-8: an
    invalid byte would be written as the escape of U+FFFD and read back as
    that rune. *)
Definition validStrings (metadata : Metadata) : Prop :=
  validString (ToothPath metadata) = true
  ∧ validString (versionutils_String (Version metadata)) = true
  ∧ map_Forall (λ toothPath outer,
      validString toothPath = true
      ∧ Forall (Forall (λ versionMatch,
                  validString (versionmatch_String versionMatch) = true)) outer)
      (Dependencies metadata)
  ∧ validString (Name (Information metadata)) = true
  ∧ validString (Description (Information metadata)) = true
  ∧ validString (Author (Information metadata)) = true
  ∧ validString (License (Information metadata)) = true
  ∧ validString (Homepage (Information metadata)) = true
  ∧ Forall (λ placement, validString (Source placement) = true
                         ∧ validString (Destination placement) = true)
      (Placement metadata).

(** The kinds of error [NewFromJSON] returns after the document has been
    read: the text that follows [decodePrefix]. *)
Definition decodeErrorDetail (detail : string) : Prop :=
  (∃ toothPath, detail = "invalid tooth path: " ++ toothPath
     ∧ tooth_IsValidToothPath toothPath = false)
  ∨ (∃ text, versionutils_NewFromString text = inr detail)
  ∨ (∃ text, versionmatch_NewFromString text = inr detail)
  ∨ (∃ token, detail = "invalid source: " ++ token ∧ ¬ tokenAccepted token)
  ∨ (∃ token, detail = "invalid destination: " ++ token ∧ ¬ tokenAccepted token).

End Package.
End Toothmetadata.

(** ** net/url: QueryEscape

    Letters, digits and the four marks [-_.~] are copied, a space becomes a
    plus sign, and every other byte becomes a percent sign followed by its two
    upper-case hexadecimal digits. *)
Module Url.

Definition upperhex (n : Z) : string :=
  String.substring (Z.to_nat n) 1 "0123456789ABCDEF".

Definition unreserved (c : ascii) : bool :=
  let b := byte c in
  Regexp.isAlnum c || (b =? 45)%Z || (b =? 95)%Z || (b =? 46)%Z || (b =? 126)%Z.

Definition escapeOne (c : ascii) : string :=
  if unreserved c then String c EmptyString
  else if (byte c =? 32)%Z then "+"
  else "%" ++ upperhex (Z.shiftr (byte c) 4) ++ upperhex (Z.land (byte c) 15).

Fixpoint QueryEscape (s : string) : string :=
  match s with
  | EmptyString => EmptyString
  | String c rest => escapeOne c ++ QueryEscape rest
  end.

(** The bytes an escaped text is made of: the unreserved ones, the percent
    sign and the plus sign. *)
Definition escapedByte (c : ascii) : bool :=
  unreserved c || (byte c =? 37)%Z || (byte c =? 43)%Z.

Fixpoint allEscaped (s : string) : bool :=
  match s with
  | EmptyString => true
  | String c rest => escapedByte c && allEscaped rest
  end.

(** Reads one escaped byte back: the inverse of [escapeOne] on its image,
    as [url.QueryUnescape] does. *)
Definition unhex (c : ascii) : Z :=
  let b := byte c in
  if between 48 57 b then (b - 48)%Z
  else if between 65 70 b then (b - 55)%Z
  else (b - 87)%Z.

Definition unescapeOne (s : string) : option (ascii * string) :=
  match s with
  | EmptyString => None
  | String c rest =>
    if (byte c =? 43)%Z then Some (chr 32, rest)
    else if (byte c =? 37)%Z then
      match rest with
      | String hi (String lo rest') => Some (chr (16 * unhex hi + unhex lo), rest')
      | _ => None
      end
    else Some (c, rest)
  end.

End Url.

(** ** path/filepath with the separator [/]

    [Clean] follows its documented rules: runs of separators count as one,
    [.] elements are dropped, an inner [..] removes the element before it, a
    [..] at the root is dropped, and an empty result is written [.].  [Join]
    skips leading empty elements, joins the rest with the separator and
    cleans the result; with no non-empty element it returns the empty
    string. *)
Module Filepath.

Definition isSeparator (c : ascii) : bool := (byte c =? 47)%Z.

(** The elements between separators, from left to right. *)
Fixpoint split (path : string) : list string :=
  match path with
  | EmptyString => [EmptyString]
  | String c rest =>
    if isSeparator c then EmptyString :: split rest
    else match split rest with
         | elem :: elems => String c elem :: elems
         | [] => [String c EmptyString]
         end
  end.

(** One element read by [Clean]; [out] holds the elements kept so far, the
    last one first. *)
Definition cleanStep (rooted : bool) (out : list string) (elem : string) : list string :=
  if String.eqb elem EmptyString || String.eqb elem "." then out
  else if String.eqb elem ".." then
    match out with
    | top :: below =>
      if String.eqb top ".." then elem :: out else below
    | [] => if rooted then out else [elem]
    end
  else elem :: out.

Definition isRooted (path : string) : bool :=
  match path with
  | String c _ => isSeparator c
  | EmptyString => false
  end.

Definition render (rooted : bool) (out : list string) : string :=
  let body := String.concat "/" (rev out) in
  if rooted then "/" ++ body
  else if String.eqb body EmptyString then "." else body.

Definition Clean (path : string) : string :=
  if String.eqb path EmptyString then "."
  else render (isRooted path) (fold_left (cleanStep (isRooted path)) (split path) []).

(** [Join(a, b)]. *)
Definition Join (a b : string) : string :=
  if negb (String.eqb a EmptyString) then Clean (a ++ "/" ++ b)
  else if negb (String.eqb b EmptyString) then Clean b
  else EmptyString.

(** No separator in a string. *)
Fixpoint noSeparator (s : string) : bool :=
  match s with
  | EmptyString => true
  | String c rest => negb (isSeparator c) && noSeparator rest
  end.

(** An element that [Clean] keeps as it is: not empty, no separator, and
    neither [.] nor [..]. *)
Definition plainElem (elem : string) : bool :=
  noSeparator elem && negb (String.eqb elem EmptyString)
  && negb (String.eqb elem ".") && negb (String.eqb elem "..").

(** The elements [Clean] keeps for a path, the last one first. *)
Definition cleanStack (path : string) : list string :=
  fold_left (cleanStep (isRooted path)) (split path) [].

(** The stacks [Clean] can build: plain elements on top of a run of [..]
    elements, which is empty when the path is rooted. *)
Fixpoint cleanForm (rooted : bool) (out : list string) : bool :=
  match out with
  | [] => true
  | elem :: below =>
    (plainElem elem
     || (String.eqb elem ".." && negb rooted && forallb (String.eqb "..") below))
    && cleanForm rooted below
  end.

End Filepath.

(** ** package contexts *)
Module Contexts.

(** The operating system as [os.Stat], [os.MkdirAll] and [os.IsNotExist]
    see it.  [FS] is the state of the file system; a call that fails returns
    the error value, whose text is [ErrorText]. *)
Class OS := {
  FS : Type;
  FileInfo : Type;
  IsDir : FileInfo → bool;
  PathError : Type;
  IsNotExist : PathError → bool;
  ErrorText : PathError → string;
  Stat : string → FS → FileInfo + PathError;
  MkdirAll : string → FS → FS * option PathError;
}.

(** [versions.Version] is declared in a package that is not part of the
    sources at hand; the context only stores it. *)
Record Context {versions_Version : Type} := {
  lipVersion : versions_Version;
  globalDotLipDir : string;
  workspaceDir : string;
  goProxyList : list string;
}.
Arguments Context : clear implicits.

Section Package.
Context `{OS} {versions_Version : Type}.

(** A method returning [(string, error)] and touching the disk: the new
    file-system state and either the path or the text of the error. *)
Definition IO (A : Type) : Type := FS → FS * (A + string).

(** [createDirIfNotExist] (lines 170-183); [None] is the nil error. *)
Definition createDirIfNotExist (dir : string) (fs : FS) : FS * option string :=
  match Stat dir fs with
  | inr err =>
    if IsNotExist err then
      match MkdirAll dir fs with
      | (fs', Some err') => (fs', Some ("cannot create directory: " ++ ErrorText err'))
      | (fs', None) => (fs', None)
      end
    else (fs, Some ("cannot get directory info: " ++ ErrorText err))
  | inl _ => (fs, None)
  end.

Definition New (lipVersion : versions_Version) (globalDotLipDir workspaceDir : string)
    (goProxyList : list string) : Context versions_Version :=
  {| lipVersion := lipVersion; globalDotLipDir := globalDotLipDir;
     workspaceDir := workspaceDir; goProxyList := goProxyList |}.

Definition GlobalDotLipDir (ctx : Context versions_Version) : IO string := λ fs,
  match createDirIfNotExist (globalDotLipDir ctx) fs with
  | (fs', Some err) => (fs', inr ("cannot create global .lip directory: " ++ err))
  | (fs', None) => (fs', inl (globalDotLipDir ctx))
  end.

Definition CacheDir (ctx : Context versions_Version) : IO string := λ fs,
  match GlobalDotLipDir ctx fs with
  | (fs', inr err) => (fs', inr ("cannot get global .lip directory: " ++ err))
  | (fs', inl globalDotLipDir) =>
    let path := Filepath.Join globalDotLipDir "cache" in
    match createDirIfNotExist path fs' with
    | (fs'', Some err) => (fs'', inr ("cannot create cache directory: " ++ err))
    | (fs'', None) => (fs'', inl path)
    end
  end.

Definition CalculateCachePath (ctx : Context versions_Version) (fileURL : string) : IO string := λ fs,
  let fileName := Url.QueryEscape fileURL in
  match CacheDir ctx fs with
  | (fs', inr err) => (fs', inr ("cannot get cache directory: " ++ err))
  | (fs', inl cacheDir) => (fs', inl (Filepath.Join cacheDir fileName))
  end.

Definition WorkspaceDir (ctx : Context versions_Version) : IO string := λ fs,
  match createDirIfNotExist (workspaceDir ctx) fs with
  | (fs', Some err) => (fs', inr ("cannot create workspace directory: " ++ err))
  | (fs', None) => (fs', inl (workspaceDir ctx))
  end.

Definition WorkspaceDotLipDir (ctx : Context versions_Version) : IO string := λ fs,
  match WorkspaceDir ctx fs with
  | (fs', inr err) => (fs', inr ("cannot get workspace directory: " ++ err))
  | (fs', inl workspaceDir) =>
    let path := Filepath.Join workspaceDir ".lip" in
    match createDirIfNotExist path fs' with
    | (fs'', Some err) => (fs'', inr ("cannot create workspace .lip directory: " ++ err))
    | (fs'', None) => (fs'', inl path)
    end
  end.

Definition MetadataDir (ctx : Context versions_Version) : IO string := λ fs,
  match WorkspaceDotLipDir ctx fs with
  | (fs', inr err) => (fs', inr ("cannot get workspace .lip directory: " ++ err))
  | (fs', inl workspaceDotLipDir) =>
    let path := Filepath.Join workspaceDotLipDir "metadata" in
    match createDirIfNotExist path fs' with
    | (fs'', Some err) => (fs'', inr ("cannot create metadata directory: " ++ err))
    | (fs'', None) => (fs'', inl path)
    end
  end.

Definition PluginDir (ctx : Context versions_Version) : IO string := λ fs,
  match WorkspaceDotLipDir ctx fs with
  | (fs', inr err) => (fs', inr ("cannot get workspace .lip directory: " ++ err))
  | (fs', inl workspaceDotLipDir) =>
    let path := Filepath.Join workspaceDotLipDir "plugins" in
    match createDirIfNotExist path fs' with
    | (fs'', Some err) => (fs'', inr ("cannot create plugin directory: " ++ err))
    | (fs'', None) => (fs'', inl path)
    end
  end.

Definition CalculateMetadataPath (ctx : Context versions_Version) (toothRepo : string) : IO string := λ fs,
  let fileName := Url.QueryEscape toothRepo ++ ".json" in
  match MetadataDir ctx fs with
  | (fs', inr err) => (fs', inr ("cannot get metadata directory: " ++ err))
  | (fs', inl metadataDir) => (fs', inl (Filepath.Join metadataDir fileName))
  end.

Definition GoProxyList (ctx : Context versions_Version) : list string := goProxyList ctx.
Definition LipVersion (ctx : Context versions_Version) : versions_Version := lipVersion ctx.

(** The six directory getters, and for each the directories it has
    [createDirIfNotExist] look at, in call order; the last one is the path
    it returns. *)
Inductive DirOp :=
| OpGlobalDotLipDir | OpCacheDir | OpWorkspaceDir | OpWorkspaceDotLipDir
| OpMetadataDir | OpPluginDir.

Definition runDirOp (op : DirOp) : Context versions_Version → IO string :=
  match op with
  | OpGlobalDotLipDir => GlobalDotLipDir
  | OpCacheDir => CacheDir
  | OpWorkspaceDir => WorkspaceDir
  | OpWorkspaceDotLipDir => WorkspaceDotLipDir
  | OpMetadataDir => MetadataDir
  | OpPluginDir => PluginDir
  end.

Definition dirChain (op : DirOp) (ctx : Context versions_Version) : list string :=
  let dotLip := Filepath.Join (workspaceDir ctx) ".lip" in
  match op with
  | OpGlobalDotLipDir => [globalDotLipDir ctx]
  | OpCacheDir => [globalDotLipDir ctx; Filepath.Join (globalDotLipDir ctx) "cache"]
  | OpWorkspaceDir => [workspaceDir ctx]
  | OpWorkspaceDotLipDir => [workspaceDir ctx; dotLip]
  | OpMetadataDir => [workspaceDir ctx; dotLip; Filepath.Join dotLip "metadata"]
  | OpPluginDir => [workspaceDir ctx; dotLip; Filepath.Join dotLip "plugins"]
  end.

Definition targetOf (op : DirOp) (ctx : Context versions_Version) : string :=
  List.last (dirChain op ctx) EmptyString.

(** [createDirIfNotExist] on each directory in turn, up to the first
    failure. *)
Fixpoint ensureDirs (dirs : list string) (fs : FS) : FS * option string :=
  match dirs with
  | [] => (fs, None)
  | dir :: rest =>
    match createDirIfNotExist dir fs with
    | (fs', None) => ensureDirs rest fs'
    | (fs', Some err) => (fs', Some err)
    end
  end.

(** The path exists on the disk, as a directory or as anything else. *)
Definition exists_ (dir : string) (fs : FS) : Prop := ∃ info, Stat dir fs = inl info.

(** The directories are had one after the other, from the disk [fs] to the
    disk [fs']: each one exists already, or [os.Stat] reports it missing
    and [os.MkdirAll] creates it. *)
Fixpoint prepares (dirs : list string) (fs fs' : FS) : Prop :=
  match dirs with
  | [] => fs' = fs
  | dir :: rest =>
    (exists_ dir fs ∧ prepares rest fs fs')
    ∨ (∃ e fs1, Stat dir fs = inr e ∧ IsNotExist e = true
         ∧ MkdirAll dir fs = (fs1, None) ∧ prepares rest fs1 fs')
  end.

(** Why [createDirIfNotExist] failed on the directory [dir] of the disk
    [fs0], the disk it left and the text of its error: [os.Stat] failed
    otherwise than with not-exist, or [os.MkdirAll] failed. *)
Definition failedOn (dir : string) (fs0 fs' : FS) (detail : string) : Prop :=
  ∃ e, Stat dir fs0 = inr e
    ∧ ((IsNotExist e = false ∧ fs' = fs0
        ∧ detail = "cannot get directory info: " ++ ErrorText e)
       ∨ (IsNotExist e = true
          ∧ ∃ e', MkdirAll dir fs0 = (fs', Some e')
              ∧ detail = "cannot create directory: " ++ ErrorText e')).

(** The disk after [os.MkdirAll] has been called on each directory in
    turn. *)
Definition mkdirs (dirs : list string) (fs : FS) : FS :=
  fold_left (λ fs0 dir, (MkdirAll dir fs0).1) dirs fs.

End Package.
End Contexts.

(** ** Dependency constraints *)
Module Constraints.
Section Satisfaction.
Context {Version VersionMatch : Type}.

(** The atomic predicate [Matches(VersionMatch, Version)]; its code is not
    among the sources. *)
Variable Matches : VersionMatch → Version → bool.

(** Modelled from the spec: no function of [src/] evaluates a constraint.
    Section 3: a candidate satisfies an outer group iff it satisfies all the
    matches of the group; an empty group is vacuously satisfied. *)
Fixpoint satisfiesGroup (group : list VersionMatch) (candidate : Version) : bool :=
  match group with
  | [] => true
  | versionMatch :: rest =>
    if Matches versionMatch candidate then satisfiesGroup rest candidate else false
  end.

(** Modelled from the spec: no function of [src/] evaluates a constraint.
    Sections 3 and 4.2: the entry of a dependency is satisfied iff at least
    one outer group is, looking at the groups in order and stopping at the
    first satisfied one; an empty outer sequence is unsatisfiable. *)
Fixpoint satisfiesEntry (groups : list (list VersionMatch)) (candidate : Version) : bool :=
  match groups with
  | [] => false
  | group :: rest =>
    if satisfiesGroup group candidate then true else satisfiesEntry rest candidate
  end.

(** Modelled from the spec: no function of [src/] evaluates a constraint.
    Section 4.2, [Satisfies(DependencyConstraintSet, path, Version)]: false
    when [path] is absent from the set. *)
Definition Satisfies (set : gmap string (list (list VersionMatch))) (path : string)
    (candidate : Version) : bool :=
  match set !! path with
  | None => false
  | Some groups => satisfiesEntry groups candidate
  end.

End Satisfaction.
End Constraints.

(** ** Concrete stand-ins for the imports

    The theorems below hold for every instance of [Toothmetadata.Imports]
    and [Contexts.OS].  To run the package on documents and on a disk, this
    module supplies one instance of each: a JSON reader, a three-number
    version with comparison matches, ASCII lower-casing, a tooth-path
    predicate and an in-memory file system. *)
Module Sample.
Import Json.

(** Sample documents are written with apostrophes where JSON has quotes. *)
Fixpoint quoted (s : string) : string :=
  match s with
  | EmptyString => EmptyString
  | String c rest => String (if (byte c =? 39)%Z then chr 34 else c) (quoted rest)
  end.

(** *** A JSON reader *)

Definition isBlank (c : ascii) : bool :=
  let b := byte c in (b =? 32)%Z || (b =? 9)%Z || (b =? 10)%Z || (b =? 13)%Z.

Fixpoint skipBlank (s : string) : string :=
  match s with
  | String c rest => if isBlank c then skipBlank rest else s
  | EmptyString => s
  end.

Definition encodeRune (r : Z) : string :=
  let tail (shift : Z) := chr (Z.lor 128 (Z.land (Z.shiftr r shift) 63)) in
  if (r <? 128)%Z then String (chr r) EmptyString
  else if (r <? 2048)%Z then
    String (chr (Z.lor 192 (Z.shiftr r 6))) (String (tail 0%Z) EmptyString)
  else if (r <? 65536)%Z then
    String (chr (Z.lor 224 (Z.shiftr r 12)))
      (String (tail 6%Z) (String (tail 0%Z) EmptyString))
  else
    String (chr (Z.lor 240 (Z.shiftr r 18)))
      (String (tail 12%Z) (String (tail 6%Z) (String (tail 0%Z) EmptyString))).

Definition hexValue (c : ascii) : option Z :=
  let b := byte c in
  if between 48 57 b then Some (b - 48)%Z
  else if between 97 102 b then Some (b - 87)%Z
  else if between 65 70 b then Some (b - 55)%Z
  else None.

Definition hex4 (a b c d : ascii) : option Z :=
  x3 ← hexValue a; x2 ← hexValue b; x1 ← hexValue c; x0 ← hexValue d;
  Some (4096 * x3 + 256 * x2 + 16 * x1 + x0)%Z.

(** The text after a backslash: what it stands for and how many bytes of
    the input it takes.  A lone surrogate reads as U+FFFD. *)
Definition unescape (s : string) : option (string * nat) :=
  match s with
  | EmptyString => None
  | String e rest =>
    let b := byte e in
    let one (x : Z) := Some (String (chr x) EmptyString, 1) in
    if (b =? 34)%Z || (b =? 92)%Z || (b =? 47)%Z then one b
    else if (b =? 98)%Z then one 8%Z
    else if (b =? 102)%Z then one 12%Z
    else if (b =? 110)%Z then one 10%Z
    else if (b =? 114)%Z then one 13%Z
    else if (b =? 116)%Z then one 9%Z
    else if (b =? 117)%Z then
      match rest with
      | String h1 (String h2 (String h3 (String h4 rest'))) =>
        r ← hex4 h1 h2 h3 h4;
        if between 55296 57343 r then
          match rest' with
          | String bs (String u (String l1 (String l2 (String l3 (String l4 _))))) =>
            match hex4 l1 l2 l3 l4 with
            | Some r' =>
              if (byte bs =? 92)%Z && (byte u =? 117)%Z
                 && between 55296 56319 r && between 56320 57343 r'
              then Some (encodeRune (65536 + 1024 * (r - 55296) + (r' - 56320))%Z, 11)
              else Some (encodeRune RuneError, 5)
            | None => Some (encodeRune RuneError, 5)
            end
          | _ => Some (encodeRune RuneError, 5)
          end
        else Some (encodeRune r, 5)
      | _ => None
      end
    else None
  end.

(** The body of a string literal up to its closing quote, and what follows. *)
Fixpoint unquote (pending : nat) (keep : bool) (s : string) : option (string * string) :=
  match s with
  | EmptyString => None
  | String c rest =>
    match pending with
    | S k =>
      '(text, tail) ← unquote k keep rest;
      Some ((if keep then String c EmptyString else EmptyString) ++ text, tail)
    | O =>
      let b := byte c in
      if (b =? 34)%Z then Some (EmptyString, rest)
      else if (b =? 92)%Z then
        '(decoded, used) ← unescape rest;
        '(text, tail) ← unquote used false rest;
        Some (decoded ++ text, tail)
      else if (b <? 32)%Z then None
      else if (b <? 128)%Z then
        '(text, tail) ← unquote 0 true rest; Some (String c text, tail)
      else
        let '(r, size) := decodeRune s in
        if (r =? RuneError)%Z && (size =? 1)%nat then
          '(text, tail) ← unquote 0 true rest; Some (encodeRune RuneError ++ text, tail)
        else
          '(text, tail) ← unquote (size - 1) true rest; Some (String c text, tail)
    end
  end.

Fixpoint digits (s : string) : list Z * string :=
  match s with
  | String c rest =>
    if between 48 57 (byte c) then
      let '(ds, tail) := digits rest in ((byte c - 48)%Z :: ds, tail)
    else ([], s)
  | EmptyString => ([], s)
  end.

Definition natOfDigits (ds : list Z) : nat :=
  fold_left (λ acc d, 10 * acc + Z.to_nat d) ds 0.

(** The [float64] nearest to [m * 10 ^ e] when [e] is not negative; for a
    negative [e] the quotient of the two nearest values, which may differ
    from the correctly rounded one in the last place. *)
Definition scale (m : Z) (e : Z) : float64 :=
  let nearest (z : Z) := binary_normalize 53 1024 z 0 false in
  if (0 <=? e)%Z then nearest (m * 10 ^ e)%Z
  else SFdiv 53 1024 (nearest m) (nearest (10 ^ (- e))%Z).

Definition zOfDigits (ds : list Z) : Z := fold_left (λ acc d, 10 * acc + d)%Z ds 0%Z.

(** A number literal. *)
Definition number (s : string) : option (float64 * string) :=
  let '(negative, s1) :=
    match s with
    | String c rest => if (byte c =? 45)%Z then (true, rest) else (false, s)
    | EmptyString => (false, s)
    end in
  let '(whole, s2) := digits s1 in
  match whole with
  | [] => None
  | d :: more =>
    if (d =? 0)%Z && negb (bool_decide (more = [])) then None
    else
      frac ←
        match s2 with
        | String c rest =>
          if (byte c =? 46)%Z then
            let '(ds, tail) := digits rest in
            if bool_decide (ds = []) then None else Some (ds, tail)
          else Some ([], s2)
        | EmptyString => Some ([], s2)
        end;
      let '(fraction, s3) := (frac : list Z * string) in
      expo ←
        match s3 with
        | String c rest =>
          if (byte c =? 101)%Z || (byte c =? 69)%Z then
            let '(down, rest') :=
              match rest with
              | String sign rest' =>
                if (byte sign =? 45)%Z then (true, rest')
                else if (byte sign =? 43)%Z then (false, rest')
                else (false, rest)
              | EmptyString => (false, rest)
              end in
            let '(ds, tail) := digits rest' in
            if bool_decide (ds = []) then None else Some (down, natOfDigits ds, tail)
          else Some (false, 0, s3)
        | EmptyString => Some (false, 0, s3)
        end;
      let '(down, e, s4) := (expo : bool * nat * string) in
      let exponent := ((if down then - Z.of_nat e else Z.of_nat e)
                       - Z.of_nat (length fraction))%Z in
      let value := scale (zOfDigits (whole ++ fraction)) exponent in
      Some (if negative then SFopp value else value, s4)
  end.

Definition literal (word : string) (s : string) : option string :=
  if String.prefix word s
  then Some (String.substring (String.length word) (String.length s - String.length word) s)
  else None.

Fixpoint parseValue (fuel : nat) (s : string) : option (value * string) :=
  match fuel with
  | O => None
  | S fuel' =>
    match skipBlank s with
    | EmptyString => None
    | String c rest =>
      let b := byte c in
      if (b =? 34)%Z then
        '(text, tail) ← unquote 0 true rest; Some (Str text, tail)
      else if (b =? 91)%Z then
        match skipBlank rest with
        | String c' rest' =>
          if (byte c' =? 93)%Z then Some (Array [], rest')
          else parseElements fuel' rest []
        | EmptyString => None
        end
      else if (b =? 123)%Z then
        match skipBlank rest with
        | String c' rest' =>
          if (byte c' =? 125)%Z then Some (Object ∅, rest')
          else parseMembers fuel' rest ∅
        | EmptyString => None
        end
      else if (b =? 116)%Z then tail ← literal "true" (String c rest); Some (Bool true, tail)
      else if (b =? 102)%Z then tail ← literal "false" (String c rest); Some (Bool false, tail)
      else if (b =? 110)%Z then tail ← literal "null" (String c rest); Some (Null, tail)
      else '(f, tail) ← number (String c rest); Some (Number f, tail)
    end
  end
with parseElements (fuel : nat) (s : string) (acc : list value) : option (value * string) :=
  match fuel with
  | O => None
  | S fuel' =>
    '(v, rest) ← parseValue fuel' s;
    match skipBlank rest with
    | String c rest' =>
      if (byte c =? 44)%Z then parseElements fuel' rest' (acc ++ [v])
      else if (byte c =? 93)%Z then Some (Array (acc ++ [v]), rest')
      else None
    | EmptyString => None
    end
  end
with parseMembers (fuel : nat) (s : string) (acc : gmap string value) : option (value * string) :=
  match fuel with
  | O => None
  | S fuel' =>
    match skipBlank s with
    | String q rest =>
      if (byte q =? 34)%Z then
        '(key, rest1) ← unquote 0 true rest;
        match skipBlank rest1 with
        | String colon rest2 =>
          if (byte colon =? 58)%Z then
            '(v, rest3) ← parseValue fuel' rest2;
            match skipBlank rest3 with
            | String c rest4 =>
              if (byte c =? 44)%Z then parseMembers fuel' rest4 (<[key := v]> acc)
              else if (byte c =? 125)%Z then Some (Object (<[key := v]> acc), rest4)
              else None
            | EmptyString => None
            end
          else None
        | EmptyString => None
        end
      else None
    | EmptyString => None
    end
  end.

(** [json.Unmarshal(data, &metadataMap)]: an object fills the map, [null]
    leaves it nil (an empty map to its readers), any other document or a
    syntax error is an error. *)
Definition Unmarshal (data : string) : gmap string value + string :=
  match parseValue (2 * String.length data + 2) data with
  | Some (v, rest) =>
    if negb (String.eqb (skipBlank rest) EmptyString) then
      inr "invalid character after top-level value"
    else match v with
         | Object m => inl m
         | Null => inl ∅
         | _ => inr "json: cannot unmarshal value into Go value of type map[string]interface {}"
         end
  | None => inr "invalid character or unexpected end of JSON input"
  end.

(** The text starts with the first byte of a value: it is not blank and
    closes no array or object. *)
Definition headOk (text : string) : Prop :=
  ∃ c text', text = String c text' ∧ isBlank c = false
    ∧ byte c ≠ 93%Z ∧ byte c ≠ 125%Z.

(** The reader finds the value [v] in the text, whatever follows it, with
    as much fuel as the text is long. *)
Definition readsBack (v : value) (text : string) : Prop :=
  headOk text
  ∧ ∀ (fuel : nat) (tail : string),
      (String.length text ≤ fuel)%nat → parseValue fuel (text ++ tail) = Some (v, tail).

(** The map built by the members read one after the other, a later one
    replacing an earlier one of the same key. *)
Definition insertAll (members : list (string * value)) (acc : gmap string value)
    : gmap string value :=
  fold_left (λ acc kv, <[kv.1 := kv.2]> acc) members acc.

(** *** Versions: three decimal numbers separated by dots *)

(** Modelled from the spec: the version package of the repository is not in
    [src/].  Section 3 describes a version as major.minor.patch with an
    optional pre-release label, totally ordered, parsed from and printed to
    a canonical text; this stand-in has the three numbers and no label. *)
Record SemVer := { major : nat; minor : nat; patch : nat }.

Fixpoint fields (sep : Z) (s : string) : list string :=
  match s with
  | EmptyString => [EmptyString]
  | String c rest =>
    if (byte c =? sep)%Z then EmptyString :: fields sep rest
    else match fields sep rest with
         | field :: more => String c field :: more
         | [] => [String c EmptyString]
         end
  end.

Definition parseNat (s : string) : option nat :=
  match digits s with
  | (d :: ds, EmptyString) => Some (natOfDigits (d :: ds))
  | _ => None
  end.

Definition showNat (n : nat) : string := NilZero.string_of_uint (Nat.to_uint n).

Definition parseSemVer (s : string) : SemVer + string :=
  match fields 46 s with
  | [a; b; c] =>
    match parseNat a, parseNat b, parseNat c with
    | Some x, Some y, Some z => inl {| major := x; minor := y; patch := z |}
    | _, _, _ => inr ("invalid version: " ++ s)
    end
  | _ => inr ("invalid version: " ++ s)
  end.

Definition showSemVer (v : SemVer) : string :=
  showNat (major v) ++ "." ++ showNat (minor v) ++ "." ++ showNat (patch v).

Definition compareSemVer (a b : SemVer) : comparison :=
  match Nat.compare (major a) (major b) with
  | Eq =>
    match Nat.compare (minor a) (minor b) with
    | Eq => Nat.compare (patch a) (patch b)
    | c => c
    end
  | c => c
  end.

(** *** Version matches: a bound with an optional comparison in front *)

(** Modelled from the spec: the version-match package of the repository is
    not in [src/].  Section 3 describes a match as a predicate over one
    version (an exact version, a range bound, a wildcard tier) parsed from
    a compact text, and section 8 writes matches as [>=1.0.0], [<2.0.0] and
    [3.0.0]; this stand-in has the exact version and the four bounds. *)
Inductive Relation := Exactly | AtLeast | Above | AtMost | Below.

Record Match := { relation : Relation; bound : SemVer }.

Definition relationText (r : Relation) : string :=
  match r with
  | Exactly => EmptyString
  | AtLeast => ">="
  | Above => ">"
  | AtMost => "<="
  | Below => "<"
  end.

Definition parseMatch (s : string) : Match + string :=
  let '(r, text) :=
    match literal ">=" s, literal "<=" s, literal ">" s, literal "<" s with
    | Some t, _, _, _ => (AtLeast, t)
    | _, Some t, _, _ => (AtMost, t)
    | _, _, Some t, _ => (Above, t)
    | _, _, _, Some t => (Below, t)
    | _, _, _, _ => (Exactly, s)
    end in
  match parseSemVer text with
  | inl v => inl {| relation := r; bound := v |}
  | inr _ => inr ("invalid version match: " ++ s)
  end.

Definition showMatch (m : Match) : string :=
  relationText (relation m) ++ showSemVer (bound m).

(** Modelled from the spec: [Matches(VersionMatch, Version)] of section 4.2
    is not in [src/]; a bound is compared with the candidate in the order
    of versions. *)
Definition Matches (m : Match) (candidate : SemVer) : bool :=
  match relation m, compareSemVer candidate (bound m) with
  | Exactly, Eq => true
  | AtLeast, (Eq | Gt) => true
  | Above, Gt => true
  | AtMost, (Eq | Lt) => true
  | Below, Lt => true
  | _, _ => false
  end.

(** *** Lower-casing of ASCII letters, and a tooth-path predicate *)

Fixpoint ToLower (s : string) : string :=
  match s with
  | EmptyString => EmptyString
  | String c rest =>
    String (if between 65 90 (byte c) then chr (byte c + 32) else c) (ToLower rest)
  end.

Definition pathByte (c : ascii) : bool :=
  let b := byte c in
  between 97 122 b || between 48 57 b || between 45 47 b || (b =? 95)%Z.

Fixpoint allBytes (p : ascii → bool) (s : string) : bool :=
  match s with
  | EmptyString => true
  | String c rest => p c && allBytes p rest
  end.

Definition IsValidToothPath (s : string) : bool :=
  negb (String.eqb s EmptyString) && allBytes pathByte s.

(** *** Numbers: the exact decimal expansion of a finite float *)

Definition showZ (z : Z) : string := NilZero.string_of_uint (N.to_uint (Z.to_N z)).

(** Drops the zeros that end a fraction, given with its digits reversed. *)
Fixpoint dropZeros (reversed : list ascii) : list ascii :=
  match reversed with
  | c :: rest => if (byte c =? 48)%Z then dropZeros rest else reversed
  | [] => []
  end.

Definition formatFloat (f : float64) : option string :=
  match f with
  | S754_zero negative => Some (if negative then "-0" else "0")
  | S754_finite negative m e =>
    let sign := if negative then "-" else EmptyString in
    if (0 <=? e)%Z then Some (sign ++ showZ (Z.pos m * 2 ^ e))
    else
      let k := Z.to_nat (- e) in
      let all := showZ (Z.pos m * 5 ^ (- e)) in
      let padded := String.concat EmptyString (replicate (S k - String.length all) "0") ++ all in
      let cut := String.length padded - k in
      let fraction :=
        string_of_list_ascii
          (rev (dropZeros (rev (list_ascii_of_string (String.substring cut k padded))))) in
      Some (sign ++ String.substring 0 cut padded
            ++ (if String.eqb fraction EmptyString then EmptyString else "." ++ fraction))
  | _ => None
  end.

Definition imports : Toothmetadata.Imports := {|
  Toothmetadata.versionutils_Version := SemVer;
  Toothmetadata.versionutils_NewFromString := parseSemVer;
  Toothmetadata.versionutils_String := showSemVer;
  Toothmetadata.versionmatch_VersionMatch := Match;
  Toothmetadata.versionmatch_zero := {| relation := Exactly; bound := {| major := 0; minor := 0; patch := 0 |} |};
  Toothmetadata.versionmatch_NewFromString := parseMatch;
  Toothmetadata.versionmatch_String := showMatch;
  Toothmetadata.tooth_IsValidToothPath := IsValidToothPath;
  Toothmetadata.strings_ToLower := ToLower;
  Toothmetadata.json_Unmarshal := Unmarshal;
  Toothmetadata.strconv_formatFloat := formatFloat;
|}.

(** *** An in-memory file system

    A finite map from cleaned paths to the kind of the entry there ([true]
    for a directory).  The root and the current directory always exist.
    Looking up a path below a regular file fails with [ENOTDIR], a path with
    a missing element with [ENOENT]. *)

Inductive Errno := ENOENT | ENOTDIR.

Definition Disk : Type := gmap string bool.

Definition kindAt (path : string) (disk : Disk) : option bool :=
  if String.eqb path "/" || String.eqb path "." then Some true else disk !! path.

(** The proper ancestors of a cleaned path, outermost first. *)
Definition ancestors (path : string) : list string :=
  let rooted := Filepath.isRooted path in
  let elems := filter (λ e, e ≠ EmptyString) (Filepath.split path) in
  (λ n, Filepath.render rooted (rev (take n elems))) <$> seq 1 (length elems - 1).

Definition underFile (path : string) (disk : Disk) : bool :=
  existsb (λ dir, bool_decide (kindAt dir disk = Some false)) (ancestors path).

Definition diskStat (path : string) (disk : Disk) : bool + Errno :=
  let path := Filepath.Clean path in
  if underFile path disk then inr ENOTDIR
  else match kindAt path disk with
       | Some isDir => inl isDir
       | None => inr ENOENT
       end.

Definition diskMkdirAll (path : string) (disk : Disk) : Disk * option Errno :=
  let path := Filepath.Clean path in
  if underFile path disk then (disk, Some ENOTDIR)
  else match kindAt path disk with
       | Some true => (disk, None)
       | Some false => (disk, Some ENOTDIR)
       | None =>
         (foldr (λ dir acc, match kindAt dir acc with
                            | None => <[dir := true]> acc
                            | Some _ => acc
                            end) disk (ancestors path ++ [path]), None)
       end.

Definition errnoText (e : Errno) : string :=
  match e with
  | ENOENT => "no such file or directory"
  | ENOTDIR => "not a directory"
  end.

Definition os : Contexts.OS := {|
  Contexts.FS := Disk;
  Contexts.FileInfo := bool;
  Contexts.IsDir := λ isDir, isDir;
  Contexts.PathError := Errno;
  Contexts.IsNotExist := λ e, match e with ENOENT => true | ENOTDIR => false end;
  Contexts.ErrorText := errnoText;
  Contexts.Stat := diskStat;
  Contexts.MkdirAll := diskMkdirAll;
|}.

(** *** A sample context and sample disks *)

Definition context : Contexts.Context unit :=
  Contexts.New (versions_Version := unit) tt "/home/user/.lip" "/work" [].

Definition allDirOps : list Contexts.DirOp :=
  [Contexts.OpGlobalDotLipDir; Contexts.OpCacheDir; Contexts.OpWorkspaceDir;
   Contexts.OpWorkspaceDotLipDir; Contexts.OpMetadataDir; Contexts.OpPluginDir].

(** The disk holding a regular file at [path] and the directories above
    it. *)
Definition fileAt (path : string) : Disk :=
  <[path := false]> (diskMkdirAll path ∅).1.

(** The disk once the workspace directories exist. *)
Definition workDisk : Disk :=
  <["/work/.lip/metadata" := true]> (<["/work/.lip" := true]> (<["/work" := true]> ∅)).

(** The disks on the way from the empty disk to the plugin directory. *)
Definition workOnlyDisk : Disk := <["/work" := true]> ∅.
Definition dotLipDisk : Disk := <["/work/.lip" := true]> workOnlyDisk.
Definition pluginDisk : Disk := <["/work/.lip/plugins" := true]> dotLipDisk.

(** The disk once the cache directory exists. *)
Definition cacheDisk : Disk :=
  <["/home/user/.lip/cache" := true]>
    (<["/home/user/.lip" := true]> (<["/home/user" := true]> (<["/home" := true]> ∅))).

(** *** Sample documents and values *)

(** The map the reader builds from a document, and the object stored under
    a key of a map (both empty when there is none). *)
Definition parsed (data : string) : gmap string value :=
  match Unmarshal data with
  | inl metadataMap => metadataMap
  | inr _ => ∅
  end.

Definition objectAt (m : gmap string value) (key : string) : gmap string value :=
  match index m key with
  | Object o => o
  | _ => ∅
  end.

Definition manifest : string := quoted
  "{'tooth': 'com.Example/Pkg', 'version': '1.2.3',
    'dependencies': {'pkgA': [['>=1.0.0', '<2.0.0'], ['3.0.0']], 'Other/Dep': []},
    'information': {'name': 'Example', 'description': 'An example <tooth>',
                    'author': 'someone', 'license': 'MIT',
                    'homepage': 'https://example.com/?a=1&b=2'},
    'placement': [{'source': 'assets/file.txt', 'destination': 'plugins/file.txt'}]}".

Definition version (x y z : nat) : SemVer := {| major := x; minor := y; patch := z |}.

Definition manifestDependencies : gmap string (list (list Match)) :=
  <["pkgA" := [[ {| relation := AtLeast; bound := version 1 0 0 |};
                 {| relation := Below; bound := version 2 0 0 |} ];
               [ {| relation := Exactly; bound := version 3 0 0 |} ]]]>
    (<["Other/Dep" := []]> ∅).

Definition manifestInformation : Toothmetadata.InfoStruct :=
  {| Toothmetadata.Name := "Example";
     Toothmetadata.Description := "An example <tooth>";
     Toothmetadata.Author := "someone";
     Toothmetadata.License := "MIT";
     Toothmetadata.Homepage := "https://example.com/?a=1&b=2" |}.

Definition manifestMetadata : @Toothmetadata.Metadata imports :=
  @Toothmetadata.Build_Metadata imports "com.example/pkg" (version 1 2 3)
    manifestDependencies manifestInformation
    [{| Toothmetadata.Source := "assets/file.txt";
        Toothmetadata.Destination := "plugins/file.txt" |}].

(** Whether [needle] occurs somewhere in [text]. *)
Fixpoint occurs (needle text : string) : bool :=
  String.prefix needle text
  || match text with
     | String _ rest => occurs needle rest
     | EmptyString => false
     end.

(** One entry of the placement array. *)
Definition placementOf (source destination : string) : value :=
  Object (<["destination" := Str destination]> (<["source" := Str source]> ∅)).

(** The manifest without the [homepage] of its information. *)
Definition manifestWithoutHomepage : string := quoted
  "{'tooth': 'com.Example/Pkg', 'version': '1.2.3', 'dependencies': {},
    'information': {'name': 'Example', 'description': 'An example',
                    'author': 'someone', 'license': 'MIT'},
    'placement': []}".

(** A manifest whose only placement has an empty source. *)
Definition manifestWithEmptySource : string := quoted
  "{'tooth': 'com.example/pkg', 'version': '1.2.3', 'dependencies': {},
    'information': {'name': 'Example', 'description': 'An example',
                    'author': 'someone', 'license': 'MIT', 'homepage': 'none'},
    'placement': [{'source': '', 'destination': 'plugins/file.txt'}]}".

(** Documents with no tooth, and with a number where the version goes. *)
Definition manifestWithoutTooth : string := quoted "{'version': '1.2.3'}".
Definition manifestWithNumericVersion : string := quoted
  "{'tooth': 'com.example/pkg', 'version': 1.2}".

(** The sample manifest with keys the decoder does not know. *)
Definition manifestWithExtraKeys : string := quoted
  "{'tooth': 'com.Example/Pkg', 'version': '1.2.3', 'format_version': 2,
    'dependencies': {'pkgA': [['>=1.0.0', '<2.0.0'], ['3.0.0']], 'Other/Dep': []},
    'information': {'name': 'Example', 'description': 'An example <tooth>',
                    'author': 'someone', 'license': 'MIT',
                    'homepage': 'https://example.com/?a=1&b=2'},
    'commands': [],
    'placement': [{'source': 'assets/file.txt', 'destination': 'plugins/file.txt'}]}".

(** A manifest whose second placement has a destination with a space, and
    whose third placement is not even an object. *)
Definition manifestWithBadPlacement : string := quoted
  "{'tooth': 'com.example/pkg', 'version': '1.2.3', 'dependencies': {},
    'information': {'name': 'Example', 'description': 'An example',
                    'author': 'someone', 'license': 'MIT', 'homepage': 'none'},
    'placement': [{'source': 'a.txt', 'destination': 'b.txt'},
                  {'source': 'c.txt', 'destination': 'my file.txt'},
                  17]}".

(** The number [17] as the reader stores it: the third entry of the
    placement array above. *)
Definition seventeen : value := Number (S754_finite false 4785074604081152 (-48)).

(** A manifest with a version match that does not parse. *)
Definition manifestWithBadMatch : string := quoted
  "{'tooth': 'com.example/pkg', 'version': '1.2.3',
    'dependencies': {'pkgA': [['>=1.0.0', 'latest']]}}".

(** A manifest whose tooth is not a valid path even in lower case. *)
Definition manifestWithBadTooth : string := quoted
  "{'tooth': 'Not A Path', 'version': '1.2.3'}".

(** A manifest whose name holds U+2028 (written as a JSON escape), the
    metadata it decodes to, and the text [JSON] prints for it.  The three
    bytes of U+2028 in UTF-8 are E2 80 A8. *)
Definition lineSeparator : string :=
  String (chr 226) (String (chr 128) (String (chr 168) EmptyString)).

Definition manifestWithSeparator : string := quoted
  "{'tooth': 'a/b', 'version': '1.0.0', 'dependencies': {},
    'information': {'name': 'first\u2028second', 'description': '<b>&</b>',
                    'author': 'x', 'license': 'y', 'homepage': 'z'},
    'placement': []}".

Definition separatorMetadata : @Toothmetadata.Metadata imports :=
  @Toothmetadata.Build_Metadata imports "a/b" (version 1 0 0) ∅
    {| Toothmetadata.Name := "first" ++ lineSeparator ++ "second";
       Toothmetadata.Description := "<b>&</b>";
       Toothmetadata.Author := "x";
       Toothmetadata.License := "y";
       Toothmetadata.Homepage := "z" |}
    [].

(** A manifest whose description needs every kind of escape: quotes, a
    backslash, a line feed, a tab, a control byte, the line separator
    U+2028, and a letter of two bytes, left as it is.  Then the metadata it
    decodes to. *)
Definition manifestWithEscapes : string := quoted
  "{'tooth': 'a/b', 'version': '1.0.0', 'dependencies': {'dep/\u00e9': [['1.0.0']]},
    'information': {'name': 'n',
                    'description': 'say \'hi\' \\ one\ntwo\tthree \u0001 \u2028 \u00e9',
                    'author': 'x', 'license': 'y', 'homepage': 'z'},
    'placement': []}".

Definition eAcute : string := String (chr 195) (String (chr 169) EmptyString).

Definition escapesMetadata : @Toothmetadata.Metadata imports :=
  @Toothmetadata.Build_Metadata imports "a/b" (version 1 0 0)
    (<["dep/" ++ eAcute := [[ {| relation := Exactly; bound := version 1 0 0 |} ]]]> ∅)
    {| Toothmetadata.Name := "n";
       Toothmetadata.Description :=
         "say " ++ QUOTE ++ "hi" ++ QUOTE ++ " " ++ BACKSLASH ++ " one" ++ LF ++ "two"
         ++ String (chr 9) "three " ++ String (chr 1) " " ++ lineSeparator ++ " " ++ eAcute;
       Toothmetadata.Author := "x";
       Toothmetadata.License := "y";
       Toothmetadata.Homepage := "z" |}
    [].

(** A metadata built by hand, with a tooth path no decoder would accept. *)
Definition unvalidatedMetadata : @Toothmetadata.Metadata imports :=
  @Toothmetadata.Build_Metadata imports "Not A Path" (version 0 0 1) manifestDependencies
    manifestInformation
    [{| Toothmetadata.Source := " x"; Toothmetadata.Destination := EmptyString |}].

Definition separatorText : string := quoted
"{
  'dependencies': {},
  'information': {
    'author': 'x',
    'description': '<b>&</b>',
    'homepage': 'z',
    'license': 'y',
    'name': 'first\u2028second'
  },
  'placement': [],
  'tooth': 'a/b',
  'version': '1.0.0'
}
".

End Sample.

(** * Properties *)

(** ** Loops over slices

    A loop that stores at the indices [0], [1], ... of a slice made for the
    purpose computes the element-wise image of the slice it ranges over. *)
Section Loops.
Local Open Scope list_scope.
Context {A B : Type}.
Implicit Types (xs : list A) (out pre post : list B).

Lemma bind_Ok_inv {X Y} (r : result X) (k : X → result Y) (y : Y) :
  r ≫= k = Ok y → ∃ x, r = Ok x ∧ k x = Ok y.
Proof. destruct r as [x| |]; simpl; [eauto | done | done]. Qed.

Lemma rangeStore_app (f : A → result B) xs : ∀ pre post,
  length post = length xs →
  rangeStore f (length pre) xs (pre ++ post)
  = ys ← traverse f xs; Ok (pre ++ ys).
Proof.
  induction xs as [|x xs IH]; intros pre post Hlen.
  - destruct post; [|done]. done.
  - destruct post as [|p post]; [done|]. simpl in *.
    destruct (f x) as [y| |]; simpl; [|done..].
    replace (<[length pre := y]> (pre ++ p :: post)) with ((pre ++ [y]) ++ post).
    2:{ rewrite insert_app_r_alt by lia. rewrite Nat.sub_diag. simpl. by rewrite <- app_assoc. }
    replace (S (length pre)) with (length (pre ++ [y])) by (rewrite length_app; simpl; lia).
    rewrite IH by lia.
    destruct (traverse f xs); simpl; [|done..]. by rewrite <- app_assoc.
Qed.

Lemma rangeStore_make (f : A → result B) (zero : B) xs :
  rangeStore f 0 xs (make zero (length xs)) = traverse f xs.
Proof.
  pose proof (rangeStore_app f xs [] (make zero (length xs))) as H.
  simpl in H. rewrite H by apply length_replicate.
  by destruct (traverse f xs).
Qed.

Lemma traverse_Ok (f : A → result B) xs ys :
  traverse f xs = Ok ys ↔ Forall2 (λ x y, f x = Ok y) xs ys.
Proof.
  revert ys. induction xs as [|x xs IH]; intros ys; simpl.
  - split; [intros [= <-]; constructor | by inversion 1].
  - split.
    + intros (y & Hy & H)%bind_Ok_inv. apply bind_Ok_inv in H as (ys' & Hys & [= <-]).
      constructor; [done | by apply IH].
    + inversion 1 as [|? y ? ys' Hy Hrest]; subst. rewrite Hy. simpl.
      apply IH in Hrest. by rewrite Hrest.
Qed.

Lemma rangeAssign_app {C} (f : C → B) (xs : list C) : ∀ pre post,
  length post = length xs →
  rangeAssign f (length pre) xs (pre ++ post) = pre ++ (f <$> xs).
Proof.
  induction xs as [|x xs IH]; intros pre post Hlen.
  - destruct post; [|done]. done.
  - destruct post as [|p post]; [done|]. simpl in *.
    replace (<[length pre := f x]> (pre ++ p :: post)) with ((pre ++ [f x]) ++ post).
    2:{ rewrite insert_app_r_alt by lia. rewrite Nat.sub_diag. simpl. by rewrite <- app_assoc. }
    replace (S (length pre)) with (length (pre ++ [f x])) by (rewrite length_app; simpl; lia).
    rewrite IH by lia. by rewrite <- app_assoc.
Qed.

Lemma rangeAssign_make {C} (f : C → B) (zero : B) (xs : list C) :
  rangeAssign f 0 xs (make zero (length xs)) = f <$> xs.
Proof.
  apply (rangeAssign_app f xs [] (make zero (length xs))), length_replicate.
Qed.
End Loops.

Section ToothmetadataFacts.
Import Json Toothmetadata.
Context `{Imports}.
Implicit Types (metadataMap information entries : gmap string value) (v : value).

Lemma assertString_Ok v s : assertString v = Ok s ↔ v = Str s.
Proof. destruct v; simpl; naive_solver. Qed.
Lemma assertArray_Ok v l : assertArray v = Ok l ↔ v = Array l.
Proof. destruct v; simpl; naive_solver. Qed.
Lemma assertObject_Ok v m : assertObject v = Ok m ↔ v = Object m.
Proof. destruct v; simpl; naive_solver. Qed.

Lemma assertString_Panic v : ¬ hasString v → assertString v = Panic.
Proof. destruct v; simpl; try done. intros []. by eexists. Qed.
Lemma assertArray_Panic v : ¬ hasArray v → assertArray v = Panic.
Proof. destruct v; simpl; try done. intros []. by eexists. Qed.
Lemma assertObject_Panic v : ¬ hasObject v → assertObject v = Panic.
Proof. destruct v; simpl; try done. intros []. by eexists. Qed.

Lemma index_Str metadataMap k s : index metadataMap k = Str s ↔ metadataMap !! k = Some (Str s).
Proof. unfold index. destruct (metadataMap !! k); simpl; naive_solver. Qed.
Lemma index_Array metadataMap k l : index metadataMap k = Array l ↔ metadataMap !! k = Some (Array l).
Proof. unfold index. destruct (metadataMap !! k); simpl; naive_solver. Qed.
Lemma index_Object metadataMap k m : index metadataMap k = Object m ↔ metadataMap !! k = Some (Object m).
Proof. unfold index. destruct (metadataMap !! k); simpl; naive_solver. Qed.

Lemma informationField_Ok metadataMap field s :
  informationField metadataMap field = Ok s ↔
  ∃ information, metadataMap !! "information" = Some (Object information)
    ∧ index information field = Str s.
Proof.
  unfold informationField. split.
  - intros (information & Hinfo & Hs)%bind_Ok_inv.
    apply assertObject_Ok, index_Object in Hinfo. apply assertString_Ok in Hs. eauto.
  - intros (information & Hinfo & Hs). apply index_Object in Hinfo.
    rewrite Hinfo. simpl. by rewrite Hs.
Qed.

(** What a successful decoding says about the document, field by field. *)
Lemma decodeMap_Ok_inv metadataMap metadata :
  decodeMap metadataMap = Ok metadata →
  ∃ tooth text entries information placements,
    metadataMap !! "tooth" = Some (Str tooth)
    ∧ ToothPath metadata = strings_ToLower tooth
    ∧ tooth_IsValidToothPath (strings_ToLower tooth) = true
    ∧ metadataMap !! "version" = Some (Str text)
    ∧ versionutils_NewFromString text = inl (Version metadata)
    ∧ metadataMap !! "dependencies" = Some (Object entries)
    ∧ rangeDependencies (map_to_list entries) ∅ = Ok (Dependencies metadata)
    ∧ metadataMap !! "information" = Some (Object information)
    ∧ index information "name" = Str (Name (Information metadata))
    ∧ index information "description" = Str (Description (Information metadata))
    ∧ index information "author" = Str (Author (Information metadata))
    ∧ index information "license" = Str (License (Information metadata))
    ∧ index information "homepage" = Str (Homepage (Information metadata))
    ∧ metadataMap !! "placement" = Some (Array placements)
    ∧ traverse decodePlacement placements = Ok (Placement metadata).
Proof.
  unfold decodeMap. intros Hd.
  apply bind_Ok_inv in Hd as (tooth & Htooth & Hd).
  apply assertString_Ok, index_Str in Htooth.
  destruct (tooth_IsValidToothPath (strings_ToLower tooth)) eqn:Hvalid; simpl in Hd; [|done].
  apply bind_Ok_inv in Hd as (text & Htext & Hd).
  apply assertString_Ok, index_Str in Htext.
  destruct (versionutils_NewFromString text) as [version|] eqn:Hversion; [|done].
  apply bind_Ok_inv in Hd as (entries & Hentries & Hd).
  apply assertObject_Ok, index_Object in Hentries.
  apply bind_Ok_inv in Hd as (dependencies & Hdeps & Hd).
  apply bind_Ok_inv in Hd as (name & Hname & Hd).
  apply bind_Ok_inv in Hd as (description & Hdescription & Hd).
  apply bind_Ok_inv in Hd as (author & Hauthor & Hd).
  apply bind_Ok_inv in Hd as (license & Hlicense & Hd).
  apply bind_Ok_inv in Hd as (homepage & Hhomepage & Hd).
  apply bind_Ok_inv in Hd as (placements & Hplacements & Hd).
  apply assertArray_Ok, index_Array in Hplacements.
  apply bind_Ok_inv in Hd as (placement & Hplacement & Hd).
  rewrite rangeStore_make in Hplacement.
  injection Hd as <-. simpl.
  apply informationField_Ok in Hname as (information & Hinfo & Hname).
  apply informationField_Ok in Hdescription as (? & ? & Hdescription).
  apply informationField_Ok in Hauthor as (? & ? & Hauthor).
  apply informationField_Ok in Hlicense as (? & ? & Hlicense).
  apply informationField_Ok in Hhomepage as (? & ? & Hhomepage).
  simplify_eq.
  exists tooth, text, entries, information, placements. done.
Qed.

(** The converse: a document with these fields decodes to the metadata
    they describe. *)
Lemma decodeMap_Ok_intro metadataMap tooth text version entries dependencies
    information name description author license homepage placements placement :
  metadataMap !! "tooth" = Some (Str tooth) →
  tooth_IsValidToothPath (strings_ToLower tooth) = true →
  metadataMap !! "version" = Some (Str text) →
  versionutils_NewFromString text = inl version →
  metadataMap !! "dependencies" = Some (Object entries) →
  rangeDependencies (map_to_list entries) ∅ = Ok dependencies →
  metadataMap !! "information" = Some (Object information) →
  index information "name" = Str name →
  index information "description" = Str description →
  index information "author" = Str author →
  index information "license" = Str license →
  index information "homepage" = Str homepage →
  metadataMap !! "placement" = Some (Array placements) →
  traverse decodePlacement placements = Ok placement →
  decodeMap metadataMap =
    Ok {| ToothPath := strings_ToLower tooth; Version := version;
          Dependencies := dependencies;
          Information := {| Name := name; Description := description;
                            Author := author; License := license;
                            Homepage := homepage |};
          Placement := placement |}.
Proof.
  intros Htooth Hvalid Htext Hversion Hentries Hdeps Hinfo Hname Hdescription
    Hauthor Hlicense Hhomepage Hplacements Hplacement.
  unfold decodeMap, informationField.
  apply index_Str in Htooth, Htext. apply index_Object in Hentries, Hinfo.
  apply index_Array in Hplacements.
  rewrite Htooth. simpl. rewrite Hvalid. simpl. rewrite Htext. simpl.
  rewrite Hversion, Hentries. simpl. rewrite Hdeps. simpl.
  rewrite Hinfo. simpl.
  rewrite Hname, Hdescription, Hauthor, Hlicense, Hhomepage. simpl.
  rewrite Hplacements. simpl. rewrite rangeStore_make, Hplacement. done.
Qed.

End ToothmetadataFacts.

Section DependenciesFacts.
Import Json Toothmetadata.
Context `{Imports}.
Local Open Scope list_scope.
Implicit Types (entries : gmap string value)
  (dependencies : gmap string (list (list versionmatch_VersionMatch))).

Lemma rangeDependencies_lookup (l : list (string * value)) : ∀ acc M,
  NoDup (l.*1) →
  rangeDependencies l acc = Ok M →
  ∀ k, (∃ v groups, (k, v) ∈ l ∧ decodeOuterList v = Ok groups ∧ M !! k = Some groups)
       ∨ (M !! k = acc !! k ∧ k ∉ l.*1).
Proof.
  induction l as [|[k0 v0] l IH]; intros acc M Hnodup Hrun k; simpl in *.
  - injection Hrun as <-. right. split; [done | apply not_elem_of_nil].
  - apply NoDup_cons in Hnodup as [Hk0 Hnodup].
    apply bind_Ok_inv in Hrun as (g0 & Hg0 & Hrun).
    destruct (IH _ _ Hnodup Hrun k) as [(v & g & Hin & Hg & HM)|[HM Hnot]].
    + left. exists v, g. split_and!; [by right | done | done].
    + destruct (decide (k = k0)) as [->|Hne].
      * left. exists v0, g0. rewrite HM, lookup_insert_eq. split_and!; [by left | done | done].
      * right. rewrite HM, lookup_insert_ne by done. split; [done|].
        rewrite not_elem_of_cons. done.
Qed.

Lemma rangeDependencies_is_Ok (l : list (string * value)) : ∀ acc,
  (∀ k v, (k, v) ∈ l → is_Ok (decodeOuterList v)) →
  is_Ok (rangeDependencies l acc).
Proof.
  induction l as [|[k0 v0] l IH]; intros acc Hall; simpl.
  - by eexists.
  - destruct (Hall k0 v0) as [g0 Hg0]; [by left|]. rewrite Hg0. simpl.
    apply IH. intros k v Hin. apply (Hall k v). by right.
Qed.

(** The loop over the dependencies object, whatever its keys are: it ends
    normally iff every value decodes, and then the result has exactly the
    keys of the object, each with its decoded value. *)
Lemma rangeDependencies_spec entries dependencies :
  rangeDependencies (map_to_list entries) ∅ = Ok dependencies ↔
  ∀ k, match entries !! k with
       | Some v => ∃ groups, decodeOuterList v = Ok groups ∧ dependencies !! k = Some groups
       | None => dependencies !! k = None
       end.
Proof.
  assert (∀ M, rangeDependencies (map_to_list entries) ∅ = Ok M →
    ∀ k, match entries !! k with
         | Some v => ∃ groups, decodeOuterList v = Ok groups ∧ M !! k = Some groups
         | None => M !! k = None
         end) as Hforward.
  { intros M Hrun k.
    destruct (rangeDependencies_lookup _ _ _ (NoDup_fst_map_to_list entries) Hrun k)
      as [(v & g & Hin & Hg & HM)|[HM Hnot]].
    - apply elem_of_map_to_list in Hin. rewrite Hin. eauto.
    - destruct (entries !! k) as [v|] eqn:Hk.
      + exfalso. apply Hnot. apply list_elem_of_fmap. exists (k, v).
        split; [done | by apply elem_of_map_to_list].
      + by rewrite HM. }
  split; [apply Hforward|].
  intros Hspec.
  destruct (rangeDependencies_is_Ok (map_to_list entries) ∅) as [M HM].
  { intros k v Hin%elem_of_map_to_list. specialize (Hspec k). rewrite Hin in Hspec.
    destruct Hspec as (g & Hg & _). by eexists. }
  rewrite HM. f_equal. apply map_eq. intros k.
  specialize (Hspec k). specialize (Hforward M HM k).
  destruct (entries !! k).
  - destruct Hspec as (g & Hg & ->), Hforward as (g' & Hg' & ->). congruence.
  - congruence.
Qed.

(** The outcome of a normal end does not depend on the order in which the
    entries are visited. *)
Lemma rangeDependencies_any_order entries (order : list (string * value)) dependencies :
  order ≡ₚ map_to_list entries →
  rangeDependencies order ∅ = Ok dependencies ↔
  rangeDependencies (map_to_list entries) ∅ = Ok dependencies.
Proof.
  intros Hperm.
  assert (NoDup (order.*1)) as Hnodup.
  { rewrite Hperm. apply NoDup_fst_map_to_list. }
  rewrite rangeDependencies_spec. split.
  - intros Hrun k.
    destruct (rangeDependencies_lookup _ _ _ Hnodup Hrun k)
      as [(v & g & Hin & Hg & HM)|[HM Hnot]].
    + rewrite Hperm in Hin. apply elem_of_map_to_list in Hin. rewrite Hin. eauto.
    + destruct (entries !! k) as [v|] eqn:Hk; [|by rewrite HM].
      exfalso. apply Hnot. apply list_elem_of_fmap. exists (k, v).
      split; [done|]. rewrite Hperm. by apply elem_of_map_to_list.
  - intros Hspec.
    destruct (rangeDependencies_is_Ok order ∅) as [M HM].
    { intros k v Hin. rewrite Hperm in Hin. apply elem_of_map_to_list in Hin.
      specialize (Hspec k). rewrite Hin in Hspec.
      destruct Hspec as (g & Hg & _). by eexists. }
    rewrite HM. f_equal. apply map_eq. intros k. specialize (Hspec k).
    destruct (rangeDependencies_lookup _ _ _ Hnodup HM k)
      as [(v & g & Hin & Hg & HMk)|[HMk Hnot]].
    + rewrite Hperm in Hin. apply elem_of_map_to_list in Hin. rewrite Hin in Hspec.
      destruct Hspec as (g' & Hg' & ->). congruence.
    + destruct (entries !! k) as [v|] eqn:Hk; [|by rewrite HMk, Hspec].
      exfalso. apply Hnot. apply list_elem_of_fmap. exists (k, v).
      split; [done|]. rewrite Hperm. by apply elem_of_map_to_list.
Qed.

Lemma encodeDependencies_fmap dependencies :
  encodeDependencies dependencies = encodeOuterList <$> dependencies.
Proof.
  unfold encodeDependencies.
  apply (map_fold_weak_ind (λ r m, r = encodeOuterList <$> m)).
  - by rewrite fmap_empty.
  - intros k x m r _ ->. by rewrite fmap_insert.
Qed.

Lemma encodeInnerList_eq (inner : list versionmatch_VersionMatch) :
  encodeInnerList inner = Array ((λ vm, Str (versionmatch_String vm)) <$> inner).
Proof. unfold encodeInnerList. by rewrite rangeAssign_make. Qed.

Lemma encodeOuterList_eq (outer : list (list versionmatch_VersionMatch)) :
  encodeOuterList outer = Array (encodeInnerList <$> outer).
Proof. unfold encodeOuterList. by rewrite rangeAssign_make. Qed.

Lemma decodeInnerList_encode (inner : list versionmatch_VersionMatch) :
  Forall canonicalMatch inner →
  decodeInnerList (encodeInnerList inner) = Ok inner.
Proof.
  intros Hcanon. rewrite encodeInnerList_eq. unfold decodeInnerList. simpl.
  rewrite rangeStore_make. apply traverse_Ok, Forall2_fmap_l, Forall_Forall2_diag.
  eapply Forall_impl; [done|]. intros vm Hvm. unfold decodeVersionMatch. simpl.
  unfold canonicalMatch in Hvm. by rewrite Hvm.
Qed.

Lemma decodeOuterList_encode (outer : list (list versionmatch_VersionMatch)) :
  Forall (Forall canonicalMatch) outer →
  decodeOuterList (encodeOuterList outer) = Ok outer.
Proof.
  intros Hcanon. rewrite encodeOuterList_eq. unfold decodeOuterList. simpl.
  rewrite rangeStore_make. apply traverse_Ok, Forall2_fmap_l, Forall_Forall2_diag.
  eapply Forall_impl; [done|]. intros inner Hinner. by apply decodeInnerList_encode.
Qed.

Lemma rangeDependencies_encode dependencies :
  map_Forall (λ _ outer, Forall (Forall canonicalMatch) outer) dependencies →
  rangeDependencies (map_to_list (encodeDependencies dependencies)) ∅ = Ok dependencies.
Proof.
  intros Hcanon. apply rangeDependencies_spec. intros k.
  rewrite encodeDependencies_fmap, lookup_fmap.
  destruct (dependencies !! k) as [outer|] eqn:Hk; simpl; [|done].
  exists outer. split; [|done]. apply decodeOuterList_encode. by eapply Hcanon.
Qed.

End DependenciesFacts.

Section RegexpFacts.
Import Regexp.

Lemma FindString_fixed (s : string) :
  String.eqb (FindString s) s = true ↔ s = EmptyString ∨ matches s = true.
Proof.
  unfold FindString. destruct (matches s) eqn:Hm.
  - rewrite String.eqb_refl. split; auto.
  - rewrite String.eqb_eq. split; [intros <-; by left | by intros [->|?]].
Qed.

End RegexpFacts.

Section PlacementFacts.
Import Json Toothmetadata.
Context `{Imports}.
Local Open Scope list_scope.

Lemma decodePlacement_Ok_inv (v : value) (p : PlacementStruct) :
  decodePlacement v = Ok p →
  ∃ entry, v = Object entry
    ∧ index entry "source" = Str (Source p)
    ∧ index entry "destination" = Str (Destination p)
    ∧ tokenAccepted (Source p) ∧ tokenAccepted (Destination p).
Proof.
  unfold decodePlacement, tokenAccepted. intros Hd.
  apply bind_Ok_inv in Hd as (source & Hsource & Hd).
  apply bind_Ok_inv in Hsource as (entry & Hentry & Hsource).
  apply assertObject_Ok in Hentry. apply assertString_Ok in Hsource.
  apply bind_Ok_inv in Hd as (destination & Hdestination & Hd).
  apply bind_Ok_inv in Hdestination as (entry' & Hentry' & Hdestination).
  apply assertObject_Ok in Hentry'. apply assertString_Ok in Hdestination.
  simplify_eq.
  destruct (String.eqb (Regexp.FindString source) source) eqn:Hs; simpl in Hd; [|done].
  destruct (String.eqb (Regexp.FindString destination) destination) eqn:Hdst; simpl in Hd; [|done].
  injection Hd as <-. simpl. eauto 10.
Qed.

Lemma decodePlacement_encode (p : PlacementStruct) :
  tokenAccepted (Source p) → tokenAccepted (Destination p) →
  decodePlacement (encodePlacement p) = Ok p.
Proof.
  unfold tokenAccepted, decodePlacement, encodePlacement. intros Hs Hd. simpl.
  unfold index. rewrite lookup_insert_eq, lookup_insert_ne, lookup_insert_eq by done.
  simpl. rewrite Hs, Hd. simpl. by destruct p.
Qed.

Lemma traverse_decodePlacement_accepted (l : list value) (ps : list PlacementStruct) :
  traverse decodePlacement l = Ok ps →
  Forall (λ p, tokenAccepted (Source p) ∧ tokenAccepted (Destination p)) ps.
Proof.
  intros Ht%traverse_Ok. induction Ht as [|v p l ps Hp _ IH]; constructor; [|done].
  apply decodePlacement_Ok_inv in Hp as (? & ? & ? & ? & ? & ?). done.
Qed.

Lemma traverse_decodePlacement_encode (ps : list PlacementStruct) :
  Forall (λ p, tokenAccepted (Source p) ∧ tokenAccepted (Destination p)) ps →
  traverse decodePlacement (encodePlacement <$> ps) = Ok ps.
Proof.
  intros Hok. apply traverse_Ok, Forall2_fmap_l, Forall_Forall2_diag.
  eapply Forall_impl; [done|]. intros p [? ?]. by apply decodePlacement_encode.
Qed.

End PlacementFacts.

Section EncoderFacts.
Import Json.
Local Open Scope list_scope.
Variable formatFloat : float64 → option string.

Lemma encodeValue_Array depth (l : list value) :
  Forall (λ v, is_Some (encodeValue formatFloat (S depth) v)) l →
  is_Some (encodeValue formatFloat depth (Array l)).
Proof.
  intros Hall. simpl.
  destruct (mapM (encodeValue formatFloat (S depth)) l) as [items|] eqn:Hitems; simpl.
  - by eexists.
  - apply mapM_is_Some in Hall. rewrite Hitems in Hall. by destruct Hall.
Qed.

Lemma encodeValue_Object depth (m : gmap string value) :
  map_Forall (λ _ v, is_Some (encodeValue formatFloat (S depth) v)) m →
  is_Some (encodeValue formatFloat depth (Object m)).
Proof.
  intros Hall. simpl.
  destruct (members (map_to_list (encodeValue formatFloat (S depth) <$> m)))
    as [kvs|] eqn:Hkvs; simpl; [by eexists|].
  exfalso. unfold members in Hkvs.
  assert (is_Some (mapM (λ kv : string * option string, v ← kv.2; Some (kv.1, v))
            (map_to_list (encodeValue formatFloat (S depth) <$> m)))) as Hsome.
  { apply mapM_is_Some, Forall_forall. intros [k o] Hin%elem_of_map_to_list.
    rewrite lookup_fmap in Hin. destruct (m !! k) as [v|] eqn:Hk; simplify_eq/=.
    destruct (Hall k v Hk) as [text ->]. by eexists. }
  rewrite Hkvs in Hsome. by destruct Hsome.
Qed.

End EncoderFacts.

Section RoundTrip.
Import Json Toothmetadata.
Context `{Imports}.
Local Open Scope list_scope.

Lemma encodeValue_encodeOuterList depth outer :
  is_Some (encodeValue strconv_formatFloat depth (encodeOuterList outer)).
Proof.
  rewrite encodeOuterList_eq. apply encodeValue_Array, Forall_fmap, Forall_forall.
  intros inner _. unfold compose. rewrite encodeInnerList_eq.
  apply encodeValue_Array, Forall_fmap, Forall_forall. intros vm _. by eexists.
Qed.

(** The encoder accepts every [metadataMap] that [JSON] builds: it holds
    strings, arrays and objects only. *)
Lemma encodeValue_metadataMapOf (metadata : Metadata) :
  is_Some (encodeValue strconv_formatFloat 0 (Object (metadataMapOf metadata))).
Proof.
  apply encodeValue_Object. unfold metadataMapOf.
  repeat apply map_Forall_insert_2; [| | | | |apply map_Forall_empty].
  - apply encodeValue_Array. rewrite rangeAssign_make. apply Forall_fmap, Forall_forall.
    intros p _. simpl. unfold encodePlacement. apply encodeValue_Object.
    repeat apply map_Forall_insert_2; [by eexists..|apply map_Forall_empty].
  - apply encodeValue_Object. unfold encodeInformation.
    repeat apply map_Forall_insert_2; [by eexists..|apply map_Forall_empty].
  - apply encodeValue_Object. rewrite encodeDependencies_fmap.
    intros k v. rewrite lookup_fmap. intros Hk.
    destruct (Dependencies metadata !! k); simplify_eq/=. apply encodeValue_encodeOuterList.
  - by eexists.
  - by eexists.
Qed.

Lemma JSON_is_Ok (metadata : Metadata) : is_Ok (JSON metadata).
Proof.
  unfold JSON, Encode.
  destruct (encodeValue_metadataMapOf metadata) as [text ->]. by eexists.
Qed.

(** Decoding the [metadataMap] that [JSON] builds gives the metadata back,
    when its strings are in the form the decoder produces. *)
Lemma decodeMap_metadataMapOf (metadata : Metadata) :
  strings_ToLower (ToothPath metadata) = ToothPath metadata →
  tooth_IsValidToothPath (ToothPath metadata) = true →
  versionutils_NewFromString (versionutils_String (Version metadata)) = inl (Version metadata) →
  map_Forall (λ _ outer, Forall (Forall canonicalMatch) outer) (Dependencies metadata) →
  Forall (λ p, tokenAccepted (Source p) ∧ tokenAccepted (Destination p)) (Placement metadata) →
  decodeMap (metadataMapOf metadata) = Ok metadata.
Proof.
  intros Hlower Hvalid Hversion Hmatches Hplacement.
  destruct metadata as [toothPath version dependencies [name description author license homepage] placement].
  simpl in *. rewrite <- Hlower at 2.
  eapply decodeMap_Ok_intro with (tooth := toothPath)
    (entries := encodeDependencies dependencies)
    (information := encodeInformation {| Name := name; Description := description;
       Author := author; License := license; Homepage := homepage |});
    unfold metadataMapOf, encodeInformation, index; simpl.
  - by rewrite !lookup_insert_ne, lookup_insert_eq by done.
  - by rewrite Hlower.
  - by rewrite !lookup_insert_ne, lookup_insert_eq by done.
  - done.
  - by rewrite !lookup_insert_ne, lookup_insert_eq by done.
  - by apply rangeDependencies_encode.
  - by rewrite !lookup_insert_ne, lookup_insert_eq by done.
  - by rewrite !lookup_insert_ne, lookup_insert_eq by done.
  - by rewrite !lookup_insert_ne, lookup_insert_eq by done.
  - by rewrite !lookup_insert_ne, lookup_insert_eq by done.
  - by rewrite !lookup_insert_ne, lookup_insert_eq by done.
  - by rewrite lookup_insert_eq.
  - by rewrite lookup_insert_eq.
  - rewrite rangeAssign_make. by apply traverse_decodePlacement_encode.
Qed.

End RoundTrip.

Section DecodingFacts.
Import Json Toothmetadata.
Context `{Imports}.
Local Open Scope list_scope.
Implicit Types (metadataMap information entries : gmap string value).

Lemma NewFromJSON_decodeMap (jsonData : string) metadataMap :
  json_Unmarshal jsonData = inl metadataMap →
  NewFromJSON jsonData = decodeMap metadataMap.
Proof. unfold NewFromJSON. by intros ->. Qed.

(** C6. The tooth value is lower-cased before it is validated: when the
    lower-cased value fails the predicate the call returns the error that
    reports an invalid tooth path and quotes the lower-cased value; whenever
    the call returns a metadata its tooth path is the lower-casing of the
    value in the document and passes the predicate; and when the lower-cased
    value passes the predicate and the fields read after the tooth decode,
    the call does return a metadata, whose tooth path is that lower-cased
    value, whatever the case of the letters in the document. *)
Theorem NewFromJSON_lower_cases_tooth (jsonData : string) metadataMap (tooth : string) :
  json_Unmarshal jsonData = inl metadataMap →
  metadataMap !! "tooth" = Some (Str tooth) →
  (tooth_IsValidToothPath (strings_ToLower tooth) = false →
     NewFromJSON jsonData
     = Err ("failed to decode JSON into metadata: invalid tooth path: "
            ++ strings_ToLower tooth)%string)
  ∧ (∀ m, NewFromJSON jsonData = Ok m →
       ToothPath m = strings_ToLower tooth
       ∧ tooth_IsValidToothPath (ToothPath m) = true)
  ∧ (tooth_IsValidToothPath (strings_ToLower tooth) = true →
     versionOk metadataMap → dependenciesOk metadataMap →
     informationOk metadataMap → placementOk metadataMap →
     ∃ m, NewFromJSON jsonData = Ok m ∧ ToothPath m = strings_ToLower tooth).
Proof.
  intros Hdoc Htooth. rewrite (NewFromJSON_decodeMap _ _ Hdoc). split_and!.
  - intros Hinvalid. unfold decodeMap.
    apply index_Str in Htooth. rewrite Htooth. simpl. by rewrite Hinvalid.
  - intros m Hm.
    apply decodeMap_Ok_inv in Hm
      as (tooth' & text & entries & information & placements & Htooth' & Hpath & Hvalid & _).
    rewrite Htooth in Htooth'. injection Htooth' as <-. by rewrite Hpath.
  - intros Hvalid (text & version & Htext & Hversion)
      (entries & dependencies & Hentries & Hdeps)
      (information & Hinfo & Hfields) (placements & placement & Hplacements & Hplacement).
    destruct (Hfields "name") as [name Hname]; [unfold informationFields; set_solver|].
    destruct (Hfields "description") as [description Hdescription];
      [unfold informationFields; set_solver|].
    destruct (Hfields "author") as [author Hauthor];
      [unfold informationFields; set_solver|].
    destruct (Hfields "license") as [license Hlicense];
      [unfold informationFields; set_solver|].
    destruct (Hfields "homepage") as [homepage Hhomepage];
      [unfold informationFields; set_solver|].
    eexists. split.
    + exact (decodeMap_Ok_intro _ _ _ _ _ _ _ _ _ _ _ _ _ _ Htooth Hvalid Htext Hversion
               Hentries Hdeps Hinfo Hname Hdescription Hauthor Hlicense Hhomepage
               Hplacements Hplacement).
    + reflexivity.
Qed.

(** [informationField] never returns an error value. *)
Lemma informationField_cases metadataMap field :
  informationField metadataMap field = Panic ∨ is_Ok (informationField metadataMap field).
Proof.
  unfold informationField. destruct (index metadataMap "information"); simpl; auto.
  destruct (index _ field); simpl; auto. right. by eexists.
Qed.

Lemma informationField_missing metadataMap information field :
  metadataMap !! "information" = Some (Object information) →
  information !! field = None →
  informationField metadataMap field = Panic.
Proof.
  intros Hinfo%index_Object Hfield. unfold informationField. rewrite Hinfo. simpl.
  unfold index. by rewrite Hfield.
Qed.

(** The five reads of the information, once the fields before it are done. *)
Lemma decodeMap_information metadataMap :
  toothOk metadataMap → versionOk metadataMap → dependenciesOk metadataMap →
  ∀ field, field ∈ informationFields →
  informationField metadataMap field = Panic →
  decodeMap metadataMap = Panic.
Proof.
  intros (tooth & Htooth%index_Str & Hvalid) (text & version & Htext%index_Str & Hversion)
    (entries & dependencies & Hentries%index_Object & Hdeps) field Hfield Hpanic.
  unfold decodeMap. rewrite Htooth. simpl. rewrite Hvalid. simpl.
  rewrite Htext. simpl. rewrite Hversion, Hentries. simpl. rewrite Hdeps. simpl.
  unfold informationFields in Hfield.
  repeat (apply elem_of_cons in Hfield as [->|Hfield]);
    [| | | | | by apply elem_of_nil in Hfield];
    repeat match goal with
    | |- context [informationField metadataMap ?f] =>
      first [ rewrite Hpanic; done
            | let Hf := fresh in
              destruct (informationField_cases metadataMap f) as [Hf|[? Hf]];
              rewrite Hf; simpl; [done|] ]
    end.
Qed.

End DecodingFacts.

Section PanicFacts.
Import Json Toothmetadata.
Context `{Imports}.
Local Open Scope list_scope.
Implicit Types (metadataMap information entries : gmap string value).

(** C4, as the code has it. When the information object lacks one of the
    five fields, [NewFromJSON] never returns a metadata; and when the tooth,
    the version and the dependencies before it decode, the call does not
    return an error either: the unchecked type assertion on the missing
    field panics. *)
Theorem NewFromJSON_missing_information_field (jsonData : string) metadataMap
    information (field : string) :
  json_Unmarshal jsonData = inl metadataMap →
  metadataMap !! "information" = Some (Object information) →
  field ∈ informationFields →
  information !! field = None →
  ¬ is_Ok (NewFromJSON jsonData)
  ∧ (toothOk metadataMap → versionOk metadataMap → dependenciesOk metadataMap →
     NewFromJSON jsonData = Panic).
Proof.
  intros Hdoc Hinfo Hfield Hmissing. rewrite (NewFromJSON_decodeMap _ _ Hdoc). split.
  - intros [m Hm].
    apply decodeMap_Ok_inv in Hm
      as (tooth & text & entries & information' & placements & _ & _ & _ & _ & _ & _ & _
          & Hinfo' & Hname & Hdescription & Hauthor & Hlicense & Hhomepage & _).
    rewrite Hinfo in Hinfo'. injection Hinfo' as <-.
    unfold index in *. unfold informationFields in Hfield.
    repeat (apply elem_of_cons in Hfield as [->|Hfield]);
      [| | | | | by apply elem_of_nil in Hfield];
      rewrite Hmissing in *; discriminate.
  - intros Htooth Hversion Hdeps.
    apply (decodeMap_information _ Htooth Hversion Hdeps field Hfield).
    by eapply informationField_missing.
Qed.

(** C9. An absent or mistyped top-level field makes [NewFromJSON] panic at
    the type assertion that reads it, as soon as the fields read before it
    are in order: the tooth unconditionally, then the version, the
    dependencies, the information and the placement. *)
Theorem NewFromJSON_panics_on_untyped_field (jsonData : string) metadataMap :
  json_Unmarshal jsonData = inl metadataMap →
  (¬ hasString (index metadataMap "tooth") → NewFromJSON jsonData = Panic)
  ∧ (toothOk metadataMap →
     ¬ hasString (index metadataMap "version") → NewFromJSON jsonData = Panic)
  ∧ (toothOk metadataMap → versionOk metadataMap →
     ¬ hasObject (index metadataMap "dependencies") → NewFromJSON jsonData = Panic)
  ∧ (toothOk metadataMap → versionOk metadataMap → dependenciesOk metadataMap →
     ¬ hasObject (index metadataMap "information") → NewFromJSON jsonData = Panic)
  ∧ (toothOk metadataMap → versionOk metadataMap → dependenciesOk metadataMap →
     informationOk metadataMap →
     ¬ hasArray (index metadataMap "placement") → NewFromJSON jsonData = Panic).
Proof.
  intros Hdoc. rewrite (NewFromJSON_decodeMap _ _ Hdoc). split_and!.
  - intros Hbad. unfold decodeMap. by rewrite (assertString_Panic _ Hbad).
  - intros (tooth & Htooth%index_Str & Hvalid) Hbad.
    unfold decodeMap. rewrite Htooth. simpl. rewrite Hvalid. simpl.
    by rewrite (assertString_Panic _ Hbad).
  - intros (tooth & Htooth%index_Str & Hvalid)
      (text & version & Htext%index_Str & Hversion) Hbad.
    unfold decodeMap. rewrite Htooth. simpl. rewrite Hvalid. simpl.
    rewrite Htext. simpl. rewrite Hversion.
    by rewrite (assertObject_Panic _ Hbad).
  - intros Htooth Hversion Hdeps Hbad.
    apply (decodeMap_information _ Htooth Hversion Hdeps "name").
    { unfold informationFields. by left. }
    unfold informationField. by rewrite (assertObject_Panic _ Hbad).
  - intros (tooth & Htooth%index_Str & Hvalid)
      (text & version & Htext%index_Str & Hversion)
      (entries & dependencies & Hentries%index_Object & Hdeps)
      (information & Hinfo%index_Object & Hfields) Hbad.
    unfold decodeMap. rewrite Htooth. simpl. rewrite Hvalid. simpl.
    rewrite Htext. simpl. rewrite Hversion, Hentries. simpl. rewrite Hdeps. simpl.
    unfold informationField. rewrite Hinfo. simpl.
    unfold informationFields in Hfields.
    destruct (Hfields "name") as [? ->]; [set_solver|].
    destruct (Hfields "description") as [? ->]; [set_solver|].
    destruct (Hfields "author") as [? ->]; [set_solver|].
    destruct (Hfields "license") as [? ->]; [set_solver|].
    destruct (Hfields "homepage") as [? ->]; [set_solver|]. simpl.
    by rewrite (assertArray_Panic _ Hbad).
Qed.

(** C10. The keys of the dependencies object are neither validated nor
    lower-cased. No condition on the keys is needed for decoding to succeed:
    when the other fields are in order and every value of the object decodes,
    [NewFromJSON] returns a metadata whose dependency map has exactly the
    keys of the object, byte for byte, each bound to its decoded groups. *)
Theorem NewFromJSON_keeps_dependency_keys (jsonData : string) metadataMap entries :
  json_Unmarshal jsonData = inl metadataMap →
  toothOk metadataMap → versionOk metadataMap →
  metadataMap !! "dependencies" = Some (Object entries) →
  Forall (λ entry, is_Ok (decodeOuterList entry.2)) (map_to_list entries) →
  informationOk metadataMap → placementOk metadataMap →
  ∃ m, NewFromJSON jsonData = Ok m
    ∧ ∀ key : string,
        match entries !! key with
        | Some v => ∃ groups, decodeOuterList v = Ok groups
                      ∧ Dependencies m !! key = Some groups
        | None => Dependencies m !! key = None
        end.
Proof.
  intros Hdoc (tooth & Htooth & Hvalid) (text & version & Htext & Hversion)
    Hentries Hvalues (information & Hinfo & Hfields) (placements & placement & Hplacements & Hplacement).
  rewrite (NewFromJSON_decodeMap _ _ Hdoc).
  destruct (rangeDependencies_is_Ok (map_to_list entries) ∅) as [dependencies Hdeps].
  { intros k v Hin. by apply (proj1 (Forall_forall _ _) Hvalues (k, v)). }
  unfold informationFields in Hfields.
  destruct (Hfields "name") as [name Hname]; [set_solver|].
  destruct (Hfields "description") as [description Hdescription]; [set_solver|].
  destruct (Hfields "author") as [author Hauthor]; [set_solver|].
  destruct (Hfields "license") as [license Hlicense]; [set_solver|].
  destruct (Hfields "homepage") as [homepage Hhomepage]; [set_solver|].
  eexists. split.
  - by eapply decodeMap_Ok_intro.
  - simpl. by apply rangeDependencies_spec.
Qed.

End PanicFacts.

Section DecodingExamples.
Import Json Toothmetadata.
Local Open Scope list_scope.

(** The example of the specification: the document whose tooth is
    [com.Example/Pkg] decodes, to the path in lower case; and a tooth that
    stays invalid. *)
Lemma NewFromJSON_lower_cases_tooth_witness :
  (∃ m, NewFromJSON (H := Sample.imports) Sample.manifest = Ok m
     ∧ ToothPath m = "com.example/pkg"
     ∧ @tooth_IsValidToothPath Sample.imports (ToothPath m) = true)
  ∧ NewFromJSON (H := Sample.imports) Sample.manifestWithBadTooth
    = Err "failed to decode JSON into metadata: invalid tooth path: not a path".
Proof.
  split.
  - destruct (NewFromJSON_lower_cases_tooth (H := Sample.imports)
                Sample.manifest (Sample.parsed Sample.manifest) "com.Example/Pkg")
      as (_ & Hok & Hdecodes); [reflexivity | reflexivity |].
    destruct Hdecodes as (m & Hm & Hpath).
    + reflexivity.
    + exists "1.2.3", (Sample.version 1 2 3). split; reflexivity.
    + exists (Sample.objectAt (Sample.parsed Sample.manifest) "dependencies"),
        Sample.manifestDependencies.
      split; reflexivity.
    + exists (Sample.objectAt (Sample.parsed Sample.manifest) "information").
      split; [reflexivity|]. unfold informationFields. intros field Hfield.
      repeat (apply elem_of_cons in Hfield as [->|Hfield]);
        [| | | | | by apply elem_of_nil in Hfield]; eexists; reflexivity.
    + exists [Sample.placementOf "assets/file.txt" "plugins/file.txt"],
        [{| Source := "assets/file.txt"; Destination := "plugins/file.txt" |}].
      split; reflexivity.
    + exists m. split; [exact Hm|]. split; [exact Hpath|].
      exact (proj2 (Hok m Hm)).
  - destruct (NewFromJSON_lower_cases_tooth (H := Sample.imports)
                Sample.manifestWithBadTooth (Sample.parsed Sample.manifestWithBadTooth)
                "Not A Path")
      as (Hbad & _); [reflexivity | reflexivity |].
    apply Hbad. reflexivity.
Defined.

(** C4, counterexample. The sample document is well formed, its information
    object has no homepage, and [NewFromJSON] does not return an error: it
    panics. *)
Lemma missing_homepage_counterexample :
  ∃ metadataMap information,
    json_Unmarshal (Imports := Sample.imports) Sample.manifestWithoutHomepage = inl metadataMap
    ∧ metadataMap !! "information" = Some (Object information)
    ∧ information !! "homepage" = None
    ∧ NewFromJSON (H := Sample.imports) Sample.manifestWithoutHomepage = Panic
    ∧ ¬ is_Err (NewFromJSON (H := Sample.imports) Sample.manifestWithoutHomepage).
Proof.
  exists (Sample.parsed Sample.manifestWithoutHomepage),
    (Sample.objectAt (Sample.parsed Sample.manifestWithoutHomepage) "information").
  split_and!; [reflexivity | reflexivity | reflexivity | reflexivity |].
  intros [msg Hmsg]. discriminate Hmsg.
Qed.

(** The sample manifest without homepage: a panic, no metadata. *)
Lemma NewFromJSON_missing_information_field_witness :
  ¬ is_Ok (NewFromJSON (H := Sample.imports) Sample.manifestWithoutHomepage)
  ∧ NewFromJSON (H := Sample.imports) Sample.manifestWithoutHomepage = Panic.
Proof.
  destruct (NewFromJSON_missing_information_field (H := Sample.imports)
              Sample.manifestWithoutHomepage
              (Sample.parsed Sample.manifestWithoutHomepage)
              (Sample.objectAt (Sample.parsed Sample.manifestWithoutHomepage) "information")
              "homepage")
    as [Hnever Hpanic].
  - reflexivity.
  - reflexivity.
  - unfold informationFields. set_solver.
  - reflexivity.
  - split; [exact Hnever|]. apply Hpanic.
    + exists "com.Example/Pkg". split; reflexivity.
    + exists "1.2.3", (Sample.version 1 2 3). split; reflexivity.
    + exists ∅, ∅. split; reflexivity.
Defined.

(** A document without tooth, and one whose version is a number. *)
Lemma NewFromJSON_panics_on_untyped_field_witness :
  NewFromJSON (H := Sample.imports) Sample.manifestWithoutTooth = Panic
  ∧ NewFromJSON (H := Sample.imports) Sample.manifestWithNumericVersion = Panic.
Proof.
  split.
  - destruct (NewFromJSON_panics_on_untyped_field (H := Sample.imports)
                Sample.manifestWithoutTooth (Sample.parsed Sample.manifestWithoutTooth))
      as (Htooth & _); [reflexivity|].
    apply Htooth. intros [s Hs]. discriminate Hs.
  - destruct (NewFromJSON_panics_on_untyped_field (H := Sample.imports)
                Sample.manifestWithNumericVersion
                (Sample.parsed Sample.manifestWithNumericVersion))
      as (_ & Hversion & _); [reflexivity|].
    apply Hversion.
    + exists "com.example/pkg". split; reflexivity.
    + intros [s Hs]. discriminate Hs.
Defined.

(** The key [Other/Dep] of the sample manifest is not a valid tooth path and
    is not in lower case; it is a key of the decoded map, and its lower-casing
    is not. *)
Lemma NewFromJSON_keeps_dependency_keys_witness :
  @tooth_IsValidToothPath Sample.imports "Other/Dep" = false
  ∧ @strings_ToLower Sample.imports "Other/Dep" ≠ "Other/Dep"
  ∧ ∃ m, NewFromJSON (H := Sample.imports) Sample.manifest = Ok m
      ∧ Dependencies m !! "Other/Dep" = Some []
      ∧ Dependencies m !! "other/dep" = None.
Proof.
  split; [reflexivity|]. split; [discriminate|].
  destruct (NewFromJSON_keeps_dependency_keys (H := Sample.imports) Sample.manifest
              (Sample.parsed Sample.manifest)
              (Sample.objectAt (Sample.parsed Sample.manifest) "dependencies"))
    as (m & Hm & Hkeys).
  - reflexivity.
  - exists "com.Example/Pkg". split; reflexivity.
  - exists "1.2.3", (Sample.version 1 2 3). split; reflexivity.
  - reflexivity.
  - let l := eval vm_compute in
      (map_to_list (Sample.objectAt (Sample.parsed Sample.manifest) "dependencies")) in
    change (map_to_list (Sample.objectAt (Sample.parsed Sample.manifest) "dependencies"))
      with l.
    repeat constructor; eexists; reflexivity.
  - exists (Sample.objectAt (Sample.parsed Sample.manifest) "information").
    split; [reflexivity|]. unfold informationFields. intros field Hfield.
    repeat (apply elem_of_cons in Hfield as [->|Hfield]);
      [| | | | | by apply elem_of_nil in Hfield]; eexists; reflexivity.
  - eexists _, _. split; reflexivity.
  - exists m. split; [exact Hm|]. split.
    + pose proof (Hkeys "Other/Dep") as Hkey.
      change (Sample.objectAt (Sample.parsed Sample.manifest) "dependencies" !! "Other/Dep")
        with (Some (Array [])) in Hkey.
      destruct Hkey as (groups & Hgroups & ->). by injection Hgroups as <-.
    + exact (Hkeys "other/dep").
Defined.

(** C3, the failing input. A placement whose source is the empty string
    passes the check of line 95, because [FindString] returns the empty
    string when nothing matches: the call returns a metadata holding the empty
    token. *)
Lemma NewFromJSON_accepts_empty_source :
  Regexp.matches EmptyString = false
  ∧ ∃ m, NewFromJSON (H := Sample.imports) Sample.manifestWithEmptySource = Ok m
      ∧ Placement m = [{| Source := EmptyString; Destination := "plugins/file.txt" |}].
Proof. split; [reflexivity|]. eexists. split; reflexivity. Qed.

(** C8, the failing input. A name holding U+2028 is reachable by decoding,
    and [JSON] prints it as the six-byte escape, not as the character. *)
Lemma JSON_escapes_line_separator :
  NewFromJSON (H := Sample.imports) Sample.manifestWithSeparator = Ok Sample.separatorMetadata
  ∧ JSON Sample.separatorMetadata = Ok Sample.separatorText
  ∧ Sample.occurs (BACKSLASH ++ "u2028") Sample.separatorText = true
  ∧ Sample.occurs Sample.lineSeparator Sample.separatorText = false.
Proof. split_and!; [reflexivity | vm_compute; reflexivity | reflexivity | reflexivity]. Qed.

End DecodingExamples.

Section UrlFacts.
Import Url.
#[local] Arguments String.append !s1 s2 / : simpl nomatch.

Lemma unescapeOne_escapeOne (c : ascii) (rest : string) :
  unescapeOne (escapeOne c ++ rest) = Some (c, rest).
Proof. destruct c as [[] [] [] [] [] [] [] []]; reflexivity. Qed.

Lemma escapeOne_nonempty (c : ascii) (rest : string) :
  (escapeOne c ++ rest)%string ≠ EmptyString.
Proof. destruct c as [[] [] [] [] [] [] [] []]; discriminate. Qed.

Lemma Url_QueryEscape_inj (s1 s2 : string) : QueryEscape s1 = QueryEscape s2 → s1 = s2.
Proof.
  revert s2. induction s1 as [|c1 s1 IH]; intros [|c2 s2]; simpl; intros Heq.
  - done.
  - symmetry in Heq. by apply escapeOne_nonempty in Heq.
  - by apply escapeOne_nonempty in Heq.
  - pose proof (unescapeOne_escapeOne c1 (QueryEscape s1)) as H1.
    rewrite Heq, unescapeOne_escapeOne in H1. injection H1 as -> Hrest.
    f_equal. apply IH. done.
Qed.

Lemma noSeparator_app (a b : string) :
  Filepath.noSeparator (a ++ b) = Filepath.noSeparator a && Filepath.noSeparator b.
Proof. induction a as [|c a IH]; simpl; [done|]. rewrite IH. by rewrite andb_assoc. Qed.

Lemma noSeparator_escapeOne (c : ascii) : Filepath.noSeparator (escapeOne c) = true.
Proof. destruct c as [[] [] [] [] [] [] [] []]; reflexivity. Qed.

Lemma noSeparator_QueryEscape (s : string) : Filepath.noSeparator (QueryEscape s) = true.
Proof.
  induction s as [|c s IH]; simpl; [done|].
  by rewrite noSeparator_app, noSeparator_escapeOne, IH.
Qed.

End UrlFacts.

Section FilepathFacts.
Import Filepath.
#[local] Arguments String.append !s1 s2 / : simpl nomatch.
Local Open Scope list_scope.
Implicit Types (path elem : string) (out : list string) (rooted : bool).

Lemma split_nonempty path : split path ≠ [].
Proof.
  destruct path as [|c rest]; simpl; [done|].
  destruct (isSeparator c); [done|]. by destruct (split rest).
Qed.

Lemma split_app_separator (a b : string) :
  split (a ++ String "/" b)%string = split a ++ split b.
Proof.
  induction a as [|c a IH]; simpl; [done|]. rewrite IH.
  destruct (isSeparator c); [done|].
  pose proof (split_nonempty a). by destruct (split a).
Qed.

Lemma split_noSeparator elem : noSeparator elem = true → split elem = [elem].
Proof.
  induction elem as [|c rest IH]; simpl; [done|].
  intros [Hc Hrest]%andb_true_iff. rewrite negb_true_iff in Hc.
  by rewrite Hc, (IH Hrest).
Qed.

Lemma split_elements path : Forall (λ elem, noSeparator elem = true) (split path).
Proof.
  induction path as [|c rest IH]; simpl; [by repeat constructor|].
  destruct (isSeparator c) eqn:Hc; [by constructor|].
  pose proof (split_nonempty rest). destruct (split rest) as [|elem elems]; [done|].
  inversion IH; subst. constructor; [|done]. simpl. by rewrite Hc.
Qed.

(** Every separator-free element is empty, a dot, two dots, or plain. *)
Lemma elem_cases elem :
  noSeparator elem = true →
  elem = EmptyString ∨ elem = "." ∨ elem = ".." ∨ plainElem elem = true.
Proof.
  intros Hns. unfold plainElem. rewrite Hns. simpl.
  destruct (String.eqb_spec elem EmptyString); [auto|].
  destruct (String.eqb_spec elem "."); [auto|].
  destruct (String.eqb_spec elem ".."); auto.
Qed.

Lemma plainElem_inv elem :
  plainElem elem = true →
  noSeparator elem = true ∧ elem ≠ EmptyString ∧ elem ≠ "." ∧ elem ≠ "..".
Proof.
  unfold plainElem. rewrite !andb_true_iff, !negb_true_iff, !String.eqb_neq. tauto.
Qed.

Lemma cleanStep_plain rooted out elem :
  plainElem elem = true → cleanStep rooted out elem = elem :: out.
Proof.
  intros (_ & H1 & H2 & H3)%plainElem_inv. unfold cleanStep.
  apply String.eqb_neq in H1, H2, H3. by rewrite H1, H2, H3.
Qed.

Lemma cleanStep_skip rooted out elem :
  elem = EmptyString ∨ elem = "." → cleanStep rooted out elem = out.
Proof. by intros [->| ->]. Qed.

Lemma cleanForm_tail rooted elem out :
  cleanForm rooted (elem :: out) = true → cleanForm rooted out = true.
Proof. cbn [cleanForm]. by intros [_ ?]%andb_true_iff. Qed.

Lemma cleanStep_cleanForm rooted out elem :
  cleanForm rooted out = true → noSeparator elem = true →
  cleanForm rooted (cleanStep rooted out elem) = true.
Proof.
  intros Hout Helem.
  destruct (elem_cases elem Helem) as [->|[->|[->|Hplain]]]; [done|done| |].
  - unfold cleanStep. change (String.eqb ".." EmptyString || String.eqb ".." ".") with false.
    change (String.eqb ".." "..") with true. cbv iota.
    destruct out as [|top below].
    + by destruct rooted.
    + destruct (String.eqb_spec top "..") as [->|Hne].
      * cbn [cleanForm] in *. rewrite Hout, andb_true_r.
        apply andb_true_iff in Hout as [Htop _].
        change (plainElem "..") with false in *. change (String.eqb ".." "..") with true in *.
        cbn [orb andb] in *. apply andb_true_iff in Htop as [Hrooted Hdots].
        cbn [forallb]. change (String.eqb ".." "..") with true.
        by rewrite Hrooted, Hdots.
      * by eapply cleanForm_tail.
  - rewrite (cleanStep_plain _ _ _ Hplain). cbn [cleanForm]. by rewrite Hplain, Hout.
Qed.

Lemma fold_cleanStep_cleanForm rooted (elems : list string) out :
  Forall (λ elem, noSeparator elem = true) elems →
  cleanForm rooted out = true →
  cleanForm rooted (fold_left (cleanStep rooted) elems out) = true.
Proof.
  intros Helems. revert out. induction Helems as [|elem elems Helem _ IH]; intros out Hout.
  - done.
  - simpl. apply IH. by apply cleanStep_cleanForm.
Qed.

Lemma cleanStack_cleanForm path : cleanForm (isRooted path) (cleanStack path) = true.
Proof. apply fold_cleanStep_cleanForm; [apply split_elements | done]. Qed.

Lemma split_concat (elems : list string) :
  elems ≠ [] → Forall (λ elem, noSeparator elem = true) elems →
  split (String.concat "/" elems) = elems.
Proof.
  intros Hne Hall. induction Hall as [|elem elems Helem Hall IH]; [done|].
  destruct elems as [|next more].
  - by apply split_noSeparator.
  - change (String.concat "/" (elem :: next :: more))
      with (elem ++ String "/" (String.concat "/" (next :: more)))%string.
    rewrite split_app_separator, (split_noSeparator _ Helem), IH; done.
Qed.

Lemma cleanForm_elements rooted out :
  cleanForm rooted out = true →
  Forall (λ elem, noSeparator elem = true ∧ elem ≠ EmptyString) out.
Proof.
  induction out as [|elem out IH]; [constructor|].
  cbn [cleanForm]. intros [Helem Hout]%andb_true_iff. constructor; [|auto].
  apply orb_true_iff in Helem as [Hplain|Hdots].
  - apply plainElem_inv in Hplain. tauto.
  - apply andb_true_iff in Hdots as [[->%String.eqb_eq _]%andb_true_iff _]. done.
Qed.

Lemma cleanStep_same rooted elem out :
  cleanForm rooted (elem :: out) = true → cleanStep rooted out elem = elem :: out.
Proof.
  cbn [cleanForm]. intros [Helem _]%andb_true_iff.
  apply orb_true_iff in Helem as [Hplain|Hdots]; [by apply cleanStep_plain|].
  apply andb_true_iff in Hdots as [[->%String.eqb_eq Hrooted]%andb_true_iff Hall].
  apply negb_true_iff in Hrooted as ->. unfold cleanStep.
  change (String.eqb ".." EmptyString || String.eqb ".." ".") with false.
  change (String.eqb ".." "..") with true. cbv iota.
  destruct out as [|top below]; [done|].
  cbn [forallb] in Hall. apply andb_true_iff in Hall as [Htop _].
  rewrite String.eqb_sym in Htop. by rewrite Htop.
Qed.

Lemma fold_cleanStep_rev rooted out :
  cleanForm rooted out = true → fold_left (cleanStep rooted) (rev out) [] = out.
Proof.
  induction out as [|elem out IH]; intros Hform; [done|].
  simpl. rewrite fold_left_app. simpl.
  rewrite IH by (by eapply cleanForm_tail). by apply cleanStep_same.
Qed.

(** The text between the separators of a cleaned path. *)
Lemma body_nonempty rooted out :
  cleanForm rooted out = true → out ≠ [] →
  ∃ c rest, String.concat "/" (rev out) = String c rest ∧ isSeparator c = false.
Proof.
  intros Hform Hne.
  assert (Forall (λ elem, noSeparator elem = true ∧ elem ≠ EmptyString) (rev out)) as Hall.
  { apply Forall_rev. by eapply cleanForm_elements. }
  destruct (rev out) as [|first more] eqn:Hrev.
  { apply (f_equal (@length _)) in Hrev. rewrite length_rev in Hrev. by destruct out. }
  inversion Hall as [|? ? [Hns Hfirst] _]; subst.
  destruct first as [|c first]; [done|].
  simpl in Hns. apply andb_true_iff in Hns as [Hc%negb_true_iff _].
  exists c. destruct more; simpl; eauto.
Qed.

Lemma render_nonempty rooted out : render rooted out ≠ EmptyString.
Proof.
  unfold render. destruct rooted; [done|].
  destruct (String.eqb_spec (String.concat "/" (rev out)) EmptyString); done.
Qed.

(** Cleaning a cleaned path finds the same elements again. *)
Lemma clean_render rooted out :
  cleanForm rooted out = true →
  isRooted (render rooted out) = rooted
  ∧ fold_left (cleanStep rooted) (split (render rooted out)) [] = out.
Proof.
  intros Hform. destruct out as [|elem out].
  { by destruct rooted. }
  destruct (body_nonempty _ _ Hform) as (c & rest & Hbody & Hc); [done|].
  assert (split (String.concat "/" (rev (elem :: out))) = rev (elem :: out)) as Hsplit.
  { apply split_concat.
    - intros Hrev. apply (f_equal (@length _)) in Hrev. by rewrite length_rev in Hrev.
    - apply Forall_rev. eapply Forall_impl; [by eapply cleanForm_elements|]. by intros ? [? _]. }
  unfold render. destruct rooted.
  - split; [done|].
    change ("/" ++ String.concat "/" (rev (elem :: out)))%string
      with (String "/" (String.concat "/" (rev (elem :: out)))).
    cbn [split isSeparator]. change (isSeparator "/") with true. cbv iota.
    cbn [fold_left]. rewrite (cleanStep_skip _ _ EmptyString) by auto.
    rewrite Hsplit. by apply fold_cleanStep_rev.
  - rewrite Hbody. change (String.eqb (String c rest) EmptyString) with false. cbv iota.
    split; [by simpl|]. rewrite <- Hbody, Hsplit. by apply fold_cleanStep_rev.
Qed.

Lemma render_inj rooted out1 out2 :
  cleanForm rooted out1 = true → cleanForm rooted out2 = true →
  render rooted out1 = render rooted out2 → out1 = out2.
Proof.
  intros [_ H1]%clean_render [_ H2]%clean_render Heq. by rewrite <- H1, Heq.
Qed.

Lemma Clean_nonempty path :
  path ≠ EmptyString → Clean path = render (isRooted path) (cleanStack path).
Proof. intros Hne%String.eqb_neq. unfold Clean, cleanStack. by rewrite Hne. Qed.

(** Joining a name without separator to a cleaned directory: one more step
    of [Clean] on the elements of the directory. *)
Lemma Join_render rooted out (name : string) :
  cleanForm rooted out = true → noSeparator name = true →
  Join (render rooted out) name = render rooted (cleanStep rooted out name).
Proof.
  intros Hform Hname. destruct (clean_render _ _ Hform) as [Hrooted Hfold].
  pose proof (render_nonempty rooted out) as Hne.
  unfold Join. apply String.eqb_neq in Hne as Hneb. rewrite Hneb. cbn [negb].
  change ("/" ++ name)%string with (String "/" name).
  rewrite Clean_nonempty by (destruct (render rooted out); done).
  assert (isRooted (render rooted out ++ String "/" name) = rooted) as ->.
  { destruct (render rooted out); [done|]. exact Hrooted. }
  unfold cleanStack.
  assert (isRooted (render rooted out ++ String "/" name) = rooted) as ->.
  { destruct (render rooted out); [done|]. exact Hrooted. }
  rewrite split_app_separator, fold_left_app, Hfold, (split_noSeparator _ Hname). done.
Qed.

(** Joining a name without separator to any directory. *)
Lemma Join_name (dir name : string) :
  noSeparator name = true → dir ≠ EmptyString ∨ name ≠ EmptyString →
  Join dir name
  = render (isRooted dir) (cleanStep (isRooted dir) (cleanStack dir) name).
Proof.
  intros Hname Hne. unfold Join. destruct (String.eqb_spec dir EmptyString) as [->|Hdir].
  - destruct Hne as [|Hne]; [done|]. apply String.eqb_neq in Hne as Hneb. rewrite Hneb.
    cbn [negb]. rewrite Clean_nonempty by done. unfold cleanStack.
    rewrite (split_noSeparator _ Hname).
    assert (isRooted name = false) as ->; [|done].
    destruct name as [|c name]; [done|]. simpl in *.
    apply andb_true_iff in Hname as [Hc _]. by apply negb_true_iff in Hc.
  - cbn [negb]. change ("/" ++ name)%string with (String "/" name).
    rewrite Clean_nonempty by (destruct dir; done).
    assert (isRooted (dir ++ String "/" name) = isRooted dir) as Hr by (by destruct dir).
    unfold cleanStack. rewrite Hr, split_app_separator, fold_left_app.
    by rewrite (split_noSeparator _ Hname).
Qed.

End FilepathFacts.

Section ContextsFacts.
Import Contexts.
Context `{OS} {versions_Version : Type}.
Local Open Scope list_scope.
Implicit Types (ctx : Context versions_Version) (op : DirOp) (fs : FS) (dir : string).

Lemma createDirIfNotExist_exists dir fs :
  exists_ dir fs → createDirIfNotExist dir fs = (fs, None).
Proof. intros [info Hinfo]. unfold createDirIfNotExist. by rewrite Hinfo. Qed.

Lemma createDirIfNotExist_creates dir fs fs' e :
  Stat dir fs = inr e → IsNotExist e = true → MkdirAll dir fs = (fs', None) →
  createDirIfNotExist dir fs = (fs', None).
Proof. intros Hstat He Hmk. unfold createDirIfNotExist. by rewrite Hstat, He, Hmk. Qed.

Lemma createDirIfNotExist_fails dir fs fs' msg :
  createDirIfNotExist dir fs = (fs', Some msg) →
  ∃ e, Stat dir fs = inr e
    ∧ ((IsNotExist e = false ∧ fs' = fs)
       ∨ (IsNotExist e = true ∧ ∃ e', MkdirAll dir fs = (fs', Some e'))).
Proof.
  unfold createDirIfNotExist. destruct (Stat dir fs) as [info|e]; [done|].
  destruct (IsNotExist e) eqn:He.
  - destruct (MkdirAll dir fs) as [fs'' [e'|]] eqn:Hmk; [|done].
    intros [= -> _]. exists e. split; [done|]. right. eauto.
  - intros [= -> _]. exists e. split; [done|]. by left.
Qed.

Lemma ensureDirs_exists (dirs : list string) fs :
  Forall (λ dir, exists_ dir fs) dirs → ensureDirs dirs fs = (fs, None).
Proof.
  induction 1 as [|dir dirs Hdir _ IH]; simpl; [done|].
  by rewrite (createDirIfNotExist_exists _ _ Hdir).
Qed.

Lemma ensureDirs_app (dirs1 dirs2 : list string) fs :
  ensureDirs (dirs1 ++ dirs2) fs
  = match ensureDirs dirs1 fs with
    | (fs', None) => ensureDirs dirs2 fs'
    | (fs', Some err) => (fs', Some err)
    end.
Proof.
  revert fs. induction dirs1 as [|dir dirs1 IH]; intros fs; simpl; [done|].
  destruct (createDirIfNotExist dir fs) as [fs' [err|]]; [done|]. apply IH.
Qed.

Lemma ensureDirs_fails (dirs : list string) fs fs' msg :
  ensureDirs dirs fs = (fs', Some msg) →
  ∃ dir fs0 e, dir ∈ dirs ∧ Stat dir fs0 = inr e
    ∧ ((IsNotExist e = false ∧ fs' = fs0)
       ∨ (IsNotExist e = true ∧ ∃ e', MkdirAll dir fs0 = (fs', Some e'))).
Proof.
  revert fs. induction dirs as [|dir dirs IH]; intros fs; simpl; [done|].
  destruct (createDirIfNotExist dir fs) as [fs1 [err|]] eqn:Hdir.
  - intros [= -> ->]. apply createDirIfNotExist_fails in Hdir as (e & Hstat & Hwhy).
    exists dir, fs, e. split; [by left|]. done.
  - intros (dir' & fs0 & e & Hin & Hrest)%IH. exists dir', fs0, e. split; [by right|]. done.
Qed.

(** Each getter is [createDirIfNotExist] along its chain of directories; it
    returns the last of them when every call succeeds. *)
Lemma runDirOp_ensureDirs op ctx fs :
  match ensureDirs (dirChain op ctx) fs with
  | (fs', None) => runDirOp op ctx fs = (fs', inl (targetOf op ctx))
  | (fs', Some _) => ∃ msg, runDirOp op ctx fs = (fs', inr msg)
  end.
Proof.
  destruct op; simpl;
    unfold CacheDir, MetadataDir, PluginDir, WorkspaceDotLipDir, WorkspaceDir,
      GlobalDotLipDir;
    repeat match goal with
    | |- context [createDirIfNotExist ?d ?s] =>
      let fs' := fresh "fs" in
      destruct (createDirIfNotExist d s) as [fs' [?|]]; simpl
    end; eauto.
Qed.

Lemma runDirOp_Ok op ctx fs fs' path :
  runDirOp op ctx fs = (fs', inl path) →
  path = targetOf op ctx ∧ ensureDirs (dirChain op ctx) fs = (fs', None).
Proof.
  intros Hrun. pose proof (runDirOp_ensureDirs op ctx fs) as Hspec.
  destruct (ensureDirs (dirChain op ctx) fs) as [fs1 [err|]].
  - destruct Hspec as [msg Hmsg]. congruence.
  - rewrite Hrun in Hspec. by injection Hspec as -> ->.
Qed.

Lemma runDirOp_Err op ctx fs fs' msg :
  runDirOp op ctx fs = (fs', inr msg) →
  ∃ err, ensureDirs (dirChain op ctx) fs = (fs', Some err).
Proof.
  intros Hrun. pose proof (runDirOp_ensureDirs op ctx fs) as Hspec.
  destruct (ensureDirs (dirChain op ctx) fs) as [fs1 [err|]].
  - destruct Hspec as [msg' Hmsg]. rewrite Hrun in Hmsg. injection Hmsg as -> _. eauto.
  - congruence.
Qed.

Lemma dirChain_last op ctx :
  dirChain op ctx = removelast (dirChain op ctx) ++ [targetOf op ctx].
Proof. by destruct op. Qed.

(** [createDirIfNotExist] succeeds on each directory in turn exactly when
    each exists or is missing and gets created. *)
Lemma ensureDirs_prepares (dirs : list string) fs fs' :
  ensureDirs dirs fs = (fs', None) ↔ prepares dirs fs fs'.
Proof.
  revert fs. induction dirs as [|dir dirs IH]; intros fs; simpl.
  { split; [by intros [= <-] | by intros ->]. }
  unfold createDirIfNotExist, exists_. split.
  - destruct (Stat dir fs) as [info|e] eqn:Hstat.
    { intros Hrest%IH. left. eauto. }
    destruct (IsNotExist e) eqn:He; [|done].
    destruct (MkdirAll dir fs) as [fs1 [e'|]] eqn:Hmk; [done|].
    intros Hrest%IH. right. by exists e, fs1.
  - intros [[[info Hinfo] Hrest]|(e & fs1 & Hstat & He & Hmk & Hrest)].
    + rewrite Hinfo. by apply IH.
    + rewrite Hstat, He, Hmk. by apply IH.
Qed.

(** C5, as the code has it. For each of the six directory getters:
    when every directory of its chain already exists on the disk, as a
    directory or not, the call succeeds, changes nothing and returns its
    path; a successful call returns the same path whatever the disk, and it
    succeeds exactly when each directory of the chain, taken in order, exists
    or is reported missing by [Stat] and created by [MkdirAll], the disk it
    leaves being the one these calls of [MkdirAll] made: a missing directory,
    the target or one above it, is not an error; and a call fails only
    because [Stat] failed otherwise than with not-exist, or because
    [MkdirAll] failed, on a directory of the chain. *)
Theorem directory_getter_outcomes ctx op fs :
  (Forall (λ dir, exists_ dir fs) (dirChain op ctx) →
     runDirOp op ctx fs = (fs, inl (targetOf op ctx)))
  ∧ (∀ fs' path, runDirOp op ctx fs = (fs', inl path) →
       path = targetOf op ctx ∧ prepares (dirChain op ctx) fs fs')
  ∧ (∀ fs', prepares (dirChain op ctx) fs fs' →
       runDirOp op ctx fs = (fs', inl (targetOf op ctx)))
  ∧ (∀ fs' msg, runDirOp op ctx fs = (fs', inr msg) →
       ∃ dir fs0 e, dir ∈ dirChain op ctx ∧ Stat dir fs0 = inr e
         ∧ ((IsNotExist e = false ∧ fs' = fs0)
            ∨ (IsNotExist e = true ∧ ∃ e', MkdirAll dir fs0 = (fs', Some e')))).
Proof.
  split_and!.
  - intros Hall. pose proof (runDirOp_ensureDirs op ctx fs) as Hspec.
    by rewrite (ensureDirs_exists _ _ Hall) in Hspec.
  - intros fs' path Hrun. apply runDirOp_Ok in Hrun as [-> Hdirs].
    split; [done | by apply ensureDirs_prepares].
  - intros fs' Hdirs%ensureDirs_prepares.
    pose proof (runDirOp_ensureDirs op ctx fs) as Hspec. by rewrite Hdirs in Hspec.
  - intros fs' msg [err Herr]%runDirOp_Err. by eapply ensureDirs_fails.
Qed.

End ContextsFacts.

Section CalculatedPaths.
Import Contexts Filepath.
Context `{OS} {versions_Version : Type}.
#[local] Arguments String.append !s1 s2 / : simpl nomatch.
Local Open Scope list_scope.
Implicit Types (ctx : Context versions_Version) (fs : FS).

Lemma CalculateCachePath_Ok ctx (fileURL : string) fs fs' (path : string) :
  CalculateCachePath ctx fileURL fs = (fs', inl path) →
  path = Join (Join (globalDotLipDir ctx) "cache") (Url.QueryEscape fileURL).
Proof.
  unfold CalculateCachePath.
  destruct (CacheDir ctx fs) as [fs1 [cacheDir|err]] eqn:Hdir; [|done].
  intros [= -> <-]. by apply (runDirOp_Ok OpCacheDir) in Hdir as [-> _].
Qed.

Lemma CalculateMetadataPath_Ok ctx (toothRepo : string) fs fs' (path : string) :
  CalculateMetadataPath ctx toothRepo fs = (fs', inl path) →
  path = Join (Join (Join (workspaceDir ctx) ".lip") "metadata")
           (Url.QueryEscape toothRepo ++ ".json")%string.
Proof.
  unfold CalculateMetadataPath.
  destruct (MetadataDir ctx fs) as [fs1 [metadataDir|err]] eqn:Hdir; [|done].
  intros [= -> <-]. by apply (runDirOp_Ok OpMetadataDir) in Hdir as [-> _].
Qed.

(** One step of [Clean] on top of a plain element tells the names apart,
    except that the empty name and the dot both leave the stack as it is. *)
Lemma cleanStep_top_inj rooted (top : string) (out : list string) (n1 n2 : string) :
  plainElem top = true → noSeparator n1 = true → noSeparator n2 = true →
  cleanStep rooted (top :: out) n1 = cleanStep rooted (top :: out) n2 →
  n1 = n2 ∨ (n1 ∈ [EmptyString; "."] ∧ n2 ∈ [EmptyString; "."]).
Proof.
  intros Htop H1 H2.
  assert (cleanStep rooted (top :: out) ".." = out) as Hdots.
  { apply plainElem_inv in Htop as (_ & _ & _ & Hne%String.eqb_neq).
    unfold cleanStep. change (String.eqb ".." EmptyString || String.eqb ".." ".") with false.
    change (String.eqb ".." "..") with true. cbv iota. by rewrite Hne. }
  assert (∀ n, noSeparator n = true →
    (n ∈ [EmptyString; "."] ∧ cleanStep rooted (top :: out) n = top :: out)
    ∨ (n = ".." ∧ cleanStep rooted (top :: out) n = out)
    ∨ (cleanStep rooted (top :: out) n = n :: top :: out)) as Hcases.
  { intros n Hn. destruct (elem_cases n Hn) as [->|[->|[->|Hplain]]].
    - left. split; [set_solver | done].
    - left. split; [set_solver | done].
    - right. left. done.
    - right. right. by apply cleanStep_plain. }
  destruct (Hcases n1 H1) as [[Hin1 ->]|[[-> ->]| ->]],
           (Hcases n2 H2) as [[Hin2 ->]|[[-> ->]| ->]]; intros Heq.
  - by right.
  - apply (f_equal (@length _)) in Heq. simpl in Heq. lia.
  - apply (f_equal (@length _)) in Heq. simpl in Heq. lia.
  - apply (f_equal (@length _)) in Heq. simpl in Heq. lia.
  - by left.
  - apply (f_equal (@length _)) in Heq. simpl in Heq. lia.
  - apply (f_equal (@length _)) in Heq. simpl in Heq. lia.
  - apply (f_equal (@length _)) in Heq. simpl in Heq. lia.
  - left. by injection Heq.
Qed.

(** Under the cache directory: the names [Join] cannot tell apart. *)
Lemma Join_cache_inj (global n1 n2 : string) :
  noSeparator n1 = true → noSeparator n2 = true →
  Join (Join global "cache") n1 = Join (Join global "cache") n2 →
  n1 = n2 ∨ (n1 ∈ [EmptyString; "."] ∧ n2 ∈ [EmptyString; "."]).
Proof.
  intros H1 H2.
  rewrite (Join_name global "cache") by (done || by right).
  rewrite (cleanStep_plain _ _ "cache") by done.
  assert (cleanForm (isRooted global) ("cache" :: cleanStack global) = true) as Hform.
  { cbn [cleanForm]. by rewrite cleanStack_cleanForm. }
  rewrite !Join_render by done.
  intros Heq%render_inj; [|by apply cleanStep_cleanForm..].
  by apply (cleanStep_top_inj (isRooted global) "cache" (cleanStack global)).
Qed.

Lemma Join_cache_dot (global : string) :
  Join (Join global "cache") EmptyString = Join (Join global "cache") ".".
Proof.
  rewrite (Join_name global "cache") by (done || by right).
  rewrite (cleanStep_plain _ _ "cache") by done.
  assert (cleanForm (isRooted global) ("cache" :: cleanStack global) = true) as Hform.
  { cbn [cleanForm]. by rewrite cleanStack_cleanForm. }
  by rewrite !Join_render.
Qed.

(** Under any directory, plain names are told apart. *)
Lemma Join_plain_inj (dir n1 n2 : string) :
  plainElem n1 = true → plainElem n2 = true →
  Join dir n1 = Join dir n2 → n1 = n2.
Proof.
  intros H1 H2.
  pose proof (plainElem_inv _ H1) as (Hs1 & Hne1 & _).
  pose proof (plainElem_inv _ H2) as (Hs2 & Hne2 & _).
  rewrite !Join_name by auto. rewrite !cleanStep_plain by done.
  intros Heq%render_inj.
  - by injection Heq.
  - cbn [cleanForm]. by rewrite H1, cleanStack_cleanForm.
  - cbn [cleanForm]. by rewrite H2, cleanStack_cleanForm.
Qed.

Lemma length_append (a b : string) :
  String.length (a ++ b) = String.length a + String.length b.
Proof. induction a; simpl; [done|]. by rewrite IHa. Qed.

Lemma append_inv_tail (a b c : string) : (a ++ c)%string = (b ++ c)%string → a = b.
Proof.
  revert b. induction a as [|x a IH]; intros [|y b]; simpl; intros Heq.
  - done.
  - apply (f_equal String.length) in Heq. simpl in Heq. rewrite length_append in Heq. lia.
  - apply (f_equal String.length) in Heq. simpl in Heq. rewrite length_append in Heq. lia.
  - injection Heq as -> Heq. f_equal. by apply IH.
Qed.

Lemma json_name_plain (key : string) :
  plainElem (Url.QueryEscape key ++ ".json") = true.
Proof.
  unfold plainElem.
  rewrite noSeparator_app, noSeparator_QueryEscape. simpl.
  assert (4 < String.length (Url.QueryEscape key ++ ".json")) as Hlen.
  { rewrite length_append. simpl. lia. }
  rewrite !andb_true_iff, !negb_true_iff, !String.eqb_neq.
  split_and!; intros Heq; rewrite Heq in Hlen; simpl in Hlen; lia.
Qed.

Lemma QueryEscape_dotted (key : string) :
  Url.QueryEscape key ∈ [EmptyString; "."] → key ∈ [EmptyString; "."].
Proof.
  intros Hin. apply elem_of_cons in Hin as [Hin|Hin].
  - apply (Url_QueryEscape_inj key EmptyString) in Hin as ->. set_solver.
  - apply list_elem_of_singleton in Hin.
    apply (Url_QueryEscape_inj key ".") in Hin as ->. set_solver.
Qed.

(** C7, as the code has it. Two successful calls with the same key return
    the same path.  For metadata paths, different keys give different paths.
    For cache paths, different URLs give different paths, except that the
    empty URL and the URL made of one dot both give the cache directory
    itself: these two are the only URLs that share a path. *)
Theorem calculated_paths_collisions ctx (key1 key2 : string) :
  (∀ fs1 fs2 fs1' fs2' path1 path2,
     CalculateCachePath ctx key1 fs1 = (fs1', inl path1) →
     CalculateCachePath ctx key2 fs2 = (fs2', inl path2) →
     path1 = path2 ↔
     key1 = key2 ∨ (key1 ∈ [EmptyString; "."] ∧ key2 ∈ [EmptyString; "."]))
  ∧ (∀ fs1 fs2 fs1' fs2' path1 path2,
       CalculateMetadataPath ctx key1 fs1 = (fs1', inl path1) →
       CalculateMetadataPath ctx key2 fs2 = (fs2', inl path2) →
       path1 = path2 ↔ key1 = key2).
Proof.
  split.
  - intros fs1 fs2 fs1' fs2' path1 path2 ->%CalculateCachePath_Ok ->%CalculateCachePath_Ok.
    split.
    + intros Heq. apply Join_cache_inj in Heq as [Heq|[Hin1 Hin2]];
        [| |apply noSeparator_QueryEscape..].
      * left. by apply Url_QueryEscape_inj.
      * right. split; by apply QueryEscape_dotted.
    + intros [->|[Hin1 Hin2]]; [done|].
      assert (∀ key, key ∈ [EmptyString; "."] →
        Join (Join (globalDotLipDir ctx) "cache") (Url.QueryEscape key)
        = Join (Join (globalDotLipDir ctx) "cache") EmptyString) as Hdot.
      { intros key [->|Hkey]%elem_of_cons; [done|].
        apply list_elem_of_singleton in Hkey as ->. symmetry. apply Join_cache_dot. }
      by rewrite (Hdot _ Hin1), (Hdot _ Hin2).
  - intros fs1 fs2 fs1' fs2' path1 path2
      ->%CalculateMetadataPath_Ok ->%CalculateMetadataPath_Ok.
    split; [|by intros ->].
    intros Heq%Join_plain_inj; [|apply json_name_plain..].
    by apply append_inv_tail, Url_QueryEscape_inj in Heq.
Qed.

End CalculatedPaths.

Section ContextsExamples.
Import Contexts.
Local Open Scope list_scope.

(** C5, counterexample. For each of the six getters, on the disk where its
    target is a regular file, [Stat] reports an entry that is not a directory
    and the getter returns the path with no error. *)
Lemma existing_file_counterexample :
  Forall (λ op,
    let target := targetOf op Sample.context in
    (∃ info, @Stat Sample.os target (Sample.fileAt target) = inl info
       ∧ @IsDir Sample.os info = false)
    ∧ runDirOp (H := Sample.os) op Sample.context (Sample.fileAt target)
      = (Sample.fileAt target, inl target)) Sample.allDirOps.
Proof.
  repeat constructor; try (exists false; split); vm_compute; reflexivity.
Qed.

(** [PluginDir] on an empty disk: none of the three directories of its
    chain exists, each is created in turn, and the call returns the plugin
    directory.  [MetadataDir] on a disk that has its three directories
    changes nothing and returns its path. *)
Lemma directory_getter_outcomes_witness :
  runDirOp (H := Sample.os) OpPluginDir Sample.context ∅
  = (Sample.pluginDisk, inl "/work/.lip/plugins")
  ∧ runDirOp (H := Sample.os) OpMetadataDir Sample.context Sample.workDisk
    = (Sample.workDisk, inl (targetOf OpMetadataDir Sample.context)).
Proof.
  split.
  - apply (proj1 (proj2 (proj2 (directory_getter_outcomes (H := Sample.os) Sample.context
                    OpPluginDir ∅))) Sample.pluginDisk).
    right. exists Sample.ENOENT, Sample.workOnlyDisk.
    split_and!; [vm_compute; reflexivity | reflexivity | vm_compute; reflexivity |].
    right. exists Sample.ENOENT, Sample.dotLipDisk.
    split_and!; [vm_compute; reflexivity | reflexivity | vm_compute; reflexivity |].
    right. exists Sample.ENOENT, Sample.pluginDisk.
    split_and!; [vm_compute; reflexivity | reflexivity | vm_compute; reflexivity |].
    reflexivity.
  - apply (proj1 (directory_getter_outcomes (H := Sample.os) Sample.context
                    OpMetadataDir Sample.workDisk)).
    repeat constructor; eexists; vm_compute; reflexivity.
Defined.

(** C7, counterexample. The empty URL and the URL made of one dot are
    different keys, and both calls succeed with the same path: the cache
    directory itself. *)
Lemma cache_path_collision_counterexample :
  EmptyString ≠ "."
  ∧ CalculateCachePath (H := Sample.os) Sample.context EmptyString ∅
    = (Sample.cacheDisk, inl "/home/user/.lip/cache")
  ∧ CalculateCachePath (H := Sample.os) Sample.context "." ∅
    = (Sample.cacheDisk, inl "/home/user/.lip/cache").
Proof. split; [discriminate|]. split; vm_compute; reflexivity. Qed.

(** Two URLs and their cache paths. *)
Lemma calculated_paths_collisions_witness :
  CalculateCachePath (H := Sample.os) Sample.context "https://example.com/x.zip" ∅
  = (Sample.cacheDisk, inl "/home/user/.lip/cache/https%3A%2F%2Fexample.com%2Fx.zip")
  ∧ CalculateCachePath (H := Sample.os) Sample.context "https://example.com/y.zip" ∅
    = (Sample.cacheDisk, inl "/home/user/.lip/cache/https%3A%2F%2Fexample.com%2Fy.zip")
  ∧ "/home/user/.lip/cache/https%3A%2F%2Fexample.com%2Fx.zip"
    ≠ "/home/user/.lip/cache/https%3A%2F%2Fexample.com%2Fy.zip".
Proof.
  assert (CalculateCachePath (H := Sample.os) Sample.context "https://example.com/x.zip" ∅
    = (Sample.cacheDisk, inl "/home/user/.lip/cache/https%3A%2F%2Fexample.com%2Fx.zip"))
    as Hx by (vm_compute; reflexivity).
  assert (CalculateCachePath (H := Sample.os) Sample.context "https://example.com/y.zip" ∅
    = (Sample.cacheDisk, inl "/home/user/.lip/cache/https%3A%2F%2Fexample.com%2Fy.zip"))
    as Hy by (vm_compute; reflexivity).
  split; [exact Hx|]. split; [exact Hy|]. intros Heq.
  apply (proj1 (calculated_paths_collisions (H := Sample.os) Sample.context
                  "https://example.com/x.zip" "https://example.com/y.zip")
           _ _ _ _ _ _ Hx Hy) in Heq.
  destruct Heq as [Hsame|[Hdot _]]; [discriminate Hsame|].
  apply elem_of_cons in Hdot as [Hdot|Hdot]; [discriminate Hdot|].
  apply list_elem_of_singleton in Hdot. discriminate Hdot.
Defined.

End ContextsExamples.

Section ConstraintFacts.
Import Constraints.
Local Open Scope list_scope.
Context {Version VersionMatch : Type}.
Variable Matches : VersionMatch → Version → bool.
Implicit Types (group : list VersionMatch) (groups : list (list VersionMatch))
  (candidate : Version).

Lemma satisfiesGroup_true group candidate :
  satisfiesGroup Matches group candidate = true
  ↔ ∀ versionMatch, versionMatch ∈ group → Matches versionMatch candidate = true.
Proof.
  induction group as [|versionMatch group IH]; simpl.
  - split; [|done]. intros _ ? Hin. by apply elem_of_nil in Hin.
  - destruct (Matches versionMatch candidate) eqn:Hm.
    + rewrite IH. split.
      * intros Hall vm [->|Hin]%elem_of_cons; auto.
      * intros Hall vm Hin. apply Hall. by right.
    + split; [done|]. intros Hall. rewrite <- Hm. apply Hall. by left.
Qed.

(** C2. A candidate satisfies the entry of a dependency iff some OR-group
    has all its matches satisfied by the candidate; the entry with no group
    is satisfied by no version; a group with no match is satisfied by every
    version, and so is every entry holding such a group. *)
Theorem satisfiesEntry_true groups candidate :
  (satisfiesEntry Matches groups candidate = true
   ↔ ∃ group, group ∈ groups
       ∧ ∀ versionMatch, versionMatch ∈ group → Matches versionMatch candidate = true)
  ∧ satisfiesEntry Matches [] candidate = false
  ∧ satisfiesGroup Matches [] candidate = true
  ∧ ([] ∈ groups → satisfiesEntry Matches groups candidate = true).
Proof.
  assert (satisfiesEntry Matches groups candidate = true
    ↔ ∃ group, group ∈ groups
        ∧ ∀ versionMatch, versionMatch ∈ group → Matches versionMatch candidate = true)
    as Hiff.
  { induction groups as [|group groups IH]; simpl.
    - split; [done|]. intros (group & Hin & _). by apply elem_of_nil in Hin.
    - destruct (satisfiesGroup Matches group candidate) eqn:Hgroup.
      + split; [|done]. intros _. exists group. split; [by left|].
        by apply satisfiesGroup_true.
      + rewrite IH. split.
        * intros (g & Hin & Hall). exists g. split; [by right | done].
        * intros (g & [->|Hin]%elem_of_cons & Hall); [|by exists g].
          apply satisfiesGroup_true in Hall. congruence. }
  split_and!; [exact Hiff | done | done |].
  intros Hempty. apply Hiff. exists []. split; [done|].
  intros vm Hin. by apply elem_of_nil in Hin.
Qed.

End ConstraintFacts.

Section ConstraintExamples.
Import Constraints.

(** The example of the specification: [pkgA] with the groups [>=1.0.0,
    <2.0.0] and [3.0.0]. *)
Example Satisfies_pkgA :
  Satisfies Sample.Matches Sample.manifestDependencies "pkgA" (Sample.version 1 5 0) = true
  ∧ Satisfies Sample.Matches Sample.manifestDependencies "pkgA" (Sample.version 2 5 0) = false
  ∧ Satisfies Sample.Matches Sample.manifestDependencies "pkgA" (Sample.version 3 0 0) = true
  ∧ Satisfies Sample.Matches Sample.manifestDependencies "Other/Dep" (Sample.version 1 0 0) = false
  ∧ Satisfies Sample.Matches Sample.manifestDependencies "absent" (Sample.version 1 0 0) = false.
Proof. repeat split; reflexivity. Qed.

End ConstraintExamples.

Section PlacementTokens.
Import Json Toothmetadata.
Context `{Imports}.
Local Open Scope list_scope.

(** X6. What the check of lines 95 and 98 guarantees: a decoded token is empty,
    or starts with an ASCII letter or digit and holds no byte of the class
    [\s]. *)
Lemma placement_tokens_checked (jsonData : string) (m : Metadata) :
  NewFromJSON jsonData = Ok m →
  Forall (λ p, (Source p = EmptyString ∨ Regexp.matches (Source p) = true)
             ∧ (Destination p = EmptyString ∨ Regexp.matches (Destination p) = true))
    (Placement m).
Proof.
  unfold NewFromJSON. destruct (json_Unmarshal jsonData) as [metadataMap|]; [|done].
  intros Hm. apply decodeMap_Ok_inv in Hm
    as (tooth & text & entries & information & placements & _ & _ & _
        & _ & _ & _ & _ & _ & _ & _ & _ & _ & _ & _ & Hplacement).
  apply traverse_decodePlacement_accepted in Hplacement.
  eapply Forall_impl; [exact Hplacement|].
  intros p [Hs Hd]. split; by apply FindString_fixed.
Qed.

(** The examples of the specification, and the empty token. *)
Lemma placement_token_examples :
  decodePlacement (Sample.placementOf "a b" "x")
  = Err "failed to decode JSON into metadata: invalid source: a b"
  ∧ decodePlacement (Sample.placementOf " assets" "x")
    = Err "failed to decode JSON into metadata: invalid source:  assets"
  ∧ decodePlacement (Sample.placementOf "x" "a b")
    = Err "failed to decode JSON into metadata: invalid destination: a b"
  ∧ decodePlacement (Sample.placementOf "assets/file.txt" "x")
    = Ok {| Source := "assets/file.txt"; Destination := "x" |}
  ∧ decodePlacement (Sample.placementOf EmptyString "x")
    = Ok {| Source := EmptyString; Destination := "x" |}.
Proof. repeat split; reflexivity. Qed.

End PlacementTokens.

Section MemberOrder.
Import Json.
Local Open Scope list_scope.

#[local] Instance keyLe_transitive : Transitive keyLe.
Proof. intros a b c. unfold keyLe. apply transitivity. Qed.

#[local] Instance keyLe_total : Total keyLe.
Proof. intros a b. unfold keyLe. apply total, _. Qed.

Lemma NoDup_keys_eq (l : list (string * string)) (a b : string * string) :
  NoDup (l.*1) → a ∈ l → b ∈ l → a.1 = b.1 → a = b.
Proof.
  induction l as [|x l IH]; intros Hnodup Ha Hb Hkey.
  - by apply elem_of_nil in Ha.
  - simpl in Hnodup. apply NoDup_cons in Hnodup as [Hx Hnodup].
    apply elem_of_cons in Ha as [->|Ha], Hb as [->|Hb].
    + done.
    + exfalso. apply Hx. rewrite Hkey. by apply list_elem_of_fmap_2.
    + exfalso. apply Hx. rewrite <- Hkey. by apply list_elem_of_fmap_2.
    + by apply IH.
Qed.

(** The members of an object are written in the order of their keys, in
    whatever order the map was enumerated. *)
Lemma merge_sort_keyLe_unique (l1 l2 : list (string * string)) :
  NoDup (l1.*1) → l1 ≡ₚ l2 →
  merge_sort keyLe l1 = merge_sort keyLe l2.
Proof.
  intros Hnodup Hperm. apply (Sorted_unique_strong keyLe).
  - intros a b Ha Hb Hab Hba.
    apply (NoDup_keys_eq l1); [done | | |].
    + by rewrite merge_sort_Permutation in Ha.
    + rewrite merge_sort_Permutation in Hb. by rewrite Hperm.
    + unfold keyLe in *. by apply (anti_symm String.le).
  - apply Sorted_merge_sort, _.
  - apply Sorted_merge_sort, _.
  - by rewrite !merge_sort_Permutation.
Qed.

(** With HTML escaping off, the three characters of markup are copied. *)
Lemma quote_markup : quote "<&>" = (QUOTE ++ "<&>" ++ QUOTE)%string.
Proof. reflexivity. Qed.

Lemma indent_length (depth : nat) : String.length (indent depth) = 2 * depth.
Proof.
  unfold indent. induction depth as [|depth IH]; [done|].
  change (replicate (S depth) "  ") with ("  " :: replicate depth "  ").
  change (String.concat EmptyString ("  " :: replicate depth "  "))
    with (match replicate depth "  " with
          | [] => "  "
          | _ => ("  " ++ EmptyString ++ String.concat EmptyString (replicate depth "  "))%string
          end).
  destruct depth as [|depth]; [done|].
  change (replicate (S depth) "  ") with ("  " :: replicate depth "  ") at 1.
  cbv iota. change ("  " ++ EmptyString ++ ?s)%string with (String " " (String " " s)).
  cbn [String.length]. rewrite IH. lia.
Qed.

End MemberOrder.

(** * Further properties of the code

    What the decoder accepts and what it reports, the shape of the document
    [JSON] writes, where the calculated paths lie, and what the directory
    getters do to the disk. *)

Section LoopFailures.
Local Open Scope list_scope.
Context {A B : Type}.
Implicit Types (f : A → result B) (xs good rest : list A).

Lemma bind_Err_inv {X Y} (r : result X) (k : X → result Y) (msg : string) :
  r ≫= k = Err msg → r = Err msg ∨ ∃ x, r = Ok x ∧ k x = Err msg.
Proof. destruct r as [x| |]; simpl; [eauto | intros [= ->]; by left | done]. Qed.

(** The loop stops at the first element that does not decode: what comes
    after it is never looked at. *)
Lemma traverse_app_Err f good bad rest msg :
  Forall (λ x, is_Ok (f x)) good → f bad = Err msg →
  traverse f (good ++ bad :: rest) = Err msg.
Proof.
  intros Hgood Hbad. induction Hgood as [|x good [y Hy] _ IH]; simpl.
  - by rewrite Hbad.
  - rewrite Hy. simpl. by rewrite IH.
Qed.

Lemma traverse_Err f xs msg :
  traverse f xs = Err msg →
  ∃ good bad rest, xs = good ++ bad :: rest
    ∧ Forall (λ x, is_Ok (f x)) good ∧ f bad = Err msg.
Proof.
  induction xs as [|x xs IH]; simpl; [done|].
  intros [Hx|(y & Hy & Hrest)]%bind_Err_inv.
  - exists [], x, xs. split_and!; [done | constructor | done].
  - apply bind_Err_inv in Hrest as [Hrest|(ys & _ & ?)]; [|done].
    destruct (IH Hrest) as (good & bad & rest & -> & Hgood & Hbad).
    exists (x :: good), bad, rest. split_and!; [done | | done].
    constructor; [by eexists | done].
Qed.

Lemma traverse_not_Panic f xs :
  Forall (λ x, f x ≠ Panic) xs → traverse f xs ≠ Panic.
Proof.
  induction 1 as [|x xs Hx _ IH]; simpl; [done|].
  destruct (f x); simpl; [|done..]. by destruct (traverse f xs).
Qed.

End LoopFailures.

Section Strings.
#[local] Arguments String.append !s1 s2 / : simpl nomatch.

Lemma string_app_assoc (a b c : string) : ((a ++ b) ++ c)%string = (a ++ b ++ c)%string.
Proof. induction a as [|x a IH]; simpl; [done|]. by rewrite IH. Qed.

End Strings.

Section DocumentFacts.
Import Json Toothmetadata.
Context `{Imports}.
Local Open Scope list_scope.
Implicit Types (metadataMap information entries : gmap string value) (v : value).

Lemma decodeVersionMatch_Ok v versionMatch :
  decodeVersionMatch v = Ok versionMatch ↔ matchDecodes v versionMatch.
Proof.
  unfold decodeVersionMatch, matchDecodes. split.
  - intros (text & ->%assertString_Ok & Hparse)%bind_Ok_inv.
    destruct (versionmatch_NewFromString text) eqn:Htext; [|done].
    injection Hparse as ->. eauto.
  - intros (text & -> & Htext). simpl. by rewrite Htext.
Qed.

Lemma decodeInnerList_Ok v group :
  decodeInnerList v = Ok group ↔ groupDecodes v group.
Proof.
  unfold decodeInnerList, groupDecodes. split.
  - intros (inner & ->%assertArray_Ok & Hloop)%bind_Ok_inv.
    rewrite rangeStore_make in Hloop. apply traverse_Ok in Hloop.
    exists inner. split; [done|].
    eapply Forall2_impl; [exact Hloop|]. intros x y. apply decodeVersionMatch_Ok.
  - intros (inner & -> & Hall). simpl. rewrite rangeStore_make. apply traverse_Ok.
    eapply Forall2_impl; [exact Hall|]. intros x y. apply decodeVersionMatch_Ok.
Qed.

Lemma decodeOuterList_Ok v groups :
  decodeOuterList v = Ok groups ↔ groupsDecode v groups.
Proof.
  unfold decodeOuterList, groupsDecode. split.
  - intros (outer & ->%assertArray_Ok & Hloop)%bind_Ok_inv.
    rewrite rangeStore_make in Hloop. apply traverse_Ok in Hloop.
    exists outer. split; [done|].
    eapply Forall2_impl; [exact Hloop|]. intros x y. apply decodeInnerList_Ok.
  - intros (outer & -> & Hall). simpl. rewrite rangeStore_make. apply traverse_Ok.
    eapply Forall2_impl; [exact Hall|]. intros x y. apply decodeInnerList_Ok.
Qed.

Lemma decodePlacement_Ok v placement :
  decodePlacement v = Ok placement ↔ placementDecodes v placement.
Proof.
  split; [apply decodePlacement_Ok_inv|].
  intros (entry & -> & Hsource & Hdestination & Hs & Hd).
  unfold decodePlacement, tokenAccepted in *. simpl.
  rewrite Hsource, Hdestination. simpl. rewrite Hs, Hd. simpl. by destruct placement.
Qed.

Lemma rangeDependencies_describes entries dependencies :
  rangeDependencies (map_to_list entries) ∅ = Ok dependencies ↔
  ∀ toothPath,
    match entries !! toothPath with
    | Some v => ∃ groups, dependencies !! toothPath = Some groups ∧ groupsDecode v groups
    | None => dependencies !! toothPath = None
    end.
Proof.
  rewrite rangeDependencies_spec. split; intros Hall k; specialize (Hall k);
    destruct (entries !! k); [|done| |done];
    destruct Hall as (groups & ? & ?); exists groups.
  - split; [done | by apply decodeOuterList_Ok].
  - split; [by apply decodeOuterList_Ok | done].
Qed.

(** X1. A document is accepted exactly when it describes a metadata, and the
    metadata returned is the one it describes: the tooth in lower case and
    valid, the version parsed, a dependency for each key of the object and
    no other, with its groups and matches in the order of the document, the
    five strings of the information as they are, and the placements in the
    order of the document, each with two tokens that pass the check. *)
Theorem NewFromJSON_Ok_iff_describes (jsonData : string) metadataMap (m : Metadata) :
  json_Unmarshal jsonData = inl metadataMap →
  NewFromJSON jsonData = Ok m ↔ describes metadataMap m.
Proof.
  intros Hdoc. rewrite (NewFromJSON_decodeMap _ _ Hdoc). unfold describes. split.
  - intros Hm. apply decodeMap_Ok_inv in Hm
      as (tooth & text & entries & information & placements & Htooth & Hpath & Hvalid
          & Htext & Hversion & Hentries & Hdeps & Hinfo & Hname & Hdescription
          & Hauthor & Hlicense & Hhomepage & Hplacements & Hplacement).
    split_and!.
    + by exists tooth.
    + by exists text.
    + exists entries. split; [done|]. by apply rangeDependencies_describes.
    + by exists information.
    + exists placements. split; [done|]. apply traverse_Ok in Hplacement.
      eapply Forall2_impl; [exact Hplacement|]. intros x y. apply decodePlacement_Ok.
  - intros ((tooth & Htooth & Hpath & Hvalid) & (text & Htext & Hversion)
            & (entries & Hentries & Hdeps)
            & (information & Hinfo & Hname & Hdescription & Hauthor & Hlicense & Hhomepage)
            & (placements & Hplacements & Hplacement)).
    apply rangeDependencies_describes in Hdeps.
    assert (traverse decodePlacement placements = Ok (Placement m)) as Hloop.
    { apply traverse_Ok. eapply Forall2_impl; [exact Hplacement|].
      intros x y. apply decodePlacement_Ok. }
    rewrite (decodeMap_Ok_intro _ _ _ _ _ _ _ _ _ _ _ _ _ _ Htooth Hvalid Htext Hversion
               Hentries Hdeps Hinfo Hname Hdescription Hauthor Hlicense Hhomepage
               Hplacements Hloop).
    rewrite <- Hpath. by destruct m as [? ? ? [] ?].
Qed.

End DocumentFacts.

Section DecodeErrors.
Import Json Toothmetadata.
Context `{Imports}.
Local Open Scope list_scope.
Implicit Types (metadataMap information entries : gmap string value) (v : value).

Lemma rangeStore_make_Err {A B} (f : A → result B) (zero : B) (xs : list A) msg :
  rangeStore f 0 xs (make zero (length xs)) = Err msg → ∃ x, x ∈ xs ∧ f x = Err msg.
Proof.
  rewrite rangeStore_make. intros (good & bad & rest & -> & _ & Hbad)%traverse_Err.
  exists bad. split; [|done]. apply elem_of_app. right. by left.
Qed.

Lemma decodeVersionMatch_Err v msg :
  decodeVersionMatch v = Err msg →
  ∃ text err, versionmatch_NewFromString text = inr err ∧ msg = (decodePrefix ++ err)%string.
Proof.
  unfold decodeVersionMatch. intros [Hv|(text & _ & Hparse)]%bind_Err_inv.
  - by destruct v.
  - destruct (versionmatch_NewFromString text) as [|err] eqn:Htext; [done|].
    injection Hparse as <-. eauto.
Qed.

Lemma decodeInnerList_Err v msg :
  decodeInnerList v = Err msg →
  ∃ text err, versionmatch_NewFromString text = inr err ∧ msg = (decodePrefix ++ err)%string.
Proof.
  unfold decodeInnerList. intros [Hv|(inner & _ & Hloop)]%bind_Err_inv.
  - by destruct v.
  - apply rangeStore_make_Err in Hloop as (x & _ & Hx). by eapply decodeVersionMatch_Err.
Qed.

Lemma decodeOuterList_Err v msg :
  decodeOuterList v = Err msg →
  ∃ text err, versionmatch_NewFromString text = inr err ∧ msg = (decodePrefix ++ err)%string.
Proof.
  unfold decodeOuterList. intros [Hv|(outer & _ & Hloop)]%bind_Err_inv.
  - by destruct v.
  - apply rangeStore_make_Err in Hloop as (x & _ & Hx). by eapply decodeInnerList_Err.
Qed.

Lemma rangeDependencies_Err (l : list (string * value)) : ∀ acc msg,
  rangeDependencies l acc = Err msg →
  ∃ text err, versionmatch_NewFromString text = inr err ∧ msg = (decodePrefix ++ err)%string.
Proof.
  induction l as [|[k v] l IH]; intros acc msg; simpl; [done|].
  intros [Hv|(outer & _ & Hrest)]%bind_Err_inv.
  - by eapply decodeOuterList_Err.
  - by eapply IH.
Qed.

Lemma decodePlacement_Err v msg :
  decodePlacement v = Err msg →
  ∃ token, ¬ tokenAccepted token
    ∧ (msg = (decodePrefix ++ "invalid source: " ++ token)%string
       ∨ msg = (decodePrefix ++ "invalid destination: " ++ token)%string).
Proof.
  unfold decodePlacement, tokenAccepted.
  intros [Hv|(source & _ & Hrest)]%bind_Err_inv.
  { destruct v; try done. simpl in Hv. by destruct (index _ _). }
  apply bind_Err_inv in Hrest as [Hv|(destination & _ & Hrest)].
  { destruct v; try done. simpl in Hv. by destruct (index _ _). }
  destruct (String.eqb (Regexp.FindString source) source) eqn:Hs; simpl in Hrest.
  - destruct (String.eqb (Regexp.FindString destination) destination) eqn:Hd;
      simpl in Hrest; [done|].
    injection Hrest as <-. exists destination. split; [by rewrite Hd | by right].
  - injection Hrest as <-. exists source. split; [by rewrite Hs | by left].
Qed.

Lemma informationField_not_Err metadataMap field msg :
  informationField metadataMap field ≠ Err msg.
Proof.
  destruct (informationField_cases metadataMap field) as [->|[s ->]]; done.
Qed.

(** X2. Every error [NewFromJSON] returns starts with the same words, and what
    follows them is the text of the error of the JSON reader, an invalid
    tooth path, the text of the error of the version parser or of the
    version-match parser, or an invalid source or destination with the token
    that did not pass the check.  The information is never the cause of an
    error. *)
Theorem NewFromJSON_Err_catalogue (jsonData : string) (msg : string) :
  NewFromJSON jsonData = Err msg →
  ∃ detail, msg = ("failed to decode JSON into metadata: " ++ detail)%string
    ∧ (json_Unmarshal jsonData = inr detail
       ∨ (∃ metadataMap, json_Unmarshal jsonData = inl metadataMap)
         ∧ decodeErrorDetail detail).
Proof.
  unfold NewFromJSON. destruct (json_Unmarshal jsonData) as [metadataMap|err].
  2:{ intros [= <-]. exists err. split; [done | by left]. }
  intros Hm.
  assert (∃ detail, msg = (decodePrefix ++ detail)%string ∧ decodeErrorDetail detail)
    as (detail & -> & Hdetail); [|exists detail; split; [done | right; eauto]].
  unfold decodeMap, decodeErrorDetail in *.
  apply bind_Err_inv in Hm as [Hm|(tooth & _ & Hm)]; [by destruct (index _ _)|].
  destruct (tooth_IsValidToothPath (strings_ToLower tooth)) eqn:Hvalid; simpl in Hm.
  2:{ injection Hm as <-. eexists. split; [done|]. left. eauto. }
  apply bind_Err_inv in Hm as [Hm|(text & _ & Hm)]; [by destruct (index _ _)|].
  destruct (versionutils_NewFromString text) as [version|err] eqn:Hversion.
  2:{ injection Hm as <-. exists err. split; [done|]. right. left. eauto. }
  apply bind_Err_inv in Hm as [Hm|(entries & _ & Hm)]; [by destruct (index _ _)|].
  apply bind_Err_inv in Hm as [Hm|(dependencies & _ & Hm)].
  { apply rangeDependencies_Err in Hm as (vtext & err & Hparse & ->).
    exists err. split; [done|]. right. right. left. eauto. }
  do 5 (apply bind_Err_inv in Hm as [Hm|(? & _ & Hm)];
        [by apply informationField_not_Err in Hm|]).
  apply bind_Err_inv in Hm as [Hm|(placements & _ & Hm)]; [by destruct (index _ _)|].
  apply bind_Err_inv in Hm as [Hm|(? & _ & Hm)]; [|done].
  apply rangeStore_make_Err in Hm as (v & _ & Hv).
  apply decodePlacement_Err in Hv as (token & Htoken & [->| ->]).
  - eexists. split; [done|]. do 3 right. left. eauto.
  - eexists. split; [done|]. do 4 right. eauto.
Qed.

End DecodeErrors.

Section DecodingOrder.
Import Json Toothmetadata.
Context `{Imports}.
Local Open Scope list_scope.
Implicit Types (metadataMap information entries : gmap string value) (v : value).

(** X5. The decoder reads five keys of the document and no other: two documents
    that agree on them are accepted or refused together, and when they are
    accepted they decode to the same metadata.  (Which error or panic ends
    the decoding of a refused document can depend on the order in which the
    dependencies are visited; whether a document is accepted, and what it
    decodes to, does not, so nothing is said here of the former.) *)
Theorem NewFromJSON_ignores_unknown_keys (jsonData1 jsonData2 : string)
    metadataMap1 metadataMap2 :
  json_Unmarshal jsonData1 = inl metadataMap1 →
  json_Unmarshal jsonData2 = inl metadataMap2 →
  (∀ field, field ∈ topLevelFields → metadataMap1 !! field = metadataMap2 !! field) →
  ∀ m, NewFromJSON jsonData1 = Ok m ↔ NewFromJSON jsonData2 = Ok m.
Proof.
  intros Hdoc1 Hdoc2 Hsame m.
  rewrite (NewFromJSON_decodeMap _ _ Hdoc1), (NewFromJSON_decodeMap _ _ Hdoc2).
  assert (∀ mm1 mm2,
            (∀ field, field ∈ topLevelFields → mm1 !! field = mm2 !! field) →
            decodeMap mm1 = Ok m → decodeMap mm2 = Ok m) as Hcarry.
  { intros mm1 mm2 Heq Hm. apply decodeMap_Ok_inv in Hm
      as (tooth & text & entries & information & placements & Htooth & Hpath & Hvalid
          & Htext & Hversion & Hentries & Hdeps & Hinfo & Hname & Hdescription
          & Hauthor & Hlicense & Hhomepage & Hplacements & Hplacement).
    rewrite (Heq "tooth") in Htooth by (unfold topLevelFields; set_solver).
    rewrite (Heq "version") in Htext by (unfold topLevelFields; set_solver).
    rewrite (Heq "dependencies") in Hentries by (unfold topLevelFields; set_solver).
    rewrite (Heq "information") in Hinfo by (unfold topLevelFields; set_solver).
    rewrite (Heq "placement") in Hplacements by (unfold topLevelFields; set_solver).
    rewrite (decodeMap_Ok_intro _ _ _ _ _ _ _ _ _ _ _ _ _ _ Htooth Hvalid Htext Hversion
               Hentries Hdeps Hinfo Hname Hdescription Hauthor Hlicense Hhomepage
               Hplacements Hplacement).
    rewrite <- Hpath. by destruct m as [? ? ? [] ?]. }
  split; apply Hcarry; [done|]. intros field Hfield. symmetry. by apply Hsame.
Qed.

(** X4. The placements are checked in the order of the document, the source of
    each before its destination, and the loop ends at the first one that is
    refused: the error is the error of that placement, whatever follows it
    in the array. *)
Theorem NewFromJSON_reports_first_bad_placement (jsonData : string) metadataMap
    (good : list value) (bad : value) (rest : list value) (msg : string) :
  json_Unmarshal jsonData = inl metadataMap →
  toothOk metadataMap → versionOk metadataMap → dependenciesOk metadataMap →
  informationOk metadataMap →
  metadataMap !! "placement" = Some (Array (good ++ bad :: rest)) →
  Forall (λ v, is_Ok (decodePlacement v)) good →
  decodePlacement bad = Err msg →
  NewFromJSON jsonData = Err msg
  ∧ ∃ token, ¬ tokenAccepted token
      ∧ (msg = ("failed to decode JSON into metadata: invalid source: " ++ token)%string
         ∨ (msg = ("failed to decode JSON into metadata: invalid destination: "
                   ++ token)%string
            ∧ ∃ entry source, bad = Object entry ∧ index entry "source" = Str source
                ∧ tokenAccepted source)).
Proof.
  intros Hdoc (tooth & Htooth%index_Str & Hvalid)
    (text & version & Htext%index_Str & Hversion)
    (entries & dependencies & Hentries%index_Object & Hdeps)
    (information & Hinfo%index_Object & Hfields) Hplacement%index_Array Hgood Hbad.
  split.
  - rewrite (NewFromJSON_decodeMap _ _ Hdoc). unfold decodeMap, informationField.
    rewrite Htooth. simpl. rewrite Hvalid. simpl. rewrite Htext. simpl.
    rewrite Hversion, Hentries. simpl. rewrite Hdeps. simpl. rewrite Hinfo. simpl.
    destruct (Hfields "name") as [name ->]; [unfold informationFields; set_solver|].
    destruct (Hfields "description") as [description ->];
      [unfold informationFields; set_solver|].
    destruct (Hfields "author") as [author ->]; [unfold informationFields; set_solver|].
    destruct (Hfields "license") as [license ->]; [unfold informationFields; set_solver|].
    destruct (Hfields "homepage") as [homepage ->];
      [unfold informationFields; set_solver|].
    simpl. rewrite Hplacement. simpl.
    by rewrite rangeStore_make, (traverse_app_Err _ _ _ _ _ Hgood Hbad).
  - clear -Hbad. unfold decodePlacement, tokenAccepted in *.
    apply bind_Err_inv in Hbad as [Hv|(source & Hsource & Hrest)].
    { destruct bad; try done. simpl in Hv. by destruct (index _ _). }
    apply bind_Err_inv in Hrest as [Hv|(destination & _ & Hrest)].
    { destruct bad; try done. simpl in Hv. by destruct (index _ _). }
    destruct (String.eqb (Regexp.FindString source) source) eqn:Hs; simpl in Hrest.
    + destruct (String.eqb (Regexp.FindString destination) destination) eqn:Hd;
        simpl in Hrest; [done|].
      injection Hrest as <-. exists destination. split; [by rewrite Hd|]. right.
      split; [done|].
      apply bind_Ok_inv in Hsource as (entry & ->%assertObject_Ok & Hsrc%assertString_Ok).
      by exists entry, source.
    + injection Hrest as <-. exists source. split; [by rewrite Hs | by left].
Qed.

End DecodingOrder.

Section TypedDocuments.
Import Json Toothmetadata.
Context `{Imports}.
Local Open Scope list_scope.
Implicit Types (metadataMap information entries : gmap string value) (v : value).

Lemma rangeDependencies_not_Panic (l : list (string * value)) : ∀ acc,
  Forall (λ entry, decodeOuterList entry.2 ≠ Panic) l →
  rangeDependencies l acc ≠ Panic.
Proof.
  induction l as [|[k v] l IH]; intros acc Hall; simpl; [done|].
  apply Forall_cons in Hall as [Hv Hall]. simpl in Hv.
  destruct (decodeOuterList v); simpl; [by apply IH | done | done].
Qed.

Lemma decodeOuterList_typed v : typedGroups v → decodeOuterList v ≠ Panic.
Proof.
  intros (outer & -> & Houter). unfold decodeOuterList. simpl. rewrite rangeStore_make.
  apply traverse_not_Panic. eapply Forall_impl; [exact Houter|].
  intros group (inner & -> & Hinner). unfold decodeInnerList. simpl.
  rewrite rangeStore_make. apply traverse_not_Panic. eapply Forall_impl; [exact Hinner|].
  intros x [text ->]. unfold decodeVersionMatch. simpl.
  by destruct (versionmatch_NewFromString text).
Qed.

Lemma decodePlacement_typed v : typedPlacement v → decodePlacement v ≠ Panic.
Proof.
  intros (entry & -> & [source Hsource] & [destination Hdestination]).
  unfold decodePlacement. simpl. rewrite Hsource, Hdestination. simpl.
  by repeat case_match.
Qed.

Lemma decodeMap_typed metadataMap : wellTyped metadataMap → decodeMap metadataMap ≠ Panic.
Proof.
  intros ([tooth Htooth] & [text Htext] & (entries & Hentries & Hgroups)
          & (information & Hinfo & Hfields) & (placements & Hplacements & Htyped)).
  unfold decodeMap, informationField.
  rewrite Htooth, Htext, Hentries, Hinfo, Hplacements. simpl.
  destruct (tooth_IsValidToothPath _); simpl; [|done].
  destruct (versionutils_NewFromString _); [|done].
  destruct (rangeDependencies _ ∅) as [dependencies| |] eqn:Hloop; simpl; [|done|].
  2:{ exfalso. revert Hloop. apply rangeDependencies_not_Panic, Forall_forall.
      intros [k x] Hin%elem_of_map_to_list. simpl.
      apply decodeOuterList_typed. by eapply Hgroups. }
  destruct (Hfields "name") as [name ->]; [unfold informationFields; set_solver|].
  destruct (Hfields "description") as [description ->];
    [unfold informationFields; set_solver|].
  destruct (Hfields "author") as [author ->]; [unfold informationFields; set_solver|].
  destruct (Hfields "license") as [license ->]; [unfold informationFields; set_solver|].
  destruct (Hfields "homepage") as [homepage ->]; [unfold informationFields; set_solver|].
  simpl. rewrite rangeStore_make.
  destruct (traverse decodePlacement _) eqn:Hloop'; simpl; [done..|].
  exfalso. revert Hloop'. apply traverse_not_Panic.
  eapply Forall_impl; [exact Htyped|]. intros x. apply decodePlacement_typed.
Qed.

(** X3. A document in which every field has the type the decoder asserts is
    never the cause of a panic: the call returns a metadata or an error. *)
Theorem NewFromJSON_typed_document_no_panic (jsonData : string) metadataMap :
  json_Unmarshal jsonData = inl metadataMap →
  wellTyped metadataMap →
  NewFromJSON jsonData ≠ Panic.
Proof.
  intros Hdoc Htyped. rewrite (NewFromJSON_decodeMap _ _ Hdoc). by apply decodeMap_typed.
Qed.

Lemma wellTyped_metadataMapOf (metadata : Metadata) : wellTyped (metadataMapOf metadata).
Proof.
  unfold wellTyped, metadataMapOf, index.
  split_and!.
  - rewrite !lookup_insert_ne, lookup_insert_eq by done. by eexists.
  - rewrite !lookup_insert_ne, lookup_insert_eq by done. by eexists.
  - eexists. split; [by rewrite !lookup_insert_ne, lookup_insert_eq by done|].
    rewrite encodeDependencies_fmap. intros k v. rewrite lookup_fmap. intros Hk.
    destruct (Dependencies metadata !! k) as [outer|]; simplify_eq/=.
    rewrite encodeOuterList_eq. eexists. split; [done|].
    apply Forall_fmap, Forall_forall. intros inner _. simpl.
    rewrite encodeInnerList_eq. eexists. split; [done|].
    apply Forall_fmap, Forall_forall. intros versionMatch _. by eexists.
  - eexists. split; [by rewrite !lookup_insert_ne, lookup_insert_eq by done|].
    intros field Hfield. unfold informationFields in Hfield. unfold encodeInformation.
    repeat (apply elem_of_cons in Hfield as [->|Hfield]);
      [| | | | | by apply elem_of_nil in Hfield];
      rewrite ?lookup_insert_eq, ?lookup_insert_ne, ?lookup_insert_eq by done;
      by eexists.
  - eexists. split; [by rewrite lookup_insert_eq|].
    rewrite rangeAssign_make. apply Forall_fmap, Forall_forall. intros p _. simpl.
    unfold encodePlacement. eexists. split; [done|]. unfold index.
    rewrite lookup_insert_eq, lookup_insert_ne, lookup_insert_eq by done.
    split; by eexists.
Qed.

(** X8. Whatever the metadata, validated or built by hand, decoding the document
    that [JSON] wrote for it does not panic: every field the decoder asserts
    a type for is written with that type, so the call returns a metadata or
    an error, provided the JSON library reads back the document the encoder
    wrote. *)
Theorem NewFromJSON_JSON_never_panics (m : Metadata) :
  (∀ bytes, JSON m = Ok bytes → json_Unmarshal bytes = inl (metadataMapOf m)) →
  ∃ bytes, JSON m = Ok bytes ∧ NewFromJSON bytes ≠ Panic.
Proof.
  intros Hlibrary. destruct (JSON_is_Ok m) as [bytes Hbytes].
  exists bytes. split; [exact Hbytes|].
  rewrite (NewFromJSON_decodeMap _ _ (Hlibrary bytes Hbytes)).
  apply decodeMap_typed, wellTyped_metadataMapOf.
Qed.

End TypedDocuments.

Section Layout.
Import Json Toothmetadata.
Context `{Imports}.
Local Open Scope list_scope.
#[local] Existing Instance keyLe_transitive.
#[local] Existing Instance keyLe_total.
#[local] Arguments String.append !s1 s2 / : simpl nomatch.

Lemma members_Some (l : list (string * option string)) (kvs : list (string * string)) :
  members l = Some kvs ↔ l = (λ kv : string * string, (kv.1, Some kv.2)) <$> kvs.
Proof.
  unfold members. split.
  - intros Hl. symmetry. eapply mapM_fmap_Some_inv; [exact Hl|].
    intros [k [v|]] [k' v']; simpl; [|done]. by intros [= <- <-].
  - intros ->. apply mapM_fmap_Some. by intros [k v].
Qed.

(** An object whose members are known is written with its members in the
    order of their keys. *)
Lemma encodeValue_Object_sorted formatFloat depth (m : gmap string value)
    (kvs : list (string * string)) :
  map_to_list (encodeValue formatFloat (S depth) <$> m)
    ≡ₚ (λ kv : string * string, (kv.1, Some kv.2)) <$> kvs →
  Sorted keyLe kvs →
  encodeValue formatFloat depth (Object m)
  = Some (block depth "{" "}" (member <$> kvs)).
Proof.
  intros Hperm Hsorted. cbn [encodeValue].
  set (l := map_to_list (encodeValue formatFloat (S depth) <$> m)) in *.
  set (g := λ kv : string * string, (kv.1, Some kv.2)) in *.
  set (h := λ kv : string * option string, (kv.1, default EmptyString kv.2)).
  assert (∀ l' : list (string * string), h <$> (g <$> l') = l') as Hhg.
  { intros l'. rewrite <- list_fmap_compose. rewrite <- (list_fmap_id l') at 2.
    apply list_fmap_ext. by intros i [k v] _. }
  assert (l = g <$> (h <$> l)) as Hl.
  { assert (Forall (λ kv, is_Some kv.2) l) as Hall.
    { rewrite Hperm. apply Forall_fmap, Forall_forall. intros kv _. by eexists. }
    clear -Hall. induction Hall as [|[k o] l' [v Hv] _ IH]; [done|].
    simpl in Hv. subst o. rewrite !fmap_cons. f_equal. exact IH. }
  assert (h <$> l ≡ₚ kvs) as Hkvs by (by rewrite Hperm, Hhg).
  apply members_Some in Hl. fold g in Hl. rewrite Hl. simpl. do 3 f_equal.
  apply (Sorted_unique_strong keyLe).
  - intros a b Ha Hb Hab Hba. rewrite merge_sort_Permutation in Ha.
    rewrite <- Hkvs in Hb.
    apply (NoDup_keys_eq (h <$> l)); [|done|done|].
    + rewrite <- list_fmap_compose.
      replace (fst ∘ h) with (@fst string (option string)) by done.
      apply NoDup_fst_map_to_list.
    + unfold keyLe in *. by apply (anti_symm String.le).
  - apply Sorted_merge_sort, _.
  - done.
  - by rewrite merge_sort_Permutation.
Qed.

Lemma Permutation_five {A} (a b c d e : A) : [c; b; a; e; d] ≡ₚ [a; b; c; d; e].
Proof.
  transitivity (a :: [c; b; e; d]);
    [symmetry; apply (Permutation_middle [c; b] [e; d] a)|].
  apply perm_skip. transitivity [b; c; e; d]; [apply perm_swap|].
  do 2 apply perm_skip. apply perm_swap.
Qed.

(** X7. [JSON] never takes its error branch, and the document it writes has one
    shape: the five members in the order of their keys, dependencies,
    information, placement, tooth, version, whatever the order in which the
    map is enumerated, each on a line of its own behind two spaces, the tooth
    path and the printed version as quoted strings, and a line feed after
    the closing brace. *)
Theorem JSON_layout (m : Metadata) :
  ∃ dependencies information placement,
    encodeValue strconv_formatFloat 1 (Object (encodeDependencies (Dependencies m)))
      = Some dependencies
    ∧ encodeValue strconv_formatFloat 1 (Object (encodeInformation (Information m)))
      = Some information
    ∧ encodeValue strconv_formatFloat 1 (Array (encodePlacement <$> Placement m))
      = Some placement
    ∧ JSON m = Ok ("{" ++ LF
        ++ "  " ++ quote "dependencies" ++ ": " ++ dependencies ++ "," ++ LF
        ++ "  " ++ quote "information" ++ ": " ++ information ++ "," ++ LF
        ++ "  " ++ quote "placement" ++ ": " ++ placement ++ "," ++ LF
        ++ "  " ++ quote "tooth" ++ ": " ++ quote (ToothPath m) ++ "," ++ LF
        ++ "  " ++ quote "version" ++ ": " ++ quote (versionutils_String (Version m)) ++ LF
        ++ "}" ++ LF)%string.
Proof.
  set (f := encodeValue strconv_formatFloat 1).
  assert (is_Some (f (Object (encodeDependencies (Dependencies m))))
          ∧ is_Some (f (Object (encodeInformation (Information m))))
          ∧ is_Some (f (Array (encodePlacement <$> Placement m))))
    as ([dependencies Hd] & [information Hi] & [placement Hp]).
  { split_and!.
    - apply encodeValue_Object. rewrite encodeDependencies_fmap.
      intros k v. rewrite lookup_fmap. intros Hk.
      destruct (Dependencies m !! k); simplify_eq/=. apply encodeValue_encodeOuterList.
    - apply encodeValue_Object. unfold encodeInformation.
      repeat apply map_Forall_insert_2; [by eexists..|apply map_Forall_empty].
    - apply encodeValue_Array, Forall_fmap, Forall_forall.
      intros p _. simpl. unfold encodePlacement. apply encodeValue_Object.
      repeat apply map_Forall_insert_2; [by eexists..|apply map_Forall_empty]. }
  exists dependencies, information, placement. split_and!; [done..|].
  unfold JSON, Encode.
  rewrite (encodeValue_Object_sorted _ _ _
    [("dependencies", dependencies); ("information", information);
     ("placement", placement); ("tooth", quote (ToothPath m));
     ("version", quote (versionutils_String (Version m)))]).
  - unfold block, member. cbn [fmap list_fmap fst snd String.concat indent replicate].
    f_equal. rewrite !string_app_assoc. reflexivity.
  - unfold metadataMapOf. rewrite rangeAssign_make, !fmap_insert, fmap_empty.
    fold f. rewrite Hd, Hi, Hp.
    rewrite !map_to_list_insert, map_to_list_empty;
      [|by rewrite ?lookup_insert_ne by done..].
    cbn [fmap list_fmap fst snd f encodeValue].
    apply Permutation_five.
  - repeat constructor.
Qed.

End Layout.

Section PathShape.
Import Contexts Filepath.
Context `{OS} {versions_Version : Type}.
#[local] Arguments String.append !s1 s2 / : simpl nomatch.
Local Open Scope list_scope.
Implicit Types (ctx : Context versions_Version) (fs : FS).

Lemma allEscaped_app (a b : string) :
  Url.allEscaped (a ++ b) = Url.allEscaped a && Url.allEscaped b.
Proof. induction a as [|c a IH]; simpl; [done|]. by rewrite IH, andb_assoc. Qed.

Lemma upperhex_escaped (n : Z) : Url.allEscaped (Url.upperhex n) = true.
Proof.
  unfold Url.upperhex. generalize (Z.to_nat n). intros k.
  do 16 (destruct k as [|k]; [reflexivity|]).
  cbn. by destruct k.
Qed.

Lemma allEscaped_escapeOne (c : ascii) : Url.allEscaped (Url.escapeOne c) = true.
Proof.
  unfold Url.escapeOne. destruct (Url.unreserved c) eqn:Hc.
  - simpl. unfold Url.escapedByte. by rewrite Hc.
  - destruct (byte c =? 32)%Z; [done|].
    change ("%" ++ ?s)%string with (String "%" s). cbn [Url.allEscaped].
    by rewrite allEscaped_app, !upperhex_escaped.
Qed.

Lemma allEscaped_QueryEscape (s : string) : Url.allEscaped (Url.QueryEscape s) = true.
Proof.
  induction s as [|c s IH]; simpl; [done|].
  by rewrite allEscaped_app, allEscaped_escapeOne, IH.
Qed.

Lemma concat_snoc (sep : string) (elems : list string) (elem : string) :
  elems ≠ [] →
  String.concat sep (elems ++ [elem])
  = (String.concat sep elems ++ sep ++ elem)%string.
Proof.
  induction elems as [|first elems IH]; [done|]. intros _.
  destruct elems as [|next more]; [done|].
  change (String.concat sep ((first :: next :: more) ++ [elem]))
    with (first ++ sep ++ String.concat sep ((next :: more) ++ [elem]))%string.
  rewrite IH by done.
  change (String.concat sep (first :: next :: more))
    with (first ++ sep ++ String.concat sep (next :: more))%string.
  by rewrite !string_app_assoc.
Qed.

(** A name pushed on a stack that is not empty is written behind one
    separator. *)
Lemma render_push rooted (name top : string) (out : list string) :
  cleanForm rooted (top :: out) = true →
  render rooted (name :: top :: out)
  = (render rooted (top :: out) ++ "/" ++ name)%string.
Proof.
  intros Hform. destruct (body_nonempty _ _ Hform) as (c & rest & Hbody & _); [done|].
  unfold render.
  change (rev (name :: top :: out)) with (rev (top :: out) ++ [name]).
  rewrite concat_snoc.
  2:{ intros Hrev. apply (f_equal (@length _)) in Hrev. by rewrite length_rev in Hrev. }
  rewrite Hbody. by destruct rooted.
Qed.

Lemma QueryEscape_special (url : string) :
  Url.QueryEscape url ∈ [EmptyString; "."; ".."] → url ∈ [EmptyString; "."; ".."].
Proof.
  rewrite !elem_of_cons, !elem_of_nil. intros [Hurl|[Hurl|[Hurl|[]]]].
  - left. by apply (Url_QueryEscape_inj url EmptyString).
  - right. left. by apply (Url_QueryEscape_inj url ".").
  - right. right. left. by apply (Url_QueryEscape_inj url "..").
Qed.

(** X9. Where the file of a URL lies.  Its name is the escaped URL: letters,
    digits, the marks [-_.~], the percent and the plus sign, and no
    separator.  For every URL but the empty one, [.] and [..] the path is
    that name directly inside the cache directory.  For the empty URL and
    for [.] it is the cache directory itself, and for [..] it is the
    directory above the cache: the global directory, cleaned. *)
Theorem CalculateCachePath_shape ctx (fileURL : string) fs fs' (path : string) :
  CalculateCachePath ctx fileURL fs = (fs', inl path) →
  ∃ cacheDir, CacheDir ctx fs = (fs', inl cacheDir)
    ∧ Url.allEscaped (Url.QueryEscape fileURL) = true
    ∧ noSeparator (Url.QueryEscape fileURL) = true
    ∧ (fileURL ∉ [EmptyString; "."; ".."] →
         path = (cacheDir ++ "/" ++ Url.QueryEscape fileURL)%string)
    ∧ (fileURL ∈ [EmptyString; "."] → path = cacheDir)
    ∧ (fileURL = ".." → path = Clean (globalDotLipDir ctx)).
Proof.
  intros Hpath. pose proof (CalculateCachePath_Ok _ _ _ _ _ Hpath) as ->.
  unfold CalculateCachePath in Hpath.
  destruct (CacheDir ctx fs) as [fs1 [cacheDir|err]] eqn:Hdir; [|done].
  injection Hpath as -> Hjoin.
  apply (runDirOp_Ok OpCacheDir) in Hdir as Htarget. destruct Htarget as [-> _].
  change (targetOf OpCacheDir ctx) with (Join (globalDotLipDir ctx) "cache") in *.
  exists (Join (globalDotLipDir ctx) "cache").
  split; [done|]. split; [apply allEscaped_QueryEscape|].
  split; [apply noSeparator_QueryEscape|].
  rewrite (Join_name (globalDotLipDir ctx) "cache") by (done || by right).
  rewrite (cleanStep_plain _ _ "cache") by done.
  set (rooted := isRooted (globalDotLipDir ctx)).
  set (stack := cleanStack (globalDotLipDir ctx)).
  assert (cleanForm rooted ("cache" :: stack) = true) as Hform.
  { cbn [cleanForm]. unfold rooted, stack. by rewrite cleanStack_cleanForm. }
  split_and!.
  - intros Hurl. rewrite Join_render by (done || apply noSeparator_QueryEscape).
    destruct (elem_cases _ (noSeparator_QueryEscape fileURL)) as [He|[He|[He|Hplain]]].
    + exfalso. apply Hurl, QueryEscape_special. rewrite He.
      rewrite !elem_of_cons. tauto.
    + exfalso. apply Hurl, QueryEscape_special. rewrite He.
      rewrite !elem_of_cons. tauto.
    + exfalso. apply Hurl, QueryEscape_special. rewrite He.
      rewrite !elem_of_cons. tauto.
    + rewrite (cleanStep_plain _ _ _ Hplain). by apply render_push.
  - intros [->|Hurl]%elem_of_cons; [|apply list_elem_of_singleton in Hurl as ->].
    + by rewrite Join_render.
    + by rewrite Join_render.
  - intros ->. rewrite Join_render by done.
    change (Url.QueryEscape "..") with "..".
    assert (cleanStep rooted ("cache" :: stack) ".." = stack) as -> by done.
    unfold Clean, rooted, stack, cleanStack.
    destruct (String.eqb_spec (globalDotLipDir ctx) EmptyString) as [->|Hne]; done.
Qed.

(** X10. Where the metadata of a tooth lies: directly inside the metadata
    directory, under the escaped tooth path followed by [.json], whatever the
    tooth path is. *)
Theorem CalculateMetadataPath_shape ctx (toothRepo : string) fs fs' (path : string) :
  CalculateMetadataPath ctx toothRepo fs = (fs', inl path) →
  ∃ metadataDir, MetadataDir ctx fs = (fs', inl metadataDir)
    ∧ path = (metadataDir ++ "/" ++ Url.QueryEscape toothRepo ++ ".json")%string
    ∧ Url.allEscaped (Url.QueryEscape toothRepo) = true
    ∧ noSeparator (Url.QueryEscape toothRepo) = true.
Proof.
  intros Hpath. pose proof (CalculateMetadataPath_Ok _ _ _ _ _ Hpath) as ->.
  unfold CalculateMetadataPath in Hpath.
  destruct (MetadataDir ctx fs) as [fs1 [metadataDir|err]] eqn:Hdir; [|done].
  injection Hpath as -> Hjoin.
  apply (runDirOp_Ok OpMetadataDir) in Hdir as Htarget. destruct Htarget as [-> _].
  change (targetOf OpMetadataDir ctx)
    with (Join (Join (workspaceDir ctx) ".lip") "metadata") in *.
  exists (Join (Join (workspaceDir ctx) ".lip") "metadata").
  split; [done|].
  split; [|split; [apply allEscaped_QueryEscape | apply noSeparator_QueryEscape]].
  rewrite (Join_name (workspaceDir ctx) ".lip") by (done || by right).
  rewrite (cleanStep_plain _ _ ".lip") by done.
  set (rooted := isRooted (workspaceDir ctx)).
  set (stack := cleanStack (workspaceDir ctx)).
  assert (cleanForm rooted (".lip" :: stack) = true) as Hform.
  { cbn [cleanForm]. unfold rooted, stack. by rewrite cleanStack_cleanForm. }
  rewrite (Join_render _ _ "metadata") by done.
  rewrite (cleanStep_plain _ _ "metadata") by done.
  assert (cleanForm rooted ("metadata" :: ".lip" :: stack) = true) as Hform'.
  { change (cleanForm rooted ("metadata" :: ".lip" :: stack))
      with (true && cleanForm rooted (".lip" :: stack)). by rewrite Hform. }
  pose proof (json_name_plain toothRepo) as Hplain.
  rewrite Join_render by (done || by apply plainElem_inv in Hplain as [? _]).
  rewrite (cleanStep_plain _ _ _ Hplain). by apply render_push.
Qed.

End PathShape.

Section GetterFailures.
Import Contexts.
Context `{OS} {versions_Version : Type}.
Local Open Scope list_scope.
Implicit Types (ctx : Context versions_Version) (op : DirOp) (fs : FS) (dir : string).

Lemma createDirIfNotExist_Some dir fs fs' msg :
  createDirIfNotExist dir fs = (fs', Some msg) → failedOn dir fs fs' msg.
Proof.
  unfold createDirIfNotExist, failedOn. destruct (Stat dir fs) as [info|e]; [done|].
  destruct (IsNotExist e) eqn:He.
  - destruct (MkdirAll dir fs) as [fs'' [e'|]] eqn:Hmk; [|done].
    intros [= -> <-]. exists e. split; [done|]. right. eauto.
  - intros [= -> <-]. exists e. split; [done|]. by left.
Qed.

Lemma suffix_step (prefix rest detail : string) :
  (∃ context, rest = (context ++ detail)%string) →
  ∃ context, (prefix ++ rest)%string = (context ++ detail)%string.
Proof. intros [context ->]. exists (prefix ++ context)%string. by rewrite string_app_assoc. Qed.

(** X11. A getter that fails stops at the first directory of its chain that
    cannot be had: the directories before it were dealt with, those after it
    are not looked at, and the message ends with what went wrong, a failed
    [Stat] or a failed [MkdirAll], and the text of the error of the operating
    system. *)
Theorem directory_getter_error_text ctx op fs fs' (msg : string) :
  runDirOp op ctx fs = (fs', inr msg) →
  ∃ before dir after fs0 detail,
    dirChain op ctx = before ++ dir :: after
    ∧ ensureDirs before fs = (fs0, None)
    ∧ failedOn dir fs0 fs' detail
    ∧ ∃ context, msg = (context ++ detail)%string.
Proof.
  destruct op; simpl;
    unfold CacheDir, MetadataDir, PluginDir, WorkspaceDotLipDir, WorkspaceDir,
      GlobalDotLipDir;
    repeat match goal with
    | |- context [createDirIfNotExist ?d ?s] =>
      let fs1 := fresh "fs" in
      let Hd := fresh "Hd" in
      destruct (createDirIfNotExist d s) as [fs1 [?|]] eqn:Hd; simpl
    end;
    intros [= <- <-];
    match goal with
    | Hd : createDirIfNotExist ?d ?s = (_, Some ?detail) |- _ =>
      apply createDirIfNotExist_Some in Hd;
      let finish :=
        (split_and!;
         [ reflexivity
         | simpl;
           repeat match goal with
           | Hx : createDirIfNotExist _ _ = _ |- _ => rewrite Hx; clear Hx
           end; reflexivity
         | exact Hd
         | repeat apply suffix_step; by exists EmptyString ]) in
      first [ exists [], d; eexists _, s, detail; finish
            | eexists [_], d, _, s, detail; finish
            | eexists [_; _], d, _, s, detail; finish ]
    end.
Qed.

End GetterFailures.

Section GetterFrame.
Import Contexts.
Context `{OS} {versions_Version : Type}.
Local Open Scope list_scope.
Implicit Types (ctx : Context versions_Version) (op : DirOp) (fs : FS) (dir : string).

Lemma createDirIfNotExist_frame dir fs :
  ((createDirIfNotExist dir fs).1 = fs ∧ (exists_ dir fs ∨ is_Some (createDirIfNotExist dir fs).2))
  ∨ ((createDirIfNotExist dir fs).1 = (MkdirAll dir fs).1 ∧ ¬ exists_ dir fs).
Proof.
  unfold createDirIfNotExist, exists_. destruct (Stat dir fs) as [info|e]; simpl.
  { left. eauto. }
  destruct (IsNotExist e).
  - right. split; [by destruct (MkdirAll dir fs) as [fs' [e'|]] | by intros [? ?]].
  - left. split; [done|]. right. by eexists.
Qed.

Lemma ensureDirs_frame (dirs : list string) : ∀ fs,
  ∃ created, sublist created dirs ∧ (ensureDirs dirs fs).1 = mkdirs created fs
    ∧ (Forall (λ dir, exists_ dir fs) dirs → created = []).
Proof.
  induction dirs as [|dir dirs IH]; intros fs; simpl.
  { exists []. done. }
  destruct (createDirIfNotExist_frame dir fs) as [[Hfs Hwhy]|[Hfs Hnew]];
    destruct (createDirIfNotExist dir fs) as [fs1 [err|]] eqn:Hdir; simpl in *; subst fs1.
  - exists []. split_and!; [apply sublist_nil_l | done | done].
  - destruct (IH fs) as (created & Hsub & Hcreated & Hnone).
    exists created. split_and!; [by apply sublist_cons | done |].
    intros Hall. apply Forall_cons in Hall as [_ Hall]. auto.
  - exists [dir]. split_and!; [apply sublist_skip, sublist_nil_l | done |].
    intros Hall. apply Forall_cons in Hall as [Hdir' _]. done.
  - destruct (IH (MkdirAll dir fs).1) as (created & Hsub & Hcreated & _).
    exists (dir :: created). split_and!; [by apply sublist_skip | done |].
    intros Hall. apply Forall_cons in Hall as [Hdir' _]. done.
Qed.

(** X12. A getter changes the disk through [os.MkdirAll] only, called on
    directories of its chain, each at most once and in the order of the
    chain, whether the getter succeeds or fails; when every directory of the
    chain exists it is not called at all. *)
Theorem directory_getter_frame ctx op fs fs' (outcome : string + string) :
  runDirOp op ctx fs = (fs', outcome) →
  ∃ created, sublist created (dirChain op ctx) ∧ fs' = mkdirs created fs
    ∧ (Forall (λ dir, exists_ dir fs) (dirChain op ctx) → created = []).
Proof.
  intros Hrun. pose proof (runDirOp_ensureDirs op ctx fs) as Hspec.
  destruct (ensureDirs_frame (dirChain op ctx) fs) as (created & Hsub & Hfs & Hnone).
  exists created. split_and!; [done | | done]. rewrite <- Hfs.
  destruct (ensureDirs (dirChain op ctx) fs) as [fs1 [err|]]; simpl.
  - destruct Hspec as [msg Hmsg]. congruence.
  - congruence.
Qed.

End GetterFrame.

Section FurtherExamples.
Import Json Toothmetadata Contexts.
Local Open Scope list_scope.

(** The sample manifest describes the metadata it decodes to. *)
Lemma NewFromJSON_Ok_iff_describes_witness :
  describes (H := Sample.imports) (Sample.parsed Sample.manifest) Sample.manifestMetadata.
Proof.
  apply (proj1 (NewFromJSON_Ok_iff_describes (H := Sample.imports) Sample.manifest
                  (Sample.parsed Sample.manifest) Sample.manifestMetadata eq_refl)).
  reflexivity.
Defined.

(** A version match that does not parse: the error carries the text of the
    parser. *)
Lemma NewFromJSON_Err_catalogue_witness :
  ∃ detail,
    "failed to decode JSON into metadata: invalid version match: latest"
    = ("failed to decode JSON into metadata: " ++ detail)%string
    ∧ (json_Unmarshal (Imports := Sample.imports) Sample.manifestWithBadMatch = inr detail
       ∨ (∃ metadataMap,
            json_Unmarshal (Imports := Sample.imports) Sample.manifestWithBadMatch
            = inl metadataMap)
         ∧ decodeErrorDetail (H := Sample.imports) detail).
Proof.
  apply (NewFromJSON_Err_catalogue (H := Sample.imports) Sample.manifestWithBadMatch).
  reflexivity.
Defined.

(** The sample manifest with a format version and a list of commands
    decodes to the metadata of the sample manifest. *)
Lemma NewFromJSON_ignores_unknown_keys_witness :
  Sample.parsed Sample.manifestWithExtraKeys !! "commands" = Some (Array [])
  ∧ Sample.parsed Sample.manifest !! "commands" = None
  ∧ NewFromJSON (H := Sample.imports) Sample.manifestWithExtraKeys
    = Ok Sample.manifestMetadata.
Proof.
  split; [reflexivity|]. split; [reflexivity|].
  pose proof (NewFromJSON_ignores_unknown_keys (H := Sample.imports) Sample.manifest
                Sample.manifestWithExtraKeys (Sample.parsed Sample.manifest)
                (Sample.parsed Sample.manifestWithExtraKeys)) as Hsame.
  apply Hsame.
  - reflexivity.
  - reflexivity.
  - unfold topLevelFields. intros field Hfield.
    repeat (apply elem_of_cons in Hfield as [->|Hfield]);
      [| | | | | by apply elem_of_nil in Hfield]; vm_compute; reflexivity.
  - reflexivity.
Defined.

(** The second placement of the sample has a destination with a space: it
    is the one reported, and the third entry, a number, is never reached. *)
Lemma NewFromJSON_reports_first_bad_placement_witness :
  NewFromJSON (H := Sample.imports) Sample.manifestWithBadPlacement
  = Err "failed to decode JSON into metadata: invalid destination: my file.txt"
  ∧ decodePlacement Sample.seventeen = Panic.
Proof.
  split; [|reflexivity].
  apply (NewFromJSON_reports_first_bad_placement (H := Sample.imports)
           Sample.manifestWithBadPlacement (Sample.parsed Sample.manifestWithBadPlacement)
           [Sample.placementOf "a.txt" "b.txt"] (Sample.placementOf "c.txt" "my file.txt")
           [Sample.seventeen]).
  - reflexivity.
  - exists "com.example/pkg". split; reflexivity.
  - exists "1.2.3", (Sample.version 1 2 3). split; reflexivity.
  - exists ∅, ∅. split; reflexivity.
  - exists (Sample.objectAt (Sample.parsed Sample.manifestWithBadPlacement) "information").
    split; [reflexivity|]. unfold informationFields. intros field Hfield.
    repeat (apply elem_of_cons in Hfield as [->|Hfield]);
      [| | | | | by apply elem_of_nil in Hfield]; eexists; reflexivity.
  - reflexivity.
  - repeat constructor. eexists. reflexivity.
  - reflexivity.
Defined.

(** The manifest with an empty source has the types the decoder asserts. *)
Lemma NewFromJSON_typed_document_no_panic_witness :
  NewFromJSON (H := Sample.imports) Sample.manifestWithEmptySource ≠ Panic.
Proof.
  apply (NewFromJSON_typed_document_no_panic (H := Sample.imports)
           Sample.manifestWithEmptySource (Sample.parsed Sample.manifestWithEmptySource)).
  - reflexivity.
  - split_and!.
    + eexists. reflexivity.
    + eexists. reflexivity.
    + exists ∅. split; [reflexivity | apply map_Forall_empty].
    + exists (Sample.objectAt (Sample.parsed Sample.manifestWithEmptySource) "information").
      split; [reflexivity|]. unfold informationFields. intros field Hfield.
      repeat (apply elem_of_cons in Hfield as [->|Hfield]);
        [| | | | | by apply elem_of_nil in Hfield]; eexists; reflexivity.
    + exists [Sample.placementOf EmptyString "plugins/file.txt"].
      split; [reflexivity|]. repeat constructor.
      eexists. split; [reflexivity|]. split; eexists; reflexivity.
Defined.

(** A metadata built by hand with a tooth path that is not valid: its
    document is written, and reading it back gives an error, not a panic. *)
Lemma NewFromJSON_JSON_never_panics_witness :
  @tooth_IsValidToothPath Sample.imports (ToothPath Sample.unvalidatedMetadata) = false
  ∧ ∃ bytes, JSON Sample.unvalidatedMetadata = Ok bytes
      ∧ NewFromJSON (H := Sample.imports) bytes ≠ Panic.
Proof.
  split; [reflexivity|].
  apply (NewFromJSON_JSON_never_panics (H := Sample.imports) Sample.unvalidatedMetadata).
  intros bytes Hbytes. vm_compute in Hbytes. injection Hbytes as <-.
  vm_compute. reflexivity.
Defined.

(** The tokens of the manifest with an empty source. *)
Lemma placement_tokens_checked_witness :
  Forall (λ p, (Source p = EmptyString ∨ Regexp.matches (Source p) = true)
             ∧ (Destination p = EmptyString ∨ Regexp.matches (Destination p) = true))
    [{| Source := EmptyString; Destination := "plugins/file.txt" |}].
Proof.
  apply (placement_tokens_checked (H := Sample.imports) Sample.manifestWithEmptySource
           (@Build_Metadata Sample.imports "com.example/pkg" (Sample.version 1 2 3) ∅
              {| Name := "Example"; Description := "An example"; Author := "someone";
                 License := "MIT"; Homepage := "none" |}
              [{| Source := EmptyString; Destination := "plugins/file.txt" |}])).
  reflexivity.
Defined.

(** The file of a download in the sample cache. *)
Lemma CalculateCachePath_shape_witness :
  ∃ cacheDir, CacheDir (H := Sample.os) Sample.context ∅ = (Sample.cacheDisk, inl cacheDir)
    ∧ Url.allEscaped (Url.QueryEscape "https://example.com/x.zip") = true
    ∧ Filepath.noSeparator (Url.QueryEscape "https://example.com/x.zip") = true
    ∧ ("https://example.com/x.zip" ∉ [EmptyString; "."; ".."] →
         "/home/user/.lip/cache/https%3A%2F%2Fexample.com%2Fx.zip"
         = (cacheDir ++ "/" ++ Url.QueryEscape "https://example.com/x.zip")%string)
    ∧ ("https://example.com/x.zip" ∈ [EmptyString; "."] →
         "/home/user/.lip/cache/https%3A%2F%2Fexample.com%2Fx.zip" = cacheDir)
    ∧ ("https://example.com/x.zip" = ".." →
         "/home/user/.lip/cache/https%3A%2F%2Fexample.com%2Fx.zip"
         = Filepath.Clean (globalDotLipDir Sample.context)).
Proof.
  apply (CalculateCachePath_shape (H := Sample.os) Sample.context
           "https://example.com/x.zip" ∅ Sample.cacheDisk
           "/home/user/.lip/cache/https%3A%2F%2Fexample.com%2Fx.zip").
  vm_compute. reflexivity.
Defined.

(** The metadata file of a tooth in the sample workspace. *)
Lemma CalculateMetadataPath_shape_witness :
  ∃ metadataDir,
    MetadataDir (H := Sample.os) Sample.context ∅ = (Sample.workDisk, inl metadataDir)
    ∧ "/work/.lip/metadata/github.com%2Fowner%2Frepo.json"
      = (metadataDir ++ "/" ++ Url.QueryEscape "github.com/owner/repo" ++ ".json")%string
    ∧ Url.allEscaped (Url.QueryEscape "github.com/owner/repo") = true
    ∧ Filepath.noSeparator (Url.QueryEscape "github.com/owner/repo") = true.
Proof.
  apply (CalculateMetadataPath_shape (H := Sample.os) Sample.context
           "github.com/owner/repo" ∅ Sample.workDisk
           "/work/.lip/metadata/github.com%2Fowner%2Frepo.json").
  vm_compute. reflexivity.
Defined.

(** A regular file where the workspace goes: the workspace itself is taken
    as it is, and the getter fails on the directory below it. *)
Lemma directory_getter_error_text_witness :
  ∃ before dir after fs0 detail,
    dirChain OpMetadataDir Sample.context = before ++ dir :: after
    ∧ ensureDirs (H := Sample.os) before (Sample.fileAt "/work") = (fs0, None)
    ∧ failedOn (H := Sample.os) dir fs0 (Sample.fileAt "/work") detail
    ∧ ∃ context,
        "cannot get workspace .lip directory: cannot create workspace .lip directory: cannot get directory info: not a directory"
        = (context ++ detail)%string.
Proof.
  apply (directory_getter_error_text (H := Sample.os) Sample.context OpMetadataDir
           (Sample.fileAt "/work") (Sample.fileAt "/work")).
  vm_compute. reflexivity.
Defined.

(** [MetadataDir] on an empty disk. *)
Lemma directory_getter_frame_witness :
  ∃ created, sublist created (dirChain OpMetadataDir Sample.context)
    ∧ Sample.workDisk = mkdirs (H := Sample.os) created ∅
    ∧ (Forall (λ dir, exists_ (H := Sample.os) dir ∅) (dirChain OpMetadataDir Sample.context)
       → created = []).
Proof.
  apply (directory_getter_frame (H := Sample.os) Sample.context OpMetadataDir
           ∅ Sample.workDisk (inl "/work/.lip/metadata")).
  vm_compute. reflexivity.
Defined.

End FurtherExamples.

(** * The reader and the encoder

    The reader of [Sample] gives back, for the text the encoder writes for a
    value, that value: string by string, then arrays and objects. *)

Section ReaderStrings.
Import Json.
#[local] Arguments String.append !s1 s2 / : simpl nomatch.
Local Open Scope Z_scope.

Lemma byte_range (c : ascii) : 0 <= byte c < 256.
Proof. unfold byte. pose proof (nat_ascii_bounded c). lia. Qed.

Lemma chr_byte (c : ascii) : chr (byte c) = c.
Proof. unfold chr, byte. by rewrite Nat2Z.id, ascii_nat_embedding. Qed.

Lemma byte_inj (c : ascii) (n : Z) : byte c = n → c = chr n.
Proof. intros <-. by rewrite chr_byte. Qed.

Lemma lor_shiftl_add (a y n : Z) :
  0 <= n → 0 <= y < 2 ^ n → Z.lor (Z.shiftl a n) y = a * 2 ^ n + y.
Proof.
  intros Hn Hy. rewrite Z.shiftl_mul_pow2 by lia. symmetry.
  apply Z.add_nocarry_lor, Z.bits_inj'. intros i Hi.
  rewrite Z.land_spec, Z.bits_0. destruct (Z.lt_ge_cases i n).
  - by rewrite Z.mul_pow2_bits_low by lia.
  - rewrite <- (Z.mod_small y (2 ^ n)) by lia.
    rewrite Z.mod_pow2_bits_high by lia. apply andb_false_r.
Qed.

Lemma lor_shiftl_6 (a y : Z) : 0 <= y < 64 → Z.lor (Z.shiftl a 6) y = a * 64 + y.
Proof. intros Hy. by rewrite lor_shiftl_add. Qed.
Lemma lor_shiftl_12 (a y : Z) : 0 <= y < 4096 → Z.lor (Z.shiftl a 12) y = a * 4096 + y.
Proof. intros Hy. by rewrite lor_shiftl_add. Qed.
Lemma lor_shiftl_18 (a y : Z) : 0 <= y < 262144 → Z.lor (Z.shiftl a 18) y = a * 262144 + y.
Proof. intros Hy. by rewrite lor_shiftl_add. Qed.

Lemma land_63 (b : Z) : Z.land b 63 = b mod 64.
Proof. exact (Z.land_ones b 6 ltac:(done)). Qed.
Lemma land_31 (b : Z) : Z.land b 31 = b mod 32.
Proof. exact (Z.land_ones b 5 ltac:(done)). Qed.
Lemma land_15 (b : Z) : Z.land b 15 = b mod 16.
Proof. exact (Z.land_ones b 4 ltac:(done)). Qed.
Lemma land_7 (b : Z) : Z.land b 7 = b mod 8.
Proof. exact (Z.land_ones b 3 ltac:(done)). Qed.

(** The value of a rune in terms of its bytes. *)
Lemma rune2 (s0 c1 : Z) :
  Z.lor (Z.shiftl (Z.land s0 31) 6) (Z.land c1 63) = (s0 mod 32) * 64 + c1 mod 64.
Proof.
  rewrite land_31, land_63. apply lor_shiftl_6, Z.mod_pos_bound. done.
Qed.

Lemma rune3 (s0 c1 c2 : Z) :
  Z.lor (Z.shiftl (Z.land s0 15) 12) (Z.lor (Z.shiftl (Z.land c1 63) 6) (Z.land c2 63))
  = (s0 mod 16) * 4096 + (c1 mod 64) * 64 + c2 mod 64.
Proof.
  rewrite land_15, !land_63.
  pose proof (Z.mod_pos_bound c1 64 eq_refl). pose proof (Z.mod_pos_bound c2 64 eq_refl).
  rewrite lor_shiftl_6 by done. rewrite lor_shiftl_12 by lia. lia.
Qed.

Lemma rune4 (s0 c1 c2 c3 : Z) :
  Z.lor (Z.shiftl (Z.land s0 7) 18)
    (Z.lor (Z.shiftl (Z.land c1 63) 12)
       (Z.lor (Z.shiftl (Z.land c2 63) 6) (Z.land c3 63)))
  = (s0 mod 8) * 262144 + (c1 mod 64) * 4096 + (c2 mod 64) * 64 + c3 mod 64.
Proof.
  rewrite land_7, !land_63.
  pose proof (Z.mod_pos_bound c1 64 eq_refl). pose proof (Z.mod_pos_bound c2 64 eq_refl).
  pose proof (Z.mod_pos_bound c3 64 eq_refl).
  rewrite lor_shiftl_6 by done. rewrite lor_shiftl_12 by lia.
  rewrite lor_shiftl_18 by lia. lia.
Qed.

End ReaderStrings.

Section ReaderRunes.
Import Json.
#[local] Arguments String.append !s1 s2 / : simpl nomatch.
Local Open Scope Z_scope.

Lemma between_true (lo hi x : Z) : between lo hi x = true ↔ (lo ≤ x ∧ x ≤ hi)%Z.
Proof. unfold between. rewrite andb_true_iff, !Z.leb_le. tauto. Qed.

(** What [decodeRune] reads at a byte that is not ASCII: an encoding error,
    or a rune of two, three or four bytes, which are the only bytes it
    looks at. *)
Lemma decodeRune_cases (c : ascii) (rest : string) :
  128 <= byte c →
  (decodeRune (String c rest) = (RuneError, 1%nat))
  ∨ (∃ c1 rest', rest = String c1 rest'
       ∧ 194 <= byte c <= 223 ∧ 128 <= byte c1 <= 191
       ∧ ∀ tail, decodeRune (String c (String c1 tail))
                 = ((byte c mod 32) * 64 + byte c1 mod 64, 2%nat))
  ∨ (∃ c1 c2 rest', rest = String c1 (String c2 rest')
       ∧ 224 <= byte c <= 239 ∧ 128 <= byte c1 <= 191 ∧ 128 <= byte c2 <= 191
       ∧ ∀ tail, decodeRune (String c (String c1 (String c2 tail)))
                 = ((byte c mod 16) * 4096 + (byte c1 mod 64) * 64 + byte c2 mod 64, 3%nat))
  ∨ (∃ c1 c2 c3 rest', rest = String c1 (String c2 (String c3 rest'))
       ∧ 240 <= byte c <= 244 ∧ 128 <= byte c1 <= 191 ∧ 128 <= byte c2 <= 191
       ∧ 128 <= byte c3 <= 191 ∧ (byte c = 240 → 144 <= byte c1)
       ∧ ∀ tail, decodeRune (String c (String c1 (String c2 (String c3 tail))))
                 = ((byte c mod 8) * 262144 + (byte c1 mod 64) * 4096
                    + (byte c2 mod 64) * 64 + byte c3 mod 64, 4%nat)).
Proof.
  intros Hc. unfold decodeRune.
  assert ((byte c <? 128) = false) as -> by (apply Z.ltb_ge; lia).
  destruct (between 194 223 (byte c)) eqn:H2.
  { pose proof (proj1 (between_true _ _ _) H2).
    destruct rest as [|c1 rest']; [by left|].
    destruct (between 128 191 (byte c1)) eqn:Hc1; [|by left].
    pose proof (proj1 (between_true _ _ _) Hc1).
    right. left. exists c1, rest'.
    split_and!; try done; try lia. intros tail. by rewrite Hc1, rune2. }
  destruct (between 224 239 (byte c)) eqn:H3.
  { pose proof (proj1 (between_true _ _ _) H3).
    destruct rest as [|c1 [|c2 rest']]; [by left..|].
    destruct (between _ _ (byte c1) && between 128 191 (byte c2)) eqn:Hcs; [|by left].
    pose proof Hcs as [Hc1%between_true Hc2%between_true]%andb_true_iff.
    right. right. left. exists c1, c2, rest'.
    assert (128 <= byte c1 <= 191) as Hc1'.
    { destruct (byte c =? 224), (byte c =? 237); lia. }
    split_and!; try done; try lia. intros tail. by rewrite Hcs, rune3. }
  destruct (between 240 244 (byte c)) eqn:H4; [|by left].
  pose proof (proj1 (between_true _ _ _) H4).
  destruct rest as [|c1 [|c2 [|c3 rest']]]; [by left..|].
  destruct (between _ _ (byte c1) && between 128 191 (byte c2) && between 128 191 (byte c3))
    eqn:Hcs; [|by left].
  pose proof Hcs as [[Hc1%between_true Hc2%between_true]%andb_true_iff
                       Hc3%between_true]%andb_true_iff.
  right. right. right. exists c1, c2, c3, rest'.
  assert (128 <= byte c1 <= 191 ∧ (byte c = 240 → 144 <= byte c1)) as [Hc1' Hlow].
  { destruct (Z.eqb_spec (byte c) 240), (byte c =? 244); lia. }
  split_and!; try done; try lia. intros tail. by rewrite Hcs, rune4.
Qed.

End ReaderRunes.

Section ReaderQuote.
Import Json.
#[local] Arguments String.append !s1 s2 / : simpl nomatch.
Local Open Scope Z_scope.

Lemma appendString_keep (keep : bool) (s : string) :
  appendString 0 keep s = appendString 0 true s.
Proof. by destruct s. Qed.

Lemma unquote_keep (keep : bool) (s : string) :
  Sample.unquote 0 keep s = Sample.unquote 0 true s.
Proof. by destruct s. Qed.

Lemma appendString_ascii (keep : bool) (c : ascii) (rest : string) :
  byte c < 128 →
  appendString 0 keep (String c rest)
  = ((if safeByte c then String c EmptyString else escapeByte c)
     ++ appendString 0 true rest)%string.
Proof. intros Hc%Z.ltb_lt. cbn [appendString]. by rewrite Hc. Qed.

Lemma appendString_rune (keep : bool) (c : ascii) (rest : string) (r : Z) (size : nat) :
  128 <= byte c → decodeRune (String c rest) = (r, size) →
  appendString 0 keep (String c rest)
  = (if (r =? RuneError)%Z && (size =? 1)%nat then
       BACKSLASH ++ "ufffd" ++ appendString 0 true rest
     else if (r =? 8232)%Z || (r =? 8233)%Z then
       BACKSLASH ++ "u202" ++ hex (Z.land r 15) ++ appendString (size - 1) false rest
     else String c EmptyString ++ appendString (size - 1) true rest)%string.
Proof.
  intros Hc%Z.ltb_ge Hrune. cbn [appendString]. by rewrite Hc, Hrune.
Qed.

Lemma unquote_ascii (keep : bool) (c : ascii) (rest : string) :
  32 <= byte c < 128 → byte c ≠ 34 → byte c ≠ 92 →
  Sample.unquote 0 keep (String c rest)
  = '(text, tail) ← Sample.unquote 0 true rest; Some (String c text, tail).
Proof.
  intros [Hlo%Z.ltb_ge Hhi%Z.ltb_lt] H34%Z.eqb_neq H92%Z.eqb_neq.
  cbn [Sample.unquote]. by rewrite H34, H92, Hlo, Hhi.
Qed.

Lemma unquote_rune (keep : bool) (c : ascii) (rest : string) (r : Z) (size : nat) :
  128 <= byte c → decodeRune (String c rest) = (r, size) →
  (r =? RuneError) && (size =? 1)%nat = false →
  Sample.unquote 0 keep (String c rest)
  = '(text, tail) ← Sample.unquote (size - 1) true rest; Some (String c text, tail).
Proof.
  intros Hc Hrune Hvalid. cbn [Sample.unquote].
  assert ((byte c =? 34) = false) as -> by (apply Z.eqb_neq; lia).
  assert ((byte c =? 92) = false) as -> by (apply Z.eqb_neq; lia).
  assert ((byte c <? 32) = false) as -> by (apply Z.ltb_ge; lia).
  assert ((byte c <? 128) = false) as -> by (apply Z.ltb_ge; lia).
  by rewrite Hrune, Hvalid.
Qed.

End ReaderQuote.

Section ReaderEscapes.
Import Json.
#[local] Arguments String.append !s1 s2 / : simpl nomatch.
Local Open Scope Z_scope.

Lemma safeByte_false (c : ascii) :
  byte c < 128 → safeByte c = false → byte c < 32 ∨ byte c = 34 ∨ byte c = 92.
Proof.
  unfold safeByte. intros Hc Hsafe.
  destruct (Z.leb_spec 32 (byte c)); [|lia].
  destruct (Z.ltb_spec (byte c) 128); [|lia].
  destruct (Z.eqb_spec (byte c) 34); [lia|].
  destruct (Z.eqb_spec (byte c) 92); [lia|]. done.
Qed.

Lemma unquote_backslash (keep : bool) (c : ascii) (rest : string) :
  byte c = 92 →
  Sample.unquote 0 keep (String c rest)
  = '(decoded, used) ← Sample.unescape rest;
    '(text, tail) ← Sample.unquote used false rest;
    Some ((decoded ++ text)%string, tail).
Proof. intros Hc. cbn [Sample.unquote]. by rewrite Hc. Qed.

Lemma unquote_skip (body rest : string) :
  Sample.unquote (String.length body) false (body ++ rest) = Sample.unquote 0 false rest.
Proof.
  induction body as [|c body IH]; [done|].
  cbn [String.length String.append Sample.unquote]. rewrite IH.
  by destruct (Sample.unquote 0 false rest) as [[text tail]|].
Qed.

Lemma unquote_escape_body (c : ascii) (body rest : string) :
  (∀ tail, Sample.unescape (body ++ tail) = Some (String c EmptyString, String.length body)) →
  Sample.unquote 0 true (String (chr 92) (body ++ rest))
  = '(text, tail) ← Sample.unquote 0 true rest; Some (String c text, tail).
Proof.
  intros Hbody. rewrite unquote_backslash by done. rewrite Hbody.
  cbn [mbind option_bind]. rewrite unquote_skip, unquote_keep.
  by destruct (Sample.unquote 0 true rest) as [[text tail]|].
Qed.

(** The reader undoes each escape the encoder writes for an ASCII byte. *)
Lemma unquote_escapeByte (c : ascii) (rest : string) :
  byte c < 128 → safeByte c = false →
  Sample.unquote 0 true (escapeByte c ++ rest)
  = '(text, tail) ← Sample.unquote 0 true rest; Some (String c text, tail).
Proof.
  intros Hc Hsafe.
  pose proof (byte_range c) as Hrange.
  assert (byte c = 0 ∨ byte c = 1 ∨ byte c = 2 ∨ byte c = 3 ∨ byte c = 4 ∨ byte c = 5 ∨ byte c = 6 ∨ byte c = 7 ∨ byte c = 8 ∨ byte c = 9 ∨ byte c = 10 ∨ byte c = 11 ∨ byte c = 12 ∨ byte c = 13 ∨ byte c = 14 ∨ byte c = 15 ∨ byte c = 16 ∨ byte c = 17 ∨ byte c = 18 ∨ byte c = 19 ∨ byte c = 20 ∨ byte c = 21 ∨ byte c = 22 ∨ byte c = 23 ∨ byte c = 24 ∨ byte c = 25 ∨ byte c = 26 ∨ byte c = 27 ∨ byte c = 28 ∨ byte c = 29 ∨ byte c = 30 ∨ byte c = 31 ∨ byte c = 34 ∨ byte c = 92) as Hcases.
  { destruct (safeByte_false c Hc Hsafe) as [Hlow|[?|?]]; lia. }
  assert (∀ n, byte c = n →
            match escapeByte (chr n) with
            | String q body =>
              q = chr 92
              ∧ ∀ tail, Sample.unescape (body ++ tail)
                        = Some (String (chr n) EmptyString, String.length body)
            | EmptyString => False
            end → Sample.unquote 0 true (escapeByte c ++ rest)
                  = '(text, tail) ← Sample.unquote 0 true rest; Some (String c text, tail))
    as Hstep.
  { intros n Hn. apply byte_inj in Hn. subst c.
    destruct (escapeByte (chr n)) as [|q body]; [done|]. intros [-> Hbody].
    by apply unquote_escape_body. }
  repeat (destruct Hcases as [Hn|Hcases];
          [apply (Hstep _ Hn); split; [reflexivity | intros tail; reflexivity]|]).
  apply (Hstep _ Hcases); split; [reflexivity | intros tail; reflexivity].
Qed.

End ReaderEscapes.

Section ReaderRoundTrip.
Import Json.
#[local] Arguments String.append !s1 s2 / : simpl nomatch.
Local Open Scope Z_scope.

Lemma unquote_QUOTE (keep : bool) (tail : string) :
  Sample.unquote 0 keep (QUOTE ++ tail) = Some (EmptyString, tail).
Proof. reflexivity. Qed.

(** A line or paragraph separator is the three bytes E2 80 A8 or A9. *)
Lemma separator_bytes (c : ascii) (rest : string) (r : Z) (size : nat) :
  128 <= byte c → decodeRune (String c rest) = (r, size) → r = 8232 ∨ r = 8233 →
  ∃ rest', String c rest = (Sample.encodeRune r ++ rest')%string ∧ size = 3%nat.
Proof.
  intros Hc Hrune Hr.
  destruct (decodeRune_cases c rest Hc)
    as [Herr|[(c1 & rest' & -> & H0 & H1 & Hdec)
       |[(c1 & c2 & rest' & -> & H0 & H1 & H2 & Hdec)
        |(c1 & c2 & c3 & rest' & -> & H0 & H1 & H2 & H3 & Hlow & Hdec)]]].
  - rewrite Herr in Hrune. injection Hrune as <- <-. unfold RuneError in Hr. lia.
  - rewrite Hdec in Hrune. injection Hrune as <- <-. exfalso.
    pose proof (Z.mod_pos_bound (byte c) 32 eq_refl).
    pose proof (Z.mod_pos_bound (byte c1) 64 eq_refl). lia.
  - rewrite Hdec in Hrune. injection Hrune as Hval <-.
    exists rest'. split; [|done].
    assert (byte c = 226 ∧ byte c1 = 128 ∧ (byte c2 = 168 ∨ byte c2 = 169)
            ∧ (r = 8232 ↔ byte c2 = 168)) as (Hb0 & Hb1 & Hb2 & Hwhich).
    { revert Hval. Z.div_mod_to_equations. lia. }
    apply byte_inj in Hb0, Hb1. subst c c1.
    destruct Hb2 as [Hb2|Hb2]; apply byte_inj in Hb2; subst c2.
    + assert (r = 8232) as -> by (destruct Hr as [?|?]; [done|]; subst r; by apply Hwhich).
      reflexivity.
    + assert (r = 8233) as ->.
      { destruct Hr as [->|?]; [|done]. exfalso.
        assert (byte (chr 169) = 168) as Hbad by (by apply Hwhich). discriminate Hbad. }
      reflexivity.
  - rewrite Hdec in Hrune. injection Hrune as Hval <-. exfalso.
    revert Hval. Z.div_mod_to_equations. lia.
Qed.

Lemma unquote_S (k : nat) (c : ascii) (rest : string) :
  Sample.unquote (S k) true (String c rest)
  = '(text, tail) ← Sample.unquote k true rest; Some (String c text, tail).
Proof. reflexivity. Qed.

Lemma separator_escape (r : Z) (rest : string) :
  r = 8232 ∨ r = 8233 →
  Sample.unquote 0 true (BACKSLASH ++ "u202" ++ hex (Z.land r 15) ++ rest)
  = '(text, tail) ← Sample.unquote 0 true rest;
    Some ((Sample.encodeRune r ++ text)%string, tail).
Proof.
  intros Hr.
  assert (∀ body, (∀ tail, Sample.unescape (body ++ tail)
                           = Some (Sample.encodeRune r, String.length body)) →
            Sample.unquote 0 true (String (chr 92) (body ++ rest))
            = '(text, tail) ← Sample.unquote 0 true rest;
              Some ((Sample.encodeRune r ++ text)%string, tail)) as Hstep.
  { intros body Hbody. rewrite unquote_backslash by done. rewrite Hbody.
    cbn [mbind option_bind]. by rewrite unquote_skip, unquote_keep. }
  destruct Hr as [-> | ->].
  - apply (Hstep "u2028"). intros tail. reflexivity.
  - apply (Hstep "u2029"). intros tail. reflexivity.
Qed.

(** Reading back what the encoder writes for a valid string: the string
    itself, and the text that follows the closing quote.  In the second
    statement the encoder is past a separator it has escaped whole, and
    skips the bytes of it that remain. *)
Lemma unquote_appendString (s : string) :
  (∀ (k : nat) (tail : string),
     (k <= String.length s)%nat → validFrom k s = true →
     Sample.unquote k true (appendString k true s ++ QUOTE ++ tail) = Some (s, tail))
  ∧ (∀ (skipped rest tail : string),
       s = (skipped ++ rest)%string → validFrom (String.length skipped) s = true →
       Sample.unquote 0 true
         (appendString (String.length skipped) false s ++ QUOTE ++ tail)
       = Some (rest, tail)).
Proof.
  induction s as [|c s [IHkeep IHskip]].
  { split.
    - intros [|k] tail Hk _; [reflexivity | simpl in Hk; lia].
    - intros [|d skipped] rest tail Hs _; [|done]. simpl in Hs. subst rest. reflexivity. }
  assert (∀ tail, validFrom 0 (String c s) = true →
            Sample.unquote 0 true (appendString 0 true (String c s) ++ QUOTE ++ tail)
            = Some (String c s, tail)) as Hstart.
  { intros tail Hvalid. cbn [validFrom] in Hvalid.
    destruct (Z.ltb_spec (byte c) 128) as [Hc|Hc].
    - rewrite appendString_ascii by done.
      pose proof (IHkeep 0%nat tail ltac:(lia) Hvalid) as IH.
      destruct (safeByte c) eqn:Hsafe.
      + cbn [String.append]. rewrite unquote_ascii, IH; [done|..].
        * unfold safeByte in Hsafe. pose proof (byte_range c).
          destruct (Z.leb_spec 32 (byte c)); [lia | done].
        * unfold safeByte in Hsafe. intros Heq. rewrite Heq in Hsafe.
          by rewrite andb_false_r in Hsafe.
        * unfold safeByte in Hsafe. intros Heq. rewrite Heq in Hsafe.
          by rewrite andb_false_r in Hsafe.
      + rewrite string_app_assoc, unquote_escapeByte, IH by done. done.
    - destruct (decodeRune (String c s)) as [r size] eqn:Hrune.
      apply andb_true_iff in Hvalid as [Herr%negb_true_iff Hvalid].
      rewrite (appendString_rune _ _ _ _ _ Hc Hrune), Herr.
      destruct ((r =? 8232) || (r =? 8233)) eqn:Hsep.
      + assert (r = 8232 ∨ r = 8233) as Hr.
        { apply orb_true_iff in Hsep as [?%Z.eqb_eq|?%Z.eqb_eq]; auto. }
        destruct (separator_bytes c s r size Hc Hrune Hr) as (rest' & Hbytes & ->).
        rewrite !string_app_assoc, separator_escape by done.
        assert (∃ c1 c2, s = String c1 (String c2 rest')
                         ∧ Sample.encodeRune r = String c (String c1 (String c2 EmptyString)))
          as (c1 & c2 & -> & Henc).
        { destruct Hr as [-> | ->]; injection Hbytes as -> ->; eauto. }
        pose proof (IHskip (String c1 (String c2 EmptyString)) rest' tail eq_refl Hvalid)
          as IH.
        cbn [String.length] in IH. cbn [Nat.sub]. rewrite IH.
        cbn [mbind option_bind]. by rewrite Henc.
      + destruct (decodeRune_cases c s Hc)
          as [Hbad|[(c1 & rest' & -> & _ & _ & Hdec)
             |[(c1 & c2 & rest' & -> & _ & _ & _ & Hdec)
              |(c1 & c2 & c3 & rest' & -> & _ & _ & _ & _ & _ & Hdec)]]].
        * rewrite Hbad in Hrune. injection Hrune as <- <-. done.
        * rewrite Hdec in Hrune. injection Hrune as <- <-.
          cbn [String.append Nat.sub appendString].
          rewrite (unquote_rune _ _ _ _ _ Hc (Hdec _) Herr).
          cbn [Nat.sub].
          pose proof (IHkeep 1%nat tail ltac:(cbn [String.length]; lia) Hvalid) as IH.
          cbn [String.append appendString] in IH. by rewrite IH.
        * rewrite Hdec in Hrune. injection Hrune as <- <-.
          cbn [String.append Nat.sub appendString].
          rewrite (unquote_rune _ _ _ _ _ Hc (Hdec _) Herr).
          cbn [Nat.sub].
          pose proof (IHkeep 2%nat tail ltac:(cbn [String.length]; lia) Hvalid) as IH.
          cbn [String.append appendString] in IH. by rewrite IH.
        * rewrite Hdec in Hrune. injection Hrune as <- <-.
          cbn [String.append Nat.sub appendString].
          rewrite (unquote_rune _ _ _ _ _ Hc (Hdec _) Herr).
          cbn [Nat.sub].
          pose proof (IHkeep 3%nat tail ltac:(cbn [String.length]; lia) Hvalid) as IH.
          cbn [String.append appendString] in IH. by rewrite IH. }
  split.
  - intros [|k] tail Hk Hvalid; [by apply Hstart|].
    cbn [appendString String.append]. rewrite unquote_S.
    rewrite IHkeep; [done | cbn [String.length] in Hk; lia | done].
  - intros [|d skipped] rest tail Hs Hvalid.
    + simpl in Hs. subst rest. cbn [String.length]. rewrite appendString_keep.
      by apply Hstart.
    + injection Hs as <- ->. cbn [String.length appendString String.append].
      by apply IHskip.
Qed.

Lemma unquote_quote (s tail : string) :
  validString s = true →
  Sample.unquote 0 true (appendString 0 true s ++ QUOTE ++ tail) = Some (s, tail).
Proof.
  intros Hvalid. apply (proj1 (unquote_appendString s) 0%nat); [lia | done].
Qed.

End ReaderRoundTrip.

Section ReaderValues.
Import Json.
#[local] Arguments String.append !s1 s2 / : simpl nomatch.
Local Open Scope list_scope.

Lemma skipBlank_idem (s : string) : Sample.skipBlank (Sample.skipBlank s) = Sample.skipBlank s.
Proof.
  induction s as [|c s IH]; [done|]. cbn [Sample.skipBlank].
  destruct (Sample.isBlank c) eqn:Hc; [done|]. cbn [Sample.skipBlank]. by rewrite Hc.
Qed.

Lemma parseValue_skipBlank (fuel : nat) (s : string) :
  Sample.parseValue fuel s = Sample.parseValue fuel (Sample.skipBlank s).
Proof. destruct fuel; [done|]. cbn [Sample.parseValue]. by rewrite skipBlank_idem. Qed.

Lemma skipBlank_head (text tail : string) :
  Sample.headOk text → Sample.skipBlank (text ++ tail) = (text ++ tail)%string.
Proof.
  intros (c & text' & -> & Hc & _). cbn [String.append Sample.skipBlank]. by rewrite Hc.
Qed.

Lemma indent_S (depth : nat) : indent (S depth) = ("  " ++ indent depth)%string.
Proof. by destruct depth. Qed.

Lemma skipBlank_indent (depth : nat) (s : string) :
  Sample.skipBlank (indent depth ++ s) = Sample.skipBlank s.
Proof.
  induction depth as [|depth IH]; [done|].
  rewrite indent_S, string_app_assoc. exact IH.
Qed.

Lemma skipBlank_LF_indent (depth : nat) (s : string) :
  Sample.skipBlank (LF ++ indent depth ++ s) = Sample.skipBlank s.
Proof. exact (skipBlank_indent depth s). Qed.

Lemma headOk_quote (s : string) : Sample.headOk (quote s).
Proof. eexists _, _. split; [reflexivity|]. done. Qed.

Lemma headOk_block (depth : nat) (opening closing : string) (items : list string) :
  Sample.headOk opening → Sample.headOk (block depth opening closing items).
Proof.
  intros (c & text' & -> & Hc). unfold block.
  destruct items; eexists _, _; (split; [reflexivity | done]).
Qed.

(** A string that is valid UTF-8 is read back from its literal. *)
Lemma readsBack_Str (s : string) :
  validString s = true → Sample.readsBack (Str s) (quote s).
Proof.
  intros Hvalid. split; [apply headOk_quote|]. intros fuel tail Hfuel.
  destruct fuel as [|fuel]; [simpl in Hfuel; lia|].
  unfold quote. rewrite !string_app_assoc.
  change (QUOTE ++ ?x)%string with (String (chr 34) x).
  cbn [Sample.parseValue Sample.skipBlank].
  change (Sample.isBlank (chr 34)) with false. cbv iota.
  change (byte (chr 34) =? 34)%Z with true. cbv iota.
  by rewrite unquote_quote.
Qed.

Lemma parseElements_S (fuel : nat) (s : string) (acc : list value) :
  Sample.parseElements (S fuel) s acc
  = '(v, rest) ← Sample.parseValue fuel s;
    match Sample.skipBlank rest with
    | String c rest' =>
      if (byte c =? 44)%Z then Sample.parseElements fuel rest' (acc ++ [v])
      else if (byte c =? 93)%Z then Some (Array (acc ++ [v]), rest')
      else None
    | EmptyString => None
    end.
Proof. reflexivity. Qed.

(** The elements of an array, each behind a line feed and its indentation,
    up to the closing bracket. *)
Lemma parseElements_items (inner outer : nat) (items : list string) (vs : list value) :
  Forall2 Sample.readsBack vs items → items ≠ [] →
  ∀ (acc : list value) (fuel : nat) (tail : string),
    (sum_list_with (λ item, String.length item + 2) items ≤ fuel)%nat →
    Sample.parseElements fuel
      (LF ++ indent inner ++ String.concat ("," ++ LF ++ indent inner) items
       ++ LF ++ indent outer ++ "]" ++ tail) acc
    = Some (Array (acc ++ vs), tail).
Proof.
  induction 1 as [|v item vs items [Hhead Hreads] Hrest IH]; [done|].
  intros _ acc fuel tail Hfuel. cbn [sum_list_with] in Hfuel.
  destruct fuel as [|fuel]; [lia|].
  rewrite parseElements_S, parseValue_skipBlank, skipBlank_LF_indent.
  destruct items as [|item' items].
  - inversion Hrest; subst. cbn [String.concat].
    rewrite (skipBlank_head _ _ Hhead), Hreads by lia. cbn [mbind option_bind].
    rewrite skipBlank_LF_indent. reflexivity.
  - change (String.concat ?sep (item :: item' :: items))
      with (item ++ sep ++ String.concat sep (item' :: items))%string.
    rewrite !string_app_assoc.
    rewrite (skipBlank_head _ _ Hhead), Hreads by lia. cbn [mbind option_bind].
    change ("," ++ ?x)%string with (String "," x).
    cbn [Sample.skipBlank]. change (Sample.isBlank ",") with false. cbv iota.
    change (byte "," =? 44)%Z with true. cbv iota.
    rewrite <- !string_app_assoc.
    rewrite !string_app_assoc.
    rewrite (IH ltac:(done) (acc ++ [v]) fuel tail) by lia.
    by rewrite <- app_assoc.
Qed.

Lemma concat_weight (sep : string) (items : list string) :
  items ≠ [] → (2 ≤ String.length sep)%nat →
  (sum_list_with (λ item, String.length item + 2) items
   ≤ String.length (String.concat sep items) + 2)%nat.
Proof.
  intros Hne Hsep. induction items as [|item items IH]; [done|].
  destruct items as [|item' items].
  - cbn [sum_list_with String.concat]. lia.
  - change (String.concat sep (item :: item' :: items))
      with (item ++ sep ++ String.concat sep (item' :: items))%string.
    rewrite !length_append. specialize (IH ltac:(done)).
    cbn [sum_list_with] in *. lia.
Qed.

Lemma block_length (depth : nat) (opening closing : string) (item : string)
    (items : list string) :
  (sum_list_with (λ item, String.length item + 2) (item :: items) + 1
   ≤ String.length (block depth opening closing (item :: items)))%nat
  ∨ opening = EmptyString ∨ closing = EmptyString.
Proof.
  destruct opening as [|o opening]; [auto|]. destruct closing as [|c closing]; [auto|].
  left. unfold block. rewrite !length_append.
  assert (2 ≤ String.length ("," ++ LF ++ indent (S depth)))%nat as Hsep.
  { rewrite !length_append. cbn [String.length LF]. lia. }
  pose proof (concat_weight ("," ++ LF ++ indent (S depth)) (item :: items)
                ltac:(done) Hsep) as Hweight.
  cbn [String.length LF] in *. lia.
Qed.

Lemma parseValue_bracket (fuel : nat) (rest : string) :
  Sample.parseValue (S fuel) (String "[" rest)
  = match Sample.skipBlank rest with
    | String c rest' =>
      if (byte c =? 93)%Z then Some (Array [], rest')
      else Sample.parseElements fuel rest []
    | EmptyString => None
    end.
Proof. reflexivity. Qed.

Lemma skipBlank_first (inner : nat) (sep : string) (item : string) (items : list string)
    (tail : string) :
  Sample.headOk item →
  ∃ c rest, Sample.skipBlank (LF ++ indent inner ++ String.concat sep (item :: items) ++ tail)
            = String c rest ∧ byte c ≠ 93%Z ∧ byte c ≠ 125%Z.
Proof.
  intros Hhead. rewrite skipBlank_LF_indent.
  assert (∃ more, (String.concat sep (item :: items) ++ tail)%string = (item ++ more)%string)
    as [more ->].
  { destruct items as [|item' items]; [by eexists|].
    change (String.concat sep (item :: item' :: items))
      with (item ++ sep ++ String.concat sep (item' :: items))%string.
    rewrite !string_app_assoc. by eexists. }
  rewrite (skipBlank_head _ _ Hhead).
  destruct Hhead as (c & text' & -> & _ & H93 & H125). by exists c, (text' ++ more)%string.
Qed.

(** An array is read back when its elements are. *)
Lemma readsBack_Array (depth : nat) (items : list string) (vs : list value) :
  Forall2 Sample.readsBack vs items →
  Sample.readsBack (Array vs) (block depth "[" "]" items).
Proof.
  intros Hall. split; [by apply headOk_block; eexists _, _|].
  intros fuel tail Hfuel. destruct Hall as [|v item vs items Hv Hall].
  { destruct fuel as [|fuel]; [simpl in Hfuel; lia|]. reflexivity. }
  destruct (block_length depth "[" "]" item items) as [Hlen|[?|?]]; [|done..].
  destruct fuel as [|fuel]; [lia|].
  unfold block. rewrite !string_app_assoc.
  change ("[" ++ ?x)%string with (String "[" x).
  rewrite parseValue_bracket.
  destruct (skipBlank_first (S depth) ("," ++ LF ++ indent (S depth)) item items
              (LF ++ indent depth ++ "]" ++ tail) (proj1 Hv)) as (c & rest & -> & H93 & _).
  apply Z.eqb_neq in H93. rewrite H93.
  apply (parseElements_items (S depth) depth (item :: items) (v :: vs)); [|done|lia].
  by constructor.
Qed.

Lemma parseMembers_S (fuel : nat) (s : string) (acc : gmap string value) :
  Sample.parseMembers (S fuel) s acc
  = match Sample.skipBlank s with
    | String q rest =>
      if (byte q =? 34)%Z then
        '(key, rest1) ← Sample.unquote 0 true rest;
        match Sample.skipBlank rest1 with
        | String colon rest2 =>
          if (byte colon =? 58)%Z then
            '(v, rest3) ← Sample.parseValue fuel rest2;
            match Sample.skipBlank rest3 with
            | String c rest4 =>
              if (byte c =? 44)%Z then Sample.parseMembers fuel rest4 (<[key := v]> acc)
              else if (byte c =? 125)%Z then Some (Object (<[key := v]> acc), rest4)
              else None
            | EmptyString => None
            end
          else None
        | EmptyString => None
        end
      else None
    | EmptyString => None
    end.
Proof. reflexivity. Qed.

Lemma member_text (key text rest : string) :
  (member (key, text) ++ rest)%string
  = String (chr 34)
      (appendString 0 true key ++ QUOTE ++ String ":" (String " " (text ++ rest)))%string.
Proof. unfold member, quote. cbn [fst snd]. by rewrite !string_app_assoc. Qed.

Lemma member_length (key text : string) :
  (String.length text + 4 ≤ String.length (member (key, text)))%nat.
Proof.
  unfold member, quote. cbn [fst snd]. rewrite !length_append.
  cbn [String.length QUOTE]. lia.
Qed.

(** One member: its key, the colon, and its value. *)
Lemma parseMember (fuel : nat) (key text rest : string) (v : value)
    (acc : gmap string value) :
  validString key = true → Sample.readsBack v text →
  (String.length (member (key, text)) ≤ S fuel)%nat →
  Sample.parseMembers (S fuel) (member (key, text) ++ rest) acc
  = match Sample.skipBlank rest with
    | String c rest4 =>
      if (byte c =? 44)%Z then Sample.parseMembers fuel rest4 (<[key := v]> acc)
      else if (byte c =? 125)%Z then Some (Object (<[key := v]> acc), rest4)
      else None
    | EmptyString => None
    end.
Proof.
  intros Hkey [Hhead Hreads] Hfuel. pose proof (member_length key text).
  rewrite parseMembers_S, member_text.
  cbn [Sample.skipBlank]. change (Sample.isBlank (chr 34)) with false. cbv iota.
  change (byte (chr 34) =? 34)%Z with true. cbv iota.
  rewrite unquote_quote by done. cbn [mbind option_bind].
  cbn [Sample.skipBlank]. change (Sample.isBlank ":") with false. cbv iota.
  change (byte ":" =? 58)%Z with true. cbv iota.
  rewrite parseValue_skipBlank. cbn [Sample.skipBlank].
  change (Sample.isBlank " ") with true. cbv iota.
  rewrite (skipBlank_head _ _ Hhead), Hreads by lia. reflexivity.
Qed.

Lemma concat_cons2 (sep first second : string) (more : list string) :
  String.concat sep (first :: second :: more)
  = (first ++ sep ++ String.concat sep (second :: more))%string.
Proof. reflexivity. Qed.

(** The members of an object, each behind a line feed and its indentation,
    up to the closing brace. *)
Lemma parseMembers_items (inner outer : nat) (kvs : list (string * string))
    (vs : list value) :
  Forall2 (λ v kt, validString kt.1 = true ∧ Sample.readsBack v kt.2) vs kvs →
  kvs ≠ [] →
  ∀ (acc : gmap string value) (fuel : nat) (tail : string),
    (sum_list_with (λ item, String.length item + 2) (member <$> kvs) ≤ fuel)%nat →
    Sample.parseMembers fuel
      (LF ++ indent inner ++ String.concat ("," ++ LF ++ indent inner) (member <$> kvs)
       ++ LF ++ indent outer ++ "}" ++ tail) acc
    = Some (Object (Sample.insertAll (zip (kvs.*1) vs) acc), tail).
Proof.
  induction 1 as [|v [key text] vs kvs [Hkey Hreads] Hrest IH]; [done|].
  intros _ acc fuel tail Hfuel. cbn [fmap list_fmap sum_list_with] in Hfuel.
  destruct fuel as [|fuel]; [lia|].
  assert (∀ s acc', Sample.parseMembers (S fuel) (LF ++ indent inner ++ s) acc'
                    = Sample.parseMembers (S fuel) s acc') as Hskip.
  { intros s acc'. by rewrite !parseMembers_S, skipBlank_LF_indent. }
  rewrite Hskip. cbn [fmap list_fmap fst snd zip zip_with Sample.insertAll fold_left].
  destruct kvs as [|kt' kvs].
  - inversion Hrest; subst. cbn [list_fmap String.concat].
    rewrite (parseMember fuel key text _ v acc Hkey Hreads) by lia.
    rewrite skipBlank_LF_indent. reflexivity.
  - rewrite fmap_cons, concat_cons2, !string_app_assoc.
    rewrite (parseMember fuel key text _ v acc Hkey Hreads) by lia.
    change ("," ++ ?x)%string with (String "," x).
    cbn [Sample.skipBlank]. change (Sample.isBlank ",") with false. cbv iota.
    change (byte "," =? 44)%Z with true. cbv iota.
    rewrite <- fmap_cons.
    rewrite (IH ltac:(done) (<[key := v]> acc) fuel tail); [done|]. lia.
Qed.

Lemma insertAll_lookup (members : list (string * value)) :
  NoDup (members.*1) →
  ∀ (acc : gmap string value) (k : string),
    Sample.insertAll members acc !! k
    = match (list_to_map members : gmap string value) !! k with
      | Some v => Some v
      | None => acc !! k
      end.
Proof.
  induction members as [|[k0 v0] members IH]; intros Hnodup acc k.
  { cbn [Sample.insertAll fold_left list_to_map foldr]. by rewrite lookup_empty. }
  cbn [fmap list_fmap fst] in Hnodup. apply NoDup_cons in Hnodup as [Hk0 Hnodup].
  cbn [Sample.insertAll fold_left list_to_map foldr fst snd].
  change (fold_left _ members ?a) with (Sample.insertAll members a).
  rewrite (IH Hnodup). cbn [uncurry].
  destruct (decide (k = k0)) as [->|Hne].
  - rewrite (not_elem_of_list_to_map_1 _ _ Hk0), !lookup_insert_eq. done.
  - by rewrite !lookup_insert_ne.
Qed.

Lemma insertAll_list_to_map (members : list (string * value)) :
  NoDup (members.*1) → Sample.insertAll members ∅ = list_to_map members.
Proof.
  intros Hnodup. apply map_eq. intros k. rewrite (insertAll_lookup _ Hnodup).
  rewrite lookup_empty. by destruct (_ !! k).
Qed.

Lemma parseValue_brace (fuel : nat) (rest : string) :
  Sample.parseValue (S fuel) (String "{" rest)
  = match Sample.skipBlank rest with
    | String c rest' =>
      if (byte c =? 125)%Z then Some (Object ∅, rest')
      else Sample.parseMembers fuel rest ∅
    | EmptyString => None
    end.
Proof. reflexivity. Qed.

(** An object is read back when its keys are valid strings and its values
    are read back: the members come in the order of their keys, and the
    reader puts each under its key. *)
Lemma readsBack_Object (formatFloat : float64 → option string) (depth : nat)
    (m : gmap string value) (text : string) :
  (∀ k v t, m !! k = Some v → encodeValue formatFloat (S depth) v = Some t →
            validString k = true ∧ Sample.readsBack v t) →
  encodeValue formatFloat depth (Object m) = Some text →
  Sample.readsBack (Object m) text.
Proof.
  intros Hvalues Htext. cbn [encodeValue] in Htext.
  destruct (members _) as [kvs|] eqn:Hkvs; [|done].
  injection Htext as <-. apply members_Some in Hkvs.
  assert (∃ sorted, sorted ≡ₚ kvs ∧ merge_sort keyLe kvs = sorted) as (sorted & Hperm & ->).
  { eexists. split; [apply (merge_sort_Permutation keyLe) | done]. }
  assert (∀ k t, (k, t) ∈ sorted →
            ∃ v, m !! k = Some v ∧ encodeValue formatFloat (S depth) v = Some t) as Hin.
  { intros k t Hkt. rewrite Hperm in Hkt.
    assert ((k, Some t) ∈ map_to_list (encodeValue formatFloat (S depth) <$> m)) as Hm.
    { rewrite Hkvs. apply list_elem_of_fmap. by exists (k, t). }
    apply elem_of_map_to_list in Hm. rewrite lookup_fmap in Hm.
    destruct (m !! k) as [v|]; [|done]. injection Hm as Hv. eauto. }
  set (vs := (λ kt : string * string, default Null (m !! kt.1)) <$> sorted).
  assert (Forall2 (λ v kt, validString kt.1 = true ∧ Sample.readsBack v kt.2) vs sorted)
    as Hall.
  { apply Forall2_fmap_l, Forall_Forall2_diag, Forall_forall. intros [k t] Hkt.
    destruct (Hin k t Hkt) as (v & Hv & Ht). unfold compose. cbn beta.
    cbn [fst snd]. rewrite Hv. by eapply Hvalues. }
  split; [by apply headOk_block; eexists _, _|].
  intros fuel tail Hfuel.
  destruct (decide (sorted = [])) as [Hnil|Hne].
  { subst sorted. apply Permutation_nil_l in Hperm. subst kvs.
    assert (m = ∅) as ->.
    { apply (fmap_empty_inv (encodeValue formatFloat (S depth))).
      by apply map_to_list_empty_iff. }
    destruct fuel as [|fuel]; [simpl in Hfuel; lia|]. reflexivity. }
  assert (∃ item items, member <$> sorted = item :: items) as (item & items & Hitems).
  { destruct sorted; [done|]. by eexists _, _. }
  destruct (block_length depth "{" "}" item items) as [Hlen|[?|?]]; [|done..].
  rewrite <- Hitems in Hlen.
  destruct fuel as [|fuel]; [lia|].
  unfold block. rewrite Hitems, <- Hitems. rewrite !string_app_assoc.
  change ("{" ++ ?x)%string with (String "{" x).
  rewrite parseValue_brace.
  assert (∃ c rest, Sample.skipBlank
                      (LF ++ indent (S depth)
                       ++ String.concat ("," ++ LF ++ indent (S depth)) (member <$> sorted)
                       ++ LF ++ indent depth ++ "}" ++ tail) = String c rest
                    ∧ byte c ≠ 125%Z) as (c & rest & -> & H125).
  { rewrite Hitems.
    destruct (skipBlank_first (S depth) ("," ++ LF ++ indent (S depth)) item items
                (LF ++ indent depth ++ "}" ++ tail)) as (c & rest & Hskip & _ & H125).
    - destruct sorted as [|[k t] sorted'']; [done|]. injection Hitems as <- _.
      eexists _, _. split; [reflexivity | done].
    - eauto. }
  apply Z.eqb_neq in H125. rewrite H125.
  rewrite (parseMembers_items (S depth) depth sorted vs Hall Hne) by lia.
  do 2 f_equal.
  assert (zip (sorted.*1) vs
          = (λ kt : string * string, (kt.1, default Null (m !! kt.1))) <$> sorted) as ->.
  { unfold vs. clear. induction sorted as [|kt sorted IH]; [done|].
    cbn [fmap list_fmap zip zip_with] in *. by rewrite IH. }
  assert (NoDup (sorted.*1)) as Hnodup.
  { rewrite Hperm.
    assert (kvs.*1 = (map_to_list (encodeValue formatFloat (S depth) <$> m)).*1) as ->.
    { rewrite Hkvs, <- list_fmap_compose. done. }
    apply NoDup_fst_map_to_list. }
  rewrite insertAll_list_to_map by (by rewrite <- list_fmap_compose).
  f_equal. apply map_eq. intros k. destruct (m !! k) as [v|] eqn:Hk.
  - apply elem_of_list_to_map_1; [by rewrite <- list_fmap_compose|].
    assert (∃ t, (k, t) ∈ sorted) as [t Hkt].
    { assert (is_Some ((encodeValue formatFloat (S depth) <$> m) !! k)) as [o Ho].
      { rewrite lookup_fmap, Hk. by eexists. }
      apply elem_of_map_to_list in Ho. rewrite Hkvs in Ho.
      apply list_elem_of_fmap in Ho as ([k' t] & [= -> ->] & Hkt).
      exists t. by rewrite Hperm. }
    apply list_elem_of_fmap. exists (k, t). cbn [fst]. by rewrite Hk.
  - apply not_elem_of_list_to_map_1. rewrite <- list_fmap_compose.
    intros ([k' t] & -> & Hkt)%list_elem_of_fmap. cbn [compose fst] in Hk.
    destruct (Hin _ _ Hkt) as (v & Hv & _). congruence.
Qed.

End ReaderValues.

Section ReaderMetadata.
Import Json Toothmetadata.
Context `{Imports}.
Local Open Scope list_scope.

Lemma readsBack_encoded_Str (depth : nat) (s text : string) :
  validString s = true →
  encodeValue strconv_formatFloat depth (Str s) = Some text →
  Sample.readsBack (Str s) text.
Proof. intros Hvalid [= <-]. by apply readsBack_Str. Qed.

Lemma readsBack_encoded_Array (depth : nat) (l : list value) (text : string) :
  (∀ v t, v ∈ l → encodeValue strconv_formatFloat (S depth) v = Some t →
          Sample.readsBack v t) →
  encodeValue strconv_formatFloat depth (Array l) = Some text →
  Sample.readsBack (Array l) text.
Proof.
  intros Hall Htext. cbn [encodeValue] in Htext.
  destruct (mapM _ l) as [items|] eqn:Hitems; [|done]. injection Htext as <-.
  apply readsBack_Array. apply mapM_Some_1 in Hitems.
  induction Hitems as [|v t l items Hv _ IH]; constructor.
  - apply Hall; [by left | done].
  - apply IH. intros v' t' Hin. apply Hall. by right.
Qed.

(** The reader finds in the document that [JSON] writes the map that
    [JSON] built, when the strings of the metadata are valid UTF-8. *)
Lemma readsBack_metadataMapOf (metadata : Metadata) (text : string) :
  validStrings metadata →
  encodeValue strconv_formatFloat 0 (Object (metadataMapOf metadata)) = Some text →
  Sample.readsBack (Object (metadataMapOf metadata)) text.
Proof.
  intros (Htooth & Hversion & Hdeps & Hname & Hdescription & Hauthor & Hlicense
          & Hhomepage & Hplacement).
  apply readsBack_Object. intros k v t Hk Hv. unfold metadataMapOf in Hk.
  rewrite rangeAssign_make in Hk.
  repeat (apply lookup_insert_Some in Hk as [[<- <-]|[_ Hk]]);
    [| | | | |by rewrite lookup_empty in Hk].
  - split; [done|]. eapply readsBack_encoded_Array; [|exact Hv].
    intros v' t' (p & -> & Hp)%list_elem_of_fmap Hv'.
    apply (proj1 (Forall_forall _ _) Hplacement) in Hp as [Hsource Hdestination].
    unfold encodePlacement in *. eapply readsBack_Object; [|exact Hv'].
    intros k2 v2 t2 Hk2 Hv2.
    repeat (apply lookup_insert_Some in Hk2 as [[<- <-]|[_ Hk2]]);
      [| |by rewrite lookup_empty in Hk2];
      (split; [done | by eapply readsBack_encoded_Str]).
  - split; [done|]. unfold encodeInformation in *. eapply readsBack_Object; [|exact Hv].
    intros k2 v2 t2 Hk2 Hv2.
    repeat (apply lookup_insert_Some in Hk2 as [[<- <-]|[_ Hk2]]);
      [| | | | |by rewrite lookup_empty in Hk2];
      (split; [done | by eapply readsBack_encoded_Str]).
  - split; [done|]. eapply readsBack_Object; [|exact Hv].
    intros k2 v2 t2 Hk2 Hv2. rewrite encodeDependencies_fmap, lookup_fmap in Hk2.
    destruct (Dependencies metadata !! k2) as [outer|] eqn:Houter; [|done].
    injection Hk2 as <-. destruct (Hdeps _ _ Houter) as [Hkey Hmatches].
    split; [done|]. rewrite encodeOuterList_eq in *.
    eapply readsBack_encoded_Array; [|exact Hv2].
    intros v3 t3 (inner & -> & Hinner)%list_elem_of_fmap Hv3.
    rewrite encodeInnerList_eq in *.
    eapply readsBack_encoded_Array; [|exact Hv3].
    intros v4 t4 (versionMatch & -> & Hmatch)%list_elem_of_fmap Hv4.
    eapply readsBack_encoded_Str; [|exact Hv4].
    apply (proj1 (Forall_forall _ _) Hmatches) in Hinner.
    by apply (proj1 (Forall_forall _ _) Hinner) in Hmatch.
  - split; [done|]. by eapply readsBack_encoded_Str.
  - split; [done|]. by eapply readsBack_encoded_Str.
Qed.

(** The reader gives back, for the bytes [JSON] writes, the map [JSON]
    built. *)
Lemma Unmarshal_JSON (metadata : Metadata) (bytes : string) :
  validStrings metadata → JSON metadata = Ok bytes →
  Sample.Unmarshal bytes = inl (metadataMapOf metadata).
Proof.
  intros Hvalid. unfold JSON, Encode.
  destruct (encodeValue _ 0 _) as [text|] eqn:Htext; [|done]. intros [= <-].
  destruct (readsBack_metadataMapOf metadata text Hvalid Htext) as [_ Hreads].
  unfold Sample.Unmarshal. rewrite Hreads by (rewrite length_append; lia).
  reflexivity.
Qed.

End ReaderMetadata.

Section RoundTripThroughBytes.
Import Json Toothmetadata.
Context `{Imports}.
Local Open Scope list_scope.

(** C1. Round trip: for a metadata [m] returned by [NewFromJSON], whose tooth
    path, version and version matches print in the form their parsers read
    back and whose strings are valid UTF-8, [NewFromJSON] applied to the
    bytes of [m.JSON()] succeeds and returns [m] itself: same path, version,
    information, dependency map with the groups and the matches of each
    group in the same order, and placements.  The bytes are the ones the
    encoder writes, with their escapes, their indentation and their members
    in the order of the keys, and they are read by the reader of this
    development; of the JSON library it is only assumed that on these bytes
    it does what that reader does. *)
Theorem NewFromJSON_JSON_round_trip (jsonData : string) (m : Metadata) :
  NewFromJSON jsonData = Ok m →
  strings_ToLower (ToothPath m) = ToothPath m →
  versionutils_NewFromString (versionutils_String (Version m)) = inl (Version m) →
  Forall (λ entry, Forall (Forall canonicalMatch) entry.2) (map_to_list (Dependencies m)) →
  validStrings m →
  (∀ bytes, JSON m = Ok bytes → json_Unmarshal bytes = Sample.Unmarshal bytes) →
  ∃ bytes, JSON m = Ok bytes ∧ NewFromJSON bytes = Ok m.
Proof.
  intros Hdecoded Hlower Hversion Hmatches Hvalid Hlibrary.
  unfold NewFromJSON in Hdecoded.
  destruct (json_Unmarshal jsonData) as [metadataMap|]; [|discriminate Hdecoded].
  apply decodeMap_Ok_inv in Hdecoded
    as (tooth & text & entries & information & placements & _ & Hpath & Hpathvalid
        & _ & _ & _ & _ & _ & _ & _ & _ & _ & _ & _ & Hplacement).
  destruct (JSON_is_Ok m) as [bytes Hbytes]. exists bytes. split; [exact Hbytes|].
  unfold NewFromJSON.
  rewrite (Hlibrary bytes Hbytes), (Unmarshal_JSON m bytes Hvalid Hbytes).
  clear Hlibrary Hbytes.
  apply decodeMap_metadataMapOf; [exact Hlower | | exact Hversion | |].
  - by rewrite Hpath.
  - intros k outer Hk. apply elem_of_map_to_list in Hk.
    by apply (proj1 (Forall_forall _ _) Hmatches (k, outer)).
  - by eapply traverse_decodePlacement_accepted.
Qed.

End RoundTripThroughBytes.

Section RoundTripWitness.
Import Json Toothmetadata.
Local Open Scope list_scope.

(** The round trip on the sample manifest, and on the manifest whose
    description has quotes, a backslash, control bytes and the line
    separator, which the encoder escapes, and letters of two bytes, which it
    copies. *)
Lemma NewFromJSON_JSON_round_trip_witness :
  (∃ bytes, JSON Sample.manifestMetadata = Ok bytes
     ∧ NewFromJSON (H := Sample.imports) bytes = Ok Sample.manifestMetadata)
  ∧ (∃ bytes, JSON Sample.escapesMetadata = Ok bytes
       ∧ NewFromJSON (H := Sample.imports) bytes = Ok Sample.escapesMetadata).
Proof.
  split.
  - apply (NewFromJSON_JSON_round_trip (H := Sample.imports) Sample.manifest).
    + reflexivity.
    + reflexivity.
    + reflexivity.
    + let l := eval vm_compute in (map_to_list Sample.manifestDependencies) in
      change (map_to_list (Dependencies Sample.manifestMetadata)) with l.
      repeat constructor.
    + unfold validStrings. split_and!; try reflexivity.
      * apply map_Forall_insert_2; [|apply map_Forall_insert_2; [|apply map_Forall_empty]];
          (split; [reflexivity | repeat constructor]).
      * repeat constructor.
    + intros bytes _. reflexivity.
  - apply (NewFromJSON_JSON_round_trip (H := Sample.imports) Sample.manifestWithEscapes).
    + reflexivity.
    + reflexivity.
    + reflexivity.
    + let l := eval vm_compute in (map_to_list (Dependencies Sample.escapesMetadata)) in
      change (map_to_list (Dependencies Sample.escapesMetadata)) with l.
      repeat constructor.
    + unfold validStrings. split_and!; try reflexivity.
      * apply map_Forall_insert_2; [|apply map_Forall_empty].
        split; [reflexivity | repeat constructor].
      * constructor.
    + intros bytes _. reflexivity.
Defined.

(** Why the strings have to be valid: a byte that is no UTF-8 is written as
    the escape of U+FFFD, and that rune is what the reader finds. *)
Lemma invalid_byte_not_read_back :
  validString (String (chr 255) EmptyString) = false
  ∧ quote (String (chr 255) EmptyString) = (QUOTE ++ BACKSLASH ++ "ufffd" ++ QUOTE)%string
  ∧ Sample.unquote 0 true (appendString 0 true (String (chr 255) EmptyString) ++ QUOTE)
    = Some (Sample.encodeRune RuneError, EmptyString)
  ∧ Sample.encodeRune RuneError ≠ String (chr 255) EmptyString.
Proof. split_and!; [reflexivity..|discriminate]. Qed.

End RoundTripWitness.
